(** * SolarPanelsCalcs: the 2D editor and the 3D inclination model

    A shallow embedding of [src/static/js/editor2d.js] (classes
    [AEPEditor2D] and [AEPEditor3D]) together with the properties its
    specification states about it.

    Numbers.  JavaScript numbers are modelled as exact rationals ([Q]);
    rounding of IEEE doubles is not modelled.  Where the outcome of a test
    of the source depends on how a difference is rounded (the feasibility
    test of [createAutoStructure]) the property is stated for whole
    centimetres, on which the arithmetic of the source is exact; properties
    that hold only without rounding (an exact inverse, an exact symmetry)
    are not stated.  The running minima and maxima
    that the source initialises with [Infinity] / [-Infinity] live in
    [JSNum.num], which adds the two infinities.  [Math.tan], [Math.sqrt]
    and [Math.PI] have no rational counterpart and are taken as variables of
    the section that uses them.

    Effects.  Methods that mutate [this] become functions from an [Editor]
    record to a new [Editor]; a [TypeError] raised by a property access on
    [undefined] is the [None] of an [option].  Rendering, alerts and UI
    refreshes ([render], [_updateUI], [showAlert], [onUpdate]) do not touch
    the fields modelled here and are left out. *)

From Stdlib Require Import QArith Qminmax Qabs Qround Lqa ZArith List Bool Lia
  String.
From stdpp Require Import base option list sorting.
Import ListNotations.
Open Scope Q_scope.

(** ** Numbers *)

Module JSNum.

(** A number that may still be one of the two infinities, as the
    accumulators of the bounding-box loops are before their first update. *)
Inductive num : Type :=
| NegInf
| Fin (q : Q)
| PosInf.

(** [Math.min(a, q)] for a finite [q]. *)
Definition min (a : num) (q : Q) : num :=
  match a with
  | NegInf => NegInf
  | Fin p => Fin (Qmin p q)
  | PosInf => Fin q
  end.

(** [Math.max(a, q)] for a finite [q]. *)
Definition max (a : num) (q : Q) : num :=
  match a with
  | NegInf => Fin q
  | Fin p => Fin (Qmax p q)
  | PosInf => PosInf
  end.

(** [Number.isFinite(a)]. *)
Definition isFinite (a : num) : bool :=
  match a with Fin _ => true | _ => false end.

(** [q < a] for a finite [q]. *)
Definition ltb_l (q : Q) (a : num) : bool :=
  match a with
  | NegInf => false
  | Fin p => negb (Qle_bool p q)
  | PosInf => true
  end.

(** [Math.abs(q - a) <= tol] for finite [q] and [tol]. *)
Definition absDiffLe (q : Q) (a : num) (tol : Q) : bool :=
  match a with
  | Fin p => Qle_bool (Qabs (q - p)) tol
  | _ => false
  end.

End JSNum.

(** [a < b] and [a >= b] on finite numbers. *)
Definition Qltb (a b : Q) : bool := negb (Qle_bool b a).
Definition Qgeb (a b : Q) : bool := Qle_bool b a.

(** [Math.max(0, Math.min(1, t))]. *)
Definition clamp01 (t : Q) : Q := Qmax 0 (Qmin 1 t).

(** ** The data model *)

Module Point.
Record t : Type := mk { x : Q; y : Q }.
End Point.

(** [{minX, maxX, minY, maxY}]: construction bounds and panel bounds. *)
Module Bounds.
Record t : Type := mk { minX : Q; maxX : Q; minY : Q; maxY : Q }.

(** Rectangle inclusion, the order of the bounds-nesting property. *)
Definition within (inner outer : t) : Prop :=
  minX outer <= minX inner /\ maxX inner <= maxX outer /\
  minY outer <= minY inner /\ maxY inner <= maxY outer.
End Bounds.

(** The record [getTerraceBounds] returns. *)
Module TerraceBounds.
Record t : Type := mk {
  minX : Q; maxX : Q; minY : Q; maxY : Q; width : Q; height : Q
}.

Definition box (b : t) : Bounds.t :=
  Bounds.mk (minX b) (maxX b) (minY b) (maxY b).
End TerraceBounds.

Module Obstacle.
Record t : Type := mk { x : Q; y : Q; w : Q; h : Q; type : string }.
End Obstacle.

Module Beam.
(** [isAutoStructure] is absent ([undefined], falsy) on hand-drawn beams. *)
Record t : Type := mk {
  x1 : Q; y1 : Q; x2 : Q; y2 : Q; profile : string; isAutoStructure : bool
}.
End Beam.

Module Panel.
(** [realHeight] may be missing on imported panels. *)
Record t : Type := mk {
  x : Q; y : Q; w : Q; h : Q;
  realHeight : option Q; inclination : Q; power : Q
}.
End Panel.

Module TextItem.
Record t : Type := mk { x : Q; y : Q; text : string; size : Q }.
End TextItem.

Module PanelConfig.
Record t : Type := mk { width : Q; height : Q; inclination : Q; power : Q }.
End PanelConfig.

Module TextConfig.
Record t : Type := mk { content : string; size : Q }.
End TextConfig.

(** A selection entry [{type, index}]. *)
Inductive ElementKind : Type := KPanel | KObstacle | KBeam | KText.

Module Sel.
Record t : Type := mk { type : ElementKind; index : nat }.
End Sel.

#[global] Instance ElementKind_eq_dec : EqDecision ElementKind.
Proof. solve_decision. Defined.

#[global] Instance Sel_eq_dec : EqDecision Sel.t.
Proof. solve_decision. Defined.

(** The fields of [AEPEditor2D] that the modelled operations read or write.
    View state (pan, zoom, current tool, drag anchors, alignment guides) is
    not part of the design data and is omitted. *)
Record Editor : Type := mkEditor {
  scale : Q;
  terraceVertices : list Point.t;
  constructionBounds : option Bounds.t;
  panelBounds : option Bounds.t;
  obstacles : list Obstacle.t;
  beams : list Beam.t;
  panels : list Panel.t;
  texts : list TextItem.t;
  tempPoints : list Point.t;
  selectedElements : list Sel.t;
  panelConfig : PanelConfig.t;
  textConfig : TextConfig.t
}.

Definition set_terrace (vs : list Point.t) (e : Editor) : Editor :=
  mkEditor (scale e) vs (constructionBounds e) (panelBounds e) (obstacles e)
    (beams e) (panels e) (texts e) (tempPoints e) (selectedElements e)
    (panelConfig e) (textConfig e).

Definition set_bounds (cb pb : option Bounds.t) (e : Editor) : Editor :=
  mkEditor (scale e) (terraceVertices e) cb pb (obstacles e)
    (beams e) (panels e) (texts e) (tempPoints e) (selectedElements e)
    (panelConfig e) (textConfig e).

Definition set_beams (bs : list Beam.t) (e : Editor) : Editor :=
  mkEditor (scale e) (terraceVertices e) (constructionBounds e) (panelBounds e)
    (obstacles e) bs (panels e) (texts e) (tempPoints e) (selectedElements e)
    (panelConfig e) (textConfig e).

Definition set_tempPoints (ps : list Point.t) (e : Editor) : Editor :=
  mkEditor (scale e) (terraceVertices e) (constructionBounds e) (panelBounds e)
    (obstacles e) (beams e) (panels e) (texts e) ps (selectedElements e)
    (panelConfig e) (textConfig e).

(** The constructor: [this.scale = options.scale || 4], empty collections,
    no bounds, the default panel and text configuration. *)
Definition newEditor (optScale : option Q) : Editor :=
  mkEditor
    (match optScale with
     | Some s => if Qeq_bool s 0 then 4 else s
     | None => 4
     end)
    [] None None [] [] [] [] [] []
    (PanelConfig.mk 114 228 0 610)
    (TextConfig.mk "Texto" 14).

(** ** Bounds engine *)

(** The four running extremes of the loop in [getTerraceBounds]. *)
Record Extremes : Type := mkExtremes {
  e_minX : JSNum.num; e_maxX : JSNum.num;
  e_minY : JSNum.num; e_maxY : JSNum.num
}.

Definition noExtremes : Extremes :=
  mkExtremes JSNum.PosInf JSNum.NegInf JSNum.PosInf JSNum.NegInf.

Definition applyPoint (acc : Extremes) (px py : Q) : Extremes :=
  mkExtremes (JSNum.min (e_minX acc) px) (JSNum.max (e_maxX acc) px)
             (JSNum.min (e_minY acc) py) (JSNum.max (e_maxY acc) py).

Definition vertexExtremes (vs : list Point.t) : Extremes :=
  fold_left (fun acc v => applyPoint acc (Point.x v) (Point.y v)) vs noExtremes.

(** [getTerraceBounds]: [null] below three vertices, otherwise the bounding
    box of the vertices with its width and height.  The last branch is the
    box with an infinite side, which three loop rounds rule out
    ([getTerraceBounds_some]). *)
Definition getTerraceBounds (vs : list Point.t) : option TerraceBounds.t :=
  if (length vs <? 3)%nat then None
  else
    match vertexExtremes vs with
    | mkExtremes (JSNum.Fin minX) (JSNum.Fin maxX)
                 (JSNum.Fin minY) (JSNum.Fin maxY) =>
        Some (TerraceBounds.mk minX maxX minY maxY (maxX - minX) (maxY - minY))
    | _ => None
    end.

Definition _calculateConstructionBounds (bounds : TerraceBounds.t) (margin : Q)
  : Bounds.t :=
  Bounds.mk (TerraceBounds.minX bounds - margin)
            (TerraceBounds.maxX bounds + margin)
            (TerraceBounds.minY bounds - margin)
            (TerraceBounds.maxY bounds + margin).

Definition _calculatePanelBounds (bounds : Bounds.t) (margin : Q) : Bounds.t :=
  Bounds.mk (Bounds.minX bounds - margin) (Bounds.maxX bounds + margin)
            (Bounds.minY bounds - margin) (Bounds.maxY bounds + margin).

Definition _isWithinConstructionBounds (e : Editor) (px py : Q) : bool :=
  match constructionBounds e with
  | None => true
  | Some cb =>
      Qgeb px (Bounds.minX cb) && Qle_bool px (Bounds.maxX cb) &&
      Qgeb py (Bounds.minY cb) && Qle_bool py (Bounds.maxY cb)
  end.

Definition _isRectWithinPanelBounds (e : Editor) (rx ry rw rh : Q) : bool :=
  match panelBounds e with
  | None => true
  | Some pb =>
      Qgeb rx (Bounds.minX pb) && Qgeb ry (Bounds.minY pb) &&
      Qle_bool (rx + rw) (Bounds.maxX pb) &&
      Qle_bool (ry + rh) (Bounds.maxY pb)
  end.

Definition _isLineWithinConstructionBounds (e : Editor) (ax ay bx by_ : Q)
  : bool :=
  match constructionBounds e with
  | None => true
  | Some _ =>
      _isWithinConstructionBounds e ax ay &&
      _isWithinConstructionBounds e bx by_
  end.

(** The block shared by [confirmTerrace], [setRectangularTerrace], the
    double-click handler and [importData]:
    [const bounds = this.getTerraceBounds(); if (bounds) { ... 10 ... 40 }]. *)
Definition recomputeBounds (e : Editor) : Editor :=
  match getTerraceBounds (terraceVertices e) with
  | Some bounds =>
      let cb := _calculateConstructionBounds bounds 10 in
      set_bounds (Some cb) (Some (_calculatePanelBounds cb 40)) e
  | None => e
  end.

(** [confirmTerrace]: with fewer than three temporary points only a warning
    is shown. *)
Definition confirmTerrace (e : Editor) : Editor :=
  if (3 <=? length (tempPoints e))%nat
  then set_tempPoints [] (recomputeBounds (set_terrace (tempPoints e) e))
  else e.

Definition setRectangularTerrace (w h : Q) (e : Editor) : Editor :=
  recomputeBounds
    (set_terrace [Point.mk 0 0; Point.mk w 0; Point.mk w h; Point.mk 0 h] e).

(** [clearAll] resets [this.selectedElement] (singular), a field nothing
    else reads: the selection itself stays. *)
Definition clearAll (e : Editor) : Editor :=
  mkEditor (scale e) [] None None [] [] [] [] [] (selectedElements e)
    (panelConfig e) (textConfig e).


(** ** Moving the selection *)

Definition set_panels (ps : list Panel.t) (e : Editor) : Editor :=
  mkEditor (scale e) (terraceVertices e) (constructionBounds e) (panelBounds e)
    (obstacles e) (beams e) ps (texts e) (tempPoints e) (selectedElements e)
    (panelConfig e) (textConfig e).

Definition set_obstacles (os : list Obstacle.t) (e : Editor) : Editor :=
  mkEditor (scale e) (terraceVertices e) (constructionBounds e) (panelBounds e)
    os (beams e) (panels e) (texts e) (tempPoints e) (selectedElements e)
    (panelConfig e) (textConfig e).

Definition set_texts (ts : list TextItem.t) (e : Editor) : Editor :=
  mkEditor (scale e) (terraceVertices e) (constructionBounds e) (panelBounds e)
    (obstacles e) (beams e) (panels e) ts (tempPoints e) (selectedElements e)
    (panelConfig e) (textConfig e).

(** [p.x += dx; p.y += dy] and its three siblings. *)
Definition movePanel (dx dy : Q) (p : Panel.t) : Panel.t :=
  Panel.mk (Panel.x p + dx) (Panel.y p + dy) (Panel.w p) (Panel.h p)
    (Panel.realHeight p) (Panel.inclination p) (Panel.power p).

Definition moveObstacle (dx dy : Q) (o : Obstacle.t) : Obstacle.t :=
  Obstacle.mk (Obstacle.x o + dx) (Obstacle.y o + dy) (Obstacle.w o)
    (Obstacle.h o) (Obstacle.type o).

Definition moveBeam (dx dy : Q) (b : Beam.t) : Beam.t :=
  Beam.mk (Beam.x1 b + dx) (Beam.y1 b + dy) (Beam.x2 b + dx) (Beam.y2 b + dy)
    (Beam.profile b) (Beam.isAutoStructure b).

Definition moveText (dx dy : Q) (t : TextItem.t) : TextItem.t :=
  TextItem.mk (TextItem.x t + dx) (TextItem.y t + dy) (TextItem.text t)
    (TextItem.size t).

(** The callback of [selectedElements.every] in [_moveSelected].  Reading
    [p.x] of a missing panel or [b.x1] of a missing beam throws. *)
Definition canMoveOne (e : Editor) (dx dy : Q) (sel : Sel.t) : option bool :=
  match Sel.type sel with
  | KPanel =>
      match panels e !! Sel.index sel with
      | Some p =>
          Some (_isRectWithinPanelBounds e (Panel.x p + dx) (Panel.y p + dy)
                  (Panel.w p) (Panel.h p))
      | None => None
      end
  | KObstacle => Some true
  | KBeam =>
      match beams e !! Sel.index sel with
      | Some b =>
          Some (_isLineWithinConstructionBounds e
                  (Beam.x1 b + dx) (Beam.y1 b + dy)
                  (Beam.x2 b + dx) (Beam.y2 b + dy))
      | None => None
      end
  | KText => Some true
  end.

(** [Array.prototype.every]: stops at the first [false]. *)
Fixpoint every {A : Type} (f : A -> option bool) (l : list A) : option bool :=
  match l with
  | [] => Some true
  | a :: l' =>
      match f a with
      | Some true => every f l'
      | r => r
      end
  end.

(** One round of the mutation loop of [_moveSelected]. *)
Definition moveOne (dx dy : Q) (e : Editor) (sel : Sel.t) : option Editor :=
  let i := Sel.index sel in
  match Sel.type sel with
  | KPanel =>
      match panels e !! i with
      | Some _ => Some (set_panels (alter (movePanel dx dy) i (panels e)) e)
      | None => None
      end
  | KObstacle =>
      match obstacles e !! i with
      | Some _ =>
          Some (set_obstacles (alter (moveObstacle dx dy) i (obstacles e)) e)
      | None => None
      end
  | KBeam =>
      match beams e !! i with
      | Some _ => Some (set_beams (alter (moveBeam dx dy) i (beams e)) e)
      | None => None
      end
  | KText =>
      match texts e !! i with
      | Some _ => Some (set_texts (alter (moveText dx dy) i (texts e)) e)
      | None => None
      end
  end.

Fixpoint moveAll (dx dy : Q) (sels : list Sel.t) (e : Editor) : option Editor :=
  match sels with
  | [] => Some e
  | sel :: rest =>
      match moveOne dx dy e sel with
      | Some e' => moveAll dx dy rest e'
      | None => None
      end
  end.

(** [_moveSelected(dx, dy)].  [None] is a [TypeError] from a selection entry
    whose index has no element (the editor as the exception leaves it is not
    kept). *)
Definition _moveSelected (dx dy : Q) (e : Editor) : option Editor :=
  match selectedElements e with
  | [] => Some e
  | _ :: _ =>
      match constructionBounds e with
      | Some _ =>
          match every (canMoveOne e dx dy) (selectedElements e) with
          | Some true => moveAll dx dy (selectedElements e) e
          | Some false => Some e
          | None => None
          end
      | None => moveAll dx dy (selectedElements e) e
      end
  end.

(** The editor in which the mutation loop of [_moveSelected] stops, and
    whether it stopped at an entry without element: there the source throws,
    with the rounds before that entry done. *)
Fixpoint moveAllUntilThrow (dx dy : Q) (sels : list Sel.t) (e : Editor)
  : Editor * bool :=
  match sels with
  | [] => (e, false)
  | sel :: rest =>
      match moveOne dx dy e sel with
      | Some e' => moveAllUntilThrow dx dy rest e'
      | None => (e, true)
      end
  end.

(** ** Area selection: the 2D intersection tests *)

Module Rect.
Record t : Type := mk { x : Q; y : Q; w : Q; h : Q }.
End Rect.

Definition _rectsIntersect (r1 r2 : Rect.t) : bool :=
  negb (Qltb (Rect.x r1 + Rect.w r1) (Rect.x r2) ||
        Qltb (Rect.x r2 + Rect.w r2) (Rect.x r1) ||
        Qltb (Rect.y r1 + Rect.h r1) (Rect.y r2) ||
        Qltb (Rect.y r2 + Rect.h r2) (Rect.y r1)).

Definition _linesIntersect (x1 y1 x2 y2 x3 y3 x4 y4 : Q) : bool :=
  let denom := (x1 - x2) * (y3 - y4) - (y1 - y2) * (x3 - x4) in
  if Qeq_bool denom 0 then false
  else
    let t := ((x1 - x3) * (y3 - y4) - (y1 - y3) * (x3 - x4)) / denom in
    let u := - ((x1 - x2) * (y1 - y3) - (y1 - y2) * (x1 - x3)) / denom in
    Qgeb t 0 && Qle_bool t 1 && Qgeb u 0 && Qle_bool u 1.

Definition _lineIntersectsRect (x1 y1 x2 y2 : Q) (rect : Rect.t) : bool :=
  let rx := Rect.x rect in
  let ry := Rect.y rect in
  let rw := Rect.w rect in
  let rh := Rect.h rect in
  _linesIntersect x1 y1 x2 y2 rx ry (rx + rw) ry ||
  _linesIntersect x1 y1 x2 y2 (rx + rw) ry (rx + rw) (ry + rh) ||
  _linesIntersect x1 y1 x2 y2 (rx + rw) (ry + rh) rx (ry + rh) ||
  _linesIntersect x1 y1 x2 y2 rx (ry + rh) rx ry.

(** The normalisation at the head of [_finishAreaSelect]. *)
Definition normalizeSelectionRect (r : Rect.t) : Rect.t :=
  let r1 :=
    if Qltb (Rect.w r) 0
    then Rect.mk (Rect.x r + Rect.w r) (Rect.y r) (Qabs (Rect.w r)) (Rect.h r)
    else r in
  if Qltb (Rect.h r1) 0
  then Rect.mk (Rect.x r1) (Rect.y r1 + Rect.h r1) (Rect.w r1) (Qabs (Rect.h r1))
  else r1.

(** The beams [_finishAreaSelect] adds to the area selection. *)
Definition areaSelectBeams (selectionRect : Rect.t) (bs : list Beam.t)
  : list Sel.t :=
  let rect := normalizeSelectionRect selectionRect in
  omap (fun '(i, b) =>
          if _lineIntersectsRect (Beam.x1 b) (Beam.y1 b) (Beam.x2 b) (Beam.y2 b)
               rect
          then Some (Sel.mk KBeam i) else None)
       (imap pair bs).

(** ** Automatic structure *)

Inductive Message : Type :=
| MsgNoTerrace
| MsgTooLong (numBeams : Z) (spacing totalBeamLength finalLength : Q)
| MsgCreated (finalWidth finalLength : Q) (numBeams : Z).

Record Structure : Type := mkStructure { s_width : Q; s_length : Q }.

Record AutoResult : Type := mkAutoResult {
  success : bool;
  message : Message;
  structure : option Structure
}.

(** [v || d] for an optional number: [null], [undefined] and [0] give [d]. *)
Definition orDefault (v : option Q) (d : Q) : Q :=
  match v with
  | Some q => if Qeq_bool q 0 then d else q
  | None => d
  end.

Definition pushBeam (profile : string) (x1 y1 x2 y2 : Q) : Beam.t :=
  Beam.mk x1 y1 x2 y2 profile true.

(** The loop that emits the parallel beams, over the values [i] takes;
    [break] ends it. *)
Fixpoint parallelBeams (profile : string) (spacing startX startY endX endY : Q)
  (idxs : list nat) : list Beam.t :=
  match idxs with
  | [] => []
  | i :: rest =>
      let y := startY + (inject_Z (Z.of_nat i) + 1) * spacing in
      if Qgeb y endY then []
      else pushBeam profile startX y endX y
             :: parallelBeams profile spacing startX startY endX endY rest
  end.

(** [createAutoStructure(numBeams, spacing, profile, width, height)]: the
    editor it leaves and the record it returns.  The test
    [totalBeamLength >= finalLength] is the one on rationals here; the
    source compares doubles, and a rounded difference such as [64.4 - 10]
    can fall on the other side of an exact bound.  On whole centimetres (see
    [wholeCm]) the two agree. *)
Definition createAutoStructure (numBeams : Z) (spacing : Q) (profile : string)
  (width height : option Q) (e : Editor) : Editor * AutoResult :=
  let e1 :=
    match getTerraceBounds (terraceVertices e) with
    | None =>
        setRectangularTerrace (orDefault width 585) (orDefault height 388) e
    | Some _ => e
    end in
  match getTerraceBounds (terraceVertices e1) with
  | None => (e1, mkAutoResult false MsgNoTerrace None)
  | Some terraceBounds =>
      let cb :=
        match constructionBounds e1 with
        | Some cb => cb
        | None => _calculateConstructionBounds terraceBounds 10
        end in
      let pb :=
        match panelBounds e1 with
        | Some pb => pb
        | None => _calculatePanelBounds cb 40
        end in
      let e2 := set_bounds (Some cb) (Some pb) e1 in
      let margin := 5 in
      let finalWidth :=
        Qmax 50 (TerraceBounds.width terraceBounds - 2 * margin) in
      let finalLength :=
        Qmax 50 (TerraceBounds.height terraceBounds - 2 * margin) in
      let totalBeamLength := inject_Z numBeams * spacing in
      if (0 <? numBeams)%Z && Qgeb totalBeamLength finalLength then
        (e2, mkAutoResult false
               (MsgTooLong numBeams spacing totalBeamLength finalLength)
               (Some (mkStructure finalWidth finalLength)))
      else
        let centerX :=
          (TerraceBounds.minX terraceBounds + TerraceBounds.maxX terraceBounds)
          / 2 in
        let centerY :=
          (TerraceBounds.minY terraceBounds + TerraceBounds.maxY terraceBounds)
          / 2 in
        let startX := centerX - finalWidth / 2 in
        let startY := centerY - finalLength / 2 in
        let endX := startX + finalWidth in
        let endY := startY + finalLength in
        let frame :=
          [ pushBeam profile startX startY endX startY;
            pushBeam profile endX startY endX endY;
            pushBeam profile endX endY startX endY;
            pushBeam profile startX endY startX startY ] in
        let parallel :=
          parallelBeams profile spacing startX startY endX endY
            (seq 0 (Z.to_nat numBeams)) in
        (set_beams (frame ++ parallel) e2,
         mkAutoResult true (MsgCreated finalWidth finalLength numBeams)
           (Some (mkStructure finalWidth finalLength)))
  end.

(** ** Serialisation *)

(** The record [exportData] builds and [importData] reads; a field that a
    record lacks (or holds [null]) is [None]. *)
Record ExportData : Type := mkExportData {
  d_terraceVertices : option (list Point.t);
  d_constructionBounds : option Bounds.t;
  d_panelBounds : option Bounds.t;
  d_obstacles : option (list Obstacle.t);
  d_beams : option (list Beam.t);
  d_panels : option (list Panel.t);
  d_texts : option (list TextItem.t);
  d_panelConfig : option PanelConfig.t;
  d_textConfig : option TextConfig.t;
  d_scale : option Q
}.

Definition exportData (e : Editor) : ExportData :=
  mkExportData (Some (terraceVertices e)) (constructionBounds e)
    (panelBounds e) (Some (obstacles e)) (Some (beams e)) (Some (panels e))
    (Some (texts e)) (Some (panelConfig e)) (Some (textConfig e))
    (Some (scale e)).

(** [importData(data)].  The configurations are records with a fixed set of
    fields here, so the spread [{...this.panelConfig, ...data.panelConfig}]
    takes every field from [data.panelConfig]. *)
Definition importData (data : option ExportData) (e : Editor) : Editor :=
  match data with
  | None => e
  | Some d =>
      let e1 :=
        mkEditor
          (match d_scale d with
           | Some s => if Qeq_bool s 0 then scale e else s
           | None => scale e
           end)
          (default [] (d_terraceVertices d))
          (d_constructionBounds d)
          (d_panelBounds d)
          (default [] (d_obstacles d))
          (default [] (d_beams d))
          (default [] (d_panels d))
          (default [] (d_texts d))
          (tempPoints e)
          (selectedElements e)
          (default (panelConfig e) (d_panelConfig d))
          (default (textConfig e) (d_textConfig d)) in
      if (negb (bool_decide (is_Some (constructionBounds e1))) ||
          negb (bool_decide (is_Some (panelBounds e1)))) &&
         (3 <=? length (terraceVertices e1))%nat
      then recomputeBounds e1
      else e1
  end.

(** The terrace part of [loadProject] in the page controller: a non-empty
    vertex list replaces the terrace and the obstacles, and the bounds are
    recomputed when the terrace has a bounding box. *)
Definition loadTerrace (vertices : list Point.t) (obs : list Obstacle.t)
  (e : Editor) : Editor :=
  match vertices with
  | [] => e
  | _ :: _ => recomputeBounds (set_obstacles obs (set_terrace vertices e))
  end.

(** ** The 3D viewer: inclination profile and panel support *)

(** [{degrees, startBeam, endBeam}]; the indices are the integers the page
    controller parses from its input fields. *)
Record Inclination : Type := mkInclination {
  degrees : Q;
  startBeam : Z;
  endBeam : Z
}.

(** The record [_getInclinationRange] returns. *)
Record RangeInfo : Type := mkRangeInfo {
  startIndex : Z;
  endIndex : Z;
  minZ : Q;
  maxZ : Q;
  invert : bool
}.

(** The record [_getStructureBounds] returns. *)
Record StructureBounds : Type := mkStructureBounds {
  sb_minX : Q; sb_maxX : Q; sb_minZ : Q; sb_maxZ : Q
}.

(** An entry of the array [_calculateBeamInclinations] returns. *)
Record BeamIncl : Type := mkBeamIncl {
  radians : Q;
  hasFullInclination : bool
}.

(** [Math.min] and [Math.max] of four numbers. *)
Definition Qmin4 (a b c d : Q) : Q := Qmin (Qmin (Qmin a b) c) d.
Definition Qmax4 (a b c d : Q) : Q := Qmax (Qmax (Qmax a b) c) d.

Section Viewer3D.

(** [Math.tan], [Math.sqrt] and [Math.PI]. *)
Variable tan : Q -> Q.
Variable sqrt : Q -> Q.
Variable PI : Q.

(** [this.terraceCenter], which [updateScene] fixes before any builder
    runs. *)
Variable terraceCenter : Point.t.

Definition _getStructureBounds (beams : list Beam.t)
  (terraceVertices : list Point.t) : option StructureBounds :=
  let cx := Point.x terraceCenter in
  let cy := Point.y terraceCenter in
  let acc :=
    match beams with
    | _ :: _ =>
        fold_left
          (fun acc b =>
             applyPoint (applyPoint acc (Beam.x1 b - cx) (Beam.y1 b - cy))
               (Beam.x2 b - cx) (Beam.y2 b - cy))
          beams noExtremes
    | [] =>
        fold_left (fun acc v => applyPoint acc (Point.x v - cx) (Point.y v - cy))
          terraceVertices noExtremes
    end in
  if negb (JSNum.isFinite (e_minX acc)) || negb (JSNum.isFinite (e_minY acc))
  then None
  else
    match acc with
    | mkExtremes (JSNum.Fin minX) (JSNum.Fin maxX)
                 (JSNum.Fin minZ) (JSNum.Fin maxZ) =>
        Some (mkStructureBounds minX maxX minZ maxZ)
    | _ => None
    end.

(** The loop of the [endBeam === -1] branch of [_getInclinationRange], over
    the values [i] takes; a missing beam is skipped. *)
Definition depthExtremes (beams : list Beam.t) (idxs : list nat)
  : JSNum.num * JSNum.num :=
  let cy := Point.y terraceCenter in
  fold_left
    (fun acc i =>
       match beams !! i with
       | None => acc
       | Some b =>
           (JSNum.min (JSNum.min (fst acc) (Beam.y1 b - cy)) (Beam.y2 b - cy),
            JSNum.max (JSNum.max (snd acc) (Beam.y1 b - cy)) (Beam.y2 b - cy))
       end)
    idxs (JSNum.PosInf, JSNum.NegInf).

Definition _getInclinationRange (beams : list Beam.t) (inclination : Inclination)
  : option RangeInfo :=
  match beams with
  | [] => None
  | _ :: _ =>
      let cy := Point.y terraceCenter in
      let totalBeams := Z.of_nat (length beams) in
      let rawStart := startBeam inclination in
      let rawEnd :=
        if (endBeam inclination =? -1)%Z then (totalBeams - 1)%Z
        else endBeam inclination in
      let startIndex := Z.max 0 (Z.min rawStart (totalBeams - 1)) in
      let endIndex := Z.max 0 (Z.min rawEnd (totalBeams - 1)) in
      let rangeStart := Z.min startIndex endIndex in
      let rangeEnd := Z.max startIndex endIndex in
      let depths :=
        if (endBeam inclination =? -1)%Z then
          Some (depthExtremes beams
                  (seq (Z.to_nat rangeStart)
                       (Z.to_nat (rangeEnd - rangeStart + 1))))
        else
          match beams !! Z.to_nat startIndex, beams !! Z.to_nat endIndex with
          | Some sb, Some eb =>
              Some (JSNum.Fin (Qmin4 (Beam.y1 sb - cy) (Beam.y2 sb - cy)
                                     (Beam.y1 eb - cy) (Beam.y2 eb - cy)),
                    JSNum.Fin (Qmax4 (Beam.y1 sb - cy) (Beam.y2 sb - cy)
                                     (Beam.y1 eb - cy) (Beam.y2 eb - cy)))
          | _, _ => None
          end in
      match depths with
      | Some (JSNum.Fin minZ, JSNum.Fin maxZ) =>
          Some (mkRangeInfo rangeStart rangeEnd minZ maxZ
                  (endIndex <? startIndex)%Z)
      | _ => None
      end
  end.

(** The closure [getHeightAtZ] of [_buildBeams], with the constants that
    method computes before defining it. *)
Definition getHeightAtZ_buildBeams (beams : list Beam.t) (height : Q)
  (inclination : Inclination) (z radians : Q) : Q :=
  let bounds := _getStructureBounds beams [] in
  let rangeInfo := _getInclinationRange beams inclination in
  let zMin :=
    match rangeInfo with
    | Some r => minZ r
    | None => match bounds with Some b => sb_minZ b | None => 0 end
    end in
  let zMax :=
    match rangeInfo with
    | Some r => maxZ r
    | None => match bounds with Some b => sb_maxZ b | None => 0 end
    end in
  let zSpan := zMax - zMin in
  if negb (bool_decide (is_Some bounds)) || Qeq_bool zSpan 0
     || Qeq_bool radians 0
  then height
  else
    let rise := zSpan * tan radians in
    let t := (z - zMin) / zSpan in
    let t :=
      match rangeInfo with
      | Some r => if invert r then 1 - t else t
      | None => t
      end in
    let t := Qmax 0 (Qmin 1 t) in
    height + rise * t.

(** The closure [getHeightAtZ] of [_buildPanels]. *)
Definition getHeightAtZ_buildPanels (beams : list Beam.t) (height : Q)
  (inclination : Inclination) (z radians : Q) : Q :=
  let bounds := _getStructureBounds beams [] in
  let rangeInfo := _getInclinationRange beams inclination in
  let zMin :=
    match rangeInfo with
    | Some r => minZ r
    | None => match bounds with Some b => sb_minZ b | None => 0 end
    end in
  let zMax :=
    match rangeInfo with
    | Some r => maxZ r
    | None => match bounds with Some b => sb_maxZ b | None => 0 end
    end in
  let zSpan := zMax - zMin in
  if negb (bool_decide (is_Some bounds)) || Qeq_bool zSpan 0
     || Qeq_bool radians 0
  then height
  else
    let rise := zSpan * tan radians in
    let t := (z - zMin) / zSpan in
    let t :=
      match rangeInfo with
      | Some r => if invert r then 1 - t else t
      | None => t
      end in
    let t := Qmax 0 (Qmin 1 t) in
    height + rise * t.

(** The helpers local to [_calculateBeamInclinations]. *)
Definition pointsEqual (p1 p2 : Point.t) (tolerance : Q) : bool :=
  Qle_bool (Qabs (Point.x p1 - Point.x p2)) tolerance &&
  Qle_bool (Qabs (Point.y p1 - Point.y p2)) tolerance.

Definition beamsConnected (b1 b2 : Beam.t) : bool :=
  pointsEqual (Point.mk (Beam.x1 b1) (Beam.y1 b1))
              (Point.mk (Beam.x1 b2) (Beam.y1 b2)) 1 ||
  pointsEqual (Point.mk (Beam.x1 b1) (Beam.y1 b1))
              (Point.mk (Beam.x2 b2) (Beam.y2 b2)) 1 ||
  pointsEqual (Point.mk (Beam.x2 b1) (Beam.y2 b1))
              (Point.mk (Beam.x1 b2) (Beam.y1 b2)) 1 ||
  pointsEqual (Point.mk (Beam.x2 b1) (Beam.y2 b1))
              (Point.mk (Beam.x2 b2) (Beam.y2 b2)) 1.

(** The extremes of all beam endpoints, in plan coordinates. *)
Definition beamExtremes (beams : list Beam.t) : Extremes :=
  fold_left
    (fun acc b =>
       applyPoint (applyPoint acc (Beam.x1 b) (Beam.y1 b))
         (Beam.x2 b) (Beam.y2 b))
    beams noExtremes.

Definition isFrameBeam (ext : Extremes) (b : Beam.t) (tolerance : Q) : bool :=
  let isHorizontal :=
    Qle_bool (Qabs (Beam.y1 b - Beam.y2 b)) tolerance &&
    (JSNum.absDiffLe (Beam.y1 b) (e_minY ext) tolerance ||
     JSNum.absDiffLe (Beam.y1 b) (e_maxY ext) tolerance) in
  let isVertical :=
    Qle_bool (Qabs (Beam.x1 b - Beam.x2 b)) tolerance &&
    (JSNum.absDiffLe (Beam.x1 b) (e_minX ext) tolerance ||
     JSNum.absDiffLe (Beam.x1 b) (e_maxX ext) tolerance) in
  isHorizontal || isVertical.

(** The test that puts beam [b] into [rangeIndices]. *)
Definition inDepthRange (r : RangeInfo) (b : Beam.t) : bool :=
  let lo := Qmin (minZ r) (maxZ r) in
  let hi := Qmax (minZ r) (maxZ r) in
  let tolerance := 0.5 in
  let centerZ := (Beam.y1 b + Beam.y2 b) / 2 - Point.y terraceCenter in
  Qgeb centerZ (lo - tolerance) && Qle_bool centerZ (hi + tolerance).

(** The set [rangeIndices], in insertion order. *)
Definition rangeIndices (beams : list Beam.t) (rangeInfo : option RangeInfo)
  : list nat :=
  match rangeInfo with
  | Some r =>
      List.filter
        (fun i =>
           match beams !! i with
           | Some b => inDepthRange r b
           | None => false
           end)
        (seq 0 (length beams))
  | None => []
  end.

(** One round of the second loop of [_calculateBeamInclinations]. *)
Definition beamInclinationAt (beams : list Beam.t) (ri : list nat)
  (ext : Extremes) (baseRadians : Q) (i : nat) (b : Beam.t) : BeamIncl :=
  if existsb (Nat.eqb i) ri then mkBeamIncl baseRadians true
  else
    match
      List.find
        (fun j =>
           match beams !! j with
           | Some bj => (j <? length beams)%nat && beamsConnected b bj
           | None => false
           end)
        ri
    with
    | Some _ =>
        if isFrameBeam ext b 1 then mkBeamIncl baseRadians true
        else mkBeamIncl (baseRadians * 0.25) false
    | None => mkBeamIncl 0 false
    end.

Definition _calculateBeamInclinations (beams : list Beam.t)
  (inclination : Inclination) : list BeamIncl :=
  match beams with
  | [] => []
  | _ :: _ =>
      let rangeInfo := _getInclinationRange beams inclination in
      let baseRadians := degrees inclination * PI / 180 in
      let ext := beamExtremes beams in
      let ri := rangeIndices beams rangeInfo in
      imap (beamInclinationAt beams ri ext baseRadians) beams
  end.

(** The helpers local to [_buildPanels]. *)
Definition pointInRect (px py : Q) (rect : Bounds.t) : bool :=
  Qgeb px (Bounds.minX rect) && Qle_bool px (Bounds.maxX rect) &&
  Qgeb py (Bounds.minY rect) && Qle_bool py (Bounds.maxY rect).

Definition epsilon : Q := 1e-6.

Definition orientation (a b c : Point.t) : nat :=
  let val := (Point.y b - Point.y a) * (Point.x c - Point.x b) -
             (Point.x b - Point.x a) * (Point.y c - Point.y b) in
  if Qle_bool (Qabs val) epsilon then 0%nat
  else if Qltb 0 val then 1%nat else 2%nat.

Definition onSegment (a b c : Point.t) : bool :=
  Qle_bool (Qmin (Point.x a) (Point.x b) - epsilon) (Point.x c) &&
  Qle_bool (Point.x c) (Qmax (Point.x a) (Point.x b) + epsilon) &&
  Qle_bool (Qmin (Point.y a) (Point.y b) - epsilon) (Point.y c) &&
  Qle_bool (Point.y c) (Qmax (Point.y a) (Point.y b) + epsilon).

Definition segmentsIntersect (p1 p2 p3 p4 : Point.t) : bool :=
  let o1 := orientation p1 p2 p3 in
  let o2 := orientation p1 p2 p4 in
  let o3 := orientation p3 p4 p1 in
  let o4 := orientation p3 p4 p2 in
  if negb (o1 =? o2)%nat && negb (o3 =? o4)%nat then true
  else if (o1 =? 0)%nat && onSegment p1 p2 p3 then true
  else if (o2 =? 0)%nat && onSegment p1 p2 p4 then true
  else if (o3 =? 0)%nat && onSegment p3 p4 p1 then true
  else if (o4 =? 0)%nat && onSegment p3 p4 p2 then true
  else false.

Definition segmentIntersectsRect (x1 y1 x2 y2 : Q) (rect : Bounds.t) : bool :=
  if pointInRect x1 y1 rect || pointInRect x2 y2 rect then true
  else
    let p1 := Point.mk x1 y1 in
    let p2 := Point.mk x2 y2 in
    let tl := Point.mk (Bounds.minX rect) (Bounds.minY rect) in
    let tr := Point.mk (Bounds.maxX rect) (Bounds.minY rect) in
    let br := Point.mk (Bounds.maxX rect) (Bounds.maxY rect) in
    let bl := Point.mk (Bounds.minX rect) (Bounds.maxY rect) in
    segmentsIntersect p1 p2 tl tr || segmentsIntersect p1 p2 tr br ||
    segmentsIntersect p1 p2 br bl || segmentsIntersect p1 p2 bl tl.

Definition _distancePointToSegment (px py x1 y1 x2 y2 : Q) : Q :=
  let dx := x2 - x1 in
  let dy := y2 - y1 in
  if Qeq_bool dx 0 && Qeq_bool dy 0
  then sqrt ((px - x1) ^ 2 + (py - y1) ^ 2)
  else
    let t := ((px - x1) * dx + (py - y1) * dy) / (dx * dx + dy * dy) in
    let clamped := Qmax 0 (Qmin 1 t) in
    let cx := x1 + clamped * dx in
    let cy := y1 + clamped * dy in
    sqrt ((px - cx) ^ 2 + (py - cy) ^ 2).

(** The loop of [_getNearestBeamIndex] from index [i] on. *)
Fixpoint nearestLoop (centerX centerY : Q) (beams : list Beam.t) (i : Z)
  (minDistance : JSNum.num) (closestIndex : Z) : Z :=
  match beams with
  | [] => closestIndex
  | b :: rest =>
      let distance :=
        _distancePointToSegment centerX centerY
          (Beam.x1 b) (Beam.y1 b) (Beam.x2 b) (Beam.y2 b) in
      if JSNum.ltb_l distance minDistance
      then nearestLoop centerX centerY rest (i + 1) (JSNum.Fin distance) i
      else nearestLoop centerX centerY rest (i + 1) minDistance closestIndex
  end.

Definition _getNearestBeamIndex (panel : Panel.t) (beams : list Beam.t) : Z :=
  match beams with
  | [] => (-1)%Z
  | _ :: _ =>
      let centerX := Panel.x panel + Panel.w panel / 2 in
      let centerY := Panel.y panel + Panel.h panel / 2 in
      nearestLoop centerX centerY beams 0 JSNum.PosInf (-1)
  end.

(** [p.realHeight || p.h]. *)
Definition realH (p : Panel.t) : Q :=
  match Panel.realHeight p with
  | Some r => if Qeq_bool r 0 then Panel.h p else r
  | None => Panel.h p
  end.

Definition panelRect (p : Panel.t) : Bounds.t :=
  Bounds.mk (Panel.x p) (Panel.x p + Panel.w p)
            (Panel.y p) (Panel.y p + realH p).

(** The indices the first loop over the beams pushes onto [intersecting]. *)
Definition intersecting (p : Panel.t) (beams : list Beam.t) : list nat :=
  List.filter
    (fun i =>
       match beams !! i with
       | Some b =>
           segmentIntersectsRect (Beam.x1 b) (Beam.y1 b) (Beam.x2 b) (Beam.y2 b)
             (panelRect p)
       | None => false
       end)
    (seq 0 (length beams)).

(** [beamInclinations[i] ? beamInclinations[i].radians : 0]. *)
Definition beamRadAt (beamInclinations : list BeamIncl) (i : nat) : Q :=
  match beamInclinations !! i with
  | Some bi => radians bi
  | None => 0
  end.

(** The value of [inclRad] that [_buildPanels] reaches for panel [p], just
    before it applies the sign of the ramp. *)
Definition panelInclRad (p : Panel.t) (beams : list Beam.t)
  (beamInclinations : list BeamIncl) : Q :=
  let hits := intersecting p beams in
  let inclRad :=
    fold_left
      (fun inclRad i =>
         let beamRad := beamRadAt beamInclinations i in
         if Qltb inclRad beamRad then beamRad else inclRad)
      hits 0 in
  match hits with
  | [] =>
      let beamIndex := _getNearestBeamIndex p beams in
      if negb (beamIndex =? -1)%Z then
        match beamInclinations !! Z.to_nat beamIndex with
        | Some bi => radians bi
        | None => inclRad
        end
      else inclRad
  | _ :: _ => inclRad
  end.

(** The effective tilt of panel [p] in [_buildPanels(panels, beams, height,
    inclination)]. *)
Definition panelTilt (p : Panel.t) (beams : list Beam.t)
  (inclination : Inclination) : Q :=
  panelInclRad p beams (_calculateBeamInclinations beams inclination).

End Viewer3D.

(** ** Vocabulary of the properties *)

(** [q] is the least (greatest) element of [l]. *)
Definition isMinOf (q : Q) (l : list Q) : Prop :=
  q ∈ l /\ forall x, x ∈ l -> q <= x.

Definition isMaxOf (q : Q) (l : list Q) : Prop :=
  q ∈ l /\ forall x, x ∈ l -> x <= q.

(** A point, and a rectangle given by corner and size, inside a bounds
    rectangle. *)
Definition pointInside (b : Bounds.t) (px py : Q) : Prop :=
  Bounds.minX b <= px /\ px <= Bounds.maxX b /\
  Bounds.minY b <= py /\ py <= Bounds.maxY b.

Definition rectInside (b : Bounds.t) (rx ry rw rh : Q) : Prop :=
  Bounds.minX b <= rx /\ Bounds.minY b <= ry /\
  rx + rw <= Bounds.maxX b /\ ry + rh <= Bounds.maxY b.

(** The terrace of [e] has a bounding box, every vertex lies in it, it lies
    in the construction bounds, and these lie in the panel bounds. *)
Definition terraceNested (e : Editor) : Prop :=
  exists tb cb pb,
    getTerraceBounds (terraceVertices e) = Some tb /\
    constructionBounds e = Some cb /\
    panelBounds e = Some pb /\
    (forall v, v ∈ terraceVertices e ->
       pointInside (TerraceBounds.box tb) (Point.x v) (Point.y v)) /\
    Bounds.within (TerraceBounds.box tb) cb /\
    Bounds.within cb pb.

(** The bounds-nesting property: it speaks of terraces that have a bounding
    box, that is, of at least three vertices. *)
Definition boundsNested (e : Editor) : Prop :=
  (3 <= length (terraceVertices e))%nat -> terraceNested e.

(** The three places where the bounds are recomputed from the terrace. *)
Inductive recomputes : Editor -> Editor -> Prop :=
| rc_confirmTerrace e :
    (3 <= length (tempPoints e))%nat ->
    recomputes e (confirmTerrace e)
| rc_setRectangularTerrace w h e :
    recomputes e (setRectangularTerrace w h e)
| rc_importData d e :
    d_constructionBounds d = None \/ d_panelBounds d = None ->
    (3 <= length (default [] (d_terraceVertices d)))%nat ->
    recomputes e (importData (Some d) e).

(** *** Moving *)

(** The selection entry refers to an element. *)
Definition validEntry (e : Editor) (sel : Sel.t) : Prop :=
  match Sel.type sel with
  | KPanel => is_Some (panels e !! Sel.index sel)
  | KObstacle => is_Some (obstacles e !! Sel.index sel)
  | KBeam => is_Some (beams e !! Sel.index sel)
  | KText => is_Some (texts e !! Sel.index sel)
  end.

(** The element [sel] refers to, moved by [(dx, dy)], respects the bound that
    applies to it: panels the panel bounds, beams the construction bounds
    (both endpoints); obstacles and texts have none.  Bounds that are not set
    constrain nothing. *)
Definition respectsBound (e : Editor) (dx dy : Q) (sel : Sel.t) : Prop :=
  match Sel.type sel with
  | KPanel =>
      forall p pb,
        panels e !! Sel.index sel = Some p -> panelBounds e = Some pb ->
        rectInside pb (Panel.x p + dx) (Panel.y p + dy) (Panel.w p) (Panel.h p)
  | KBeam =>
      forall b cb,
        beams e !! Sel.index sel = Some b -> constructionBounds e = Some cb ->
        pointInside cb (Beam.x1 b + dx) (Beam.y1 b + dy) /\
        pointInside cb (Beam.x2 b + dx) (Beam.y2 b + dy)
  | KObstacle | KText => True
  end.

(** [l'] is [l] with [f] applied at exactly the indices [i] for which
    [(kind, i)] is selected. *)
Definition movedWhereSelected {A : Type} (sels : list Sel.t)
  (kind : ElementKind) (f : A -> A) (l l' : list A) : Prop :=
  forall i,
    l' !! i =
    if decide (Sel.mk kind i ∈ sels) then f <$> l !! i else l !! i.

(** What one round of the mutation loop of [_moveSelected] changes: [l1] is
    [l] with [f] applied at [i] when the entry is [(kind, i)]. *)
Definition oneMoved {A : Type} (sel : Sel.t) (kind : ElementKind) (f : A -> A)
  (l l1 : list A) : Prop :=
  forall i, l1 !! i = if decide (sel = Sel.mk kind i) then f <$> l !! i else l !! i.

(** [e'] is [e] with every selected element translated by [(dx, dy)] and
    everything else as it was. *)
Definition translated (dx dy : Q) (e e' : Editor) : Prop :=
  movedWhereSelected (selectedElements e) KPanel (movePanel dx dy)
    (panels e) (panels e') /\
  movedWhereSelected (selectedElements e) KObstacle (moveObstacle dx dy)
    (obstacles e) (obstacles e') /\
  movedWhereSelected (selectedElements e) KBeam (moveBeam dx dy)
    (beams e) (beams e') /\
  movedWhereSelected (selectedElements e) KText (moveText dx dy)
    (texts e) (texts e') /\
  scale e' = scale e /\
  terraceVertices e' = terraceVertices e /\
  constructionBounds e' = constructionBounds e /\
  panelBounds e' = panelBounds e /\
  tempPoints e' = tempPoints e /\
  selectedElements e' = selectedElements e /\
  panelConfig e' = panelConfig e /\
  textConfig e' = textConfig e.

(** [p'] is [p] shifted by [(dx, dy)]: its corner has moved by exactly that
    much and every other field is as it was.  Likewise for an obstacle and a
    text; a beam has both ends moved. *)
Definition panelShifted (dx dy : Q) (p p' : Panel.t) : Prop :=
  Panel.x p' = Panel.x p + dx /\ Panel.y p' = Panel.y p + dy /\
  Panel.w p' = Panel.w p /\ Panel.h p' = Panel.h p /\
  Panel.realHeight p' = Panel.realHeight p /\
  Panel.inclination p' = Panel.inclination p /\
  Panel.power p' = Panel.power p.

Definition obstacleShifted (dx dy : Q) (o o' : Obstacle.t) : Prop :=
  Obstacle.x o' = Obstacle.x o + dx /\ Obstacle.y o' = Obstacle.y o + dy /\
  Obstacle.w o' = Obstacle.w o /\ Obstacle.h o' = Obstacle.h o /\
  Obstacle.type o' = Obstacle.type o.

Definition beamShifted (dx dy : Q) (b b' : Beam.t) : Prop :=
  Beam.x1 b' = Beam.x1 b + dx /\ Beam.y1 b' = Beam.y1 b + dy /\
  Beam.x2 b' = Beam.x2 b + dx /\ Beam.y2 b' = Beam.y2 b + dy /\
  Beam.profile b' = Beam.profile b /\
  Beam.isAutoStructure b' = Beam.isAutoStructure b.

Definition textShifted (dx dy : Q) (t t' : TextItem.t) : Prop :=
  TextItem.x t' = TextItem.x t + dx /\ TextItem.y t' = TextItem.y t + dy /\
  TextItem.text t' = TextItem.text t /\ TextItem.size t' = TextItem.size t.

(** [l'] holds as many elements as [l]; the one at index [i] is the element
    of [l] shifted (relation [R]) when [(kind, i)] is selected, and the very
    element of [l] when it is not. *)
Definition shiftedWhereSelected {A : Type} (sels : list Sel.t)
  (kind : ElementKind) (R : A -> A -> Prop) (l l' : list A) : Prop :=
  length l' = length l /\
  forall i a, l !! i = Some a ->
    exists a', l' !! i = Some a' /\
      (Sel.mk kind i ∈ sels -> R a a') /\
      (Sel.mk kind i ∉ sels -> a' = a).

(** [e'] is [e] with the coordinates of every selected element increased by
    [(dx, dy)] and everything else as it was. *)
Definition selectionShifted (dx dy : Q) (e e' : Editor) : Prop :=
  shiftedWhereSelected (selectedElements e) KPanel (panelShifted dx dy)
    (panels e) (panels e') /\
  shiftedWhereSelected (selectedElements e) KObstacle (obstacleShifted dx dy)
    (obstacles e) (obstacles e') /\
  shiftedWhereSelected (selectedElements e) KBeam (beamShifted dx dy)
    (beams e) (beams e') /\
  shiftedWhereSelected (selectedElements e) KText (textShifted dx dy)
    (texts e) (texts e') /\
  scale e' = scale e /\
  terraceVertices e' = terraceVertices e /\
  constructionBounds e' = constructionBounds e /\
  panelBounds e' = panelBounds e /\
  tempPoints e' = tempPoints e /\
  selectedElements e' = selectedElements e /\
  panelConfig e' = panelConfig e /\
  textConfig e' = textConfig e.

(** *** Reachable editor states *)

Definition set_scale (s : Q) (e : Editor) : Editor :=
  mkEditor s (terraceVertices e) (constructionBounds e) (panelBounds e)
    (obstacles e) (beams e) (panels e) (texts e) (tempPoints e)
    (selectedElements e) (panelConfig e) (textConfig e).

(** [e'] differs from [e] at most in the element collections, the temporary
    points, the selection and the two configurations.  This is all the
    drawing tools, the selection handlers, copy, paste, deletion and the
    sidebar fields can change. *)
Definition sameFrame (e e' : Editor) : Prop :=
  scale e' = scale e /\
  terraceVertices e' = terraceVertices e /\
  constructionBounds e' = constructionBounds e /\
  panelBounds e' = panelBounds e.

(** A record whose bounds are set together and, when its terrace has a
    bounding box, lie around it: the terrace box in the construction bounds,
    these in the panel bounds.  Every record the editor exports from a state
    with nested bounds is such a record. *)
Definition nestedRecord (d : ExportData) : Prop :=
  (d_constructionBounds d = None <-> d_panelBounds d = None) /\
  forall tb cb pb,
    getTerraceBounds (default [] (d_terraceVertices d)) = Some tb ->
    d_constructionBounds d = Some cb -> d_panelBounds d = Some pb ->
    Bounds.within (TerraceBounds.box tb) cb /\ Bounds.within cb pb.

(** The states the public operations lead to from a fresh editor, when the
    records handed to [importData] (by the page: a saved layout, or the file
    the user picks) are those in [accepted].  The scale selector of the page
    offers non-zero scales. *)
Inductive reachableWith (accepted : ExportData -> Prop) : Editor -> Prop :=
| reach_new optScale :
    reachableWith accepted (newEditor optScale)
| reach_confirmTerrace e :
    reachableWith accepted e -> reachableWith accepted (confirmTerrace e)
| reach_setRectangularTerrace w h e :
    reachableWith accepted e ->
    reachableWith accepted (setRectangularTerrace w h e)
| reach_clearAll e :
    reachableWith accepted e -> reachableWith accepted (clearAll e)
| reach_createAutoStructure numBeams spacing profile width height e :
    reachableWith accepted e ->
    reachableWith accepted
      (fst (createAutoStructure numBeams spacing profile width height e))
| reach_moveSelected dx dy e e' :
    reachableWith accepted e -> _moveSelected dx dy e = Some e' ->
    reachableWith accepted e'
| reach_loadTerrace vertices obs e :
    reachableWith accepted e -> reachableWith accepted (loadTerrace vertices obs e)
| reach_importData d e :
    accepted d -> reachableWith accepted e ->
    reachableWith accepted (importData (Some d) e)
| reach_setScale s e :
    ~ s == 0 -> reachableWith accepted e -> reachableWith accepted (set_scale s e)
| reach_edit e e' :
    reachableWith accepted e -> sameFrame e e' -> reachableWith accepted e'.


(** The bounds are set together or not at all. *)
Definition boundsCoupled (e : Editor) : Prop :=
  constructionBounds e = None <-> panelBounds e = None.

(** What every state satisfies that is reached without importing a record
    whose bounds are not nested. *)
Definition stateInvariant (e : Editor) : Prop :=
  ~ scale e == 0 /\ boundsCoupled e /\ boundsNested e.

(** *** Automatic structure *)

(** The terrace [createAutoStructure] works on: the existing one, or the
    default rectangle it creates first. *)
Definition structureTerrace (width height : option Q) (e : Editor)
  : list Point.t :=
  match getTerraceBounds (terraceVertices e) with
  | Some _ => terraceVertices e
  | None =>
      terraceVertices
        (setRectangularTerrace (orDefault width 585) (orDefault height 388) e)
  end.

(** Side lengths and corner of the structure: the terrace box less 5 on
    every side, at least 50, centred. *)
Definition structureWidth (tb : TerraceBounds.t) : Q :=
  Qmax 50 (TerraceBounds.width tb - 10).

Definition structureDepth (tb : TerraceBounds.t) : Q :=
  Qmax 50 (TerraceBounds.height tb - 10).

Definition structureStartX (tb : TerraceBounds.t) : Q :=
  (TerraceBounds.minX tb + TerraceBounds.maxX tb) / 2 - structureWidth tb / 2.

Definition structureStartY (tb : TerraceBounds.t) : Q :=
  (TerraceBounds.minY tb + TerraceBounds.maxY tb) / 2 - structureDepth tb / 2.

(** The four perimeter beams. *)
Definition perimeterBeams (profile : string) (tb : TerraceBounds.t)
  : list Beam.t :=
  let startX := structureStartX tb in
  let startY := structureStartY tb in
  let endX := startX + structureWidth tb in
  let endY := startY + structureDepth tb in
  [ Beam.mk startX startY endX startY profile true;
    Beam.mk endX startY endX endY profile true;
    Beam.mk endX endY startX endY profile true;
    Beam.mk startX endY startX startY profile true ].

(** The parallel beam number [i], at depth [start + (i + 1) * spacing]. *)
Definition parallelBeam (profile : string) (tb : TerraceBounds.t) (spacing : Q)
  (i : nat) : Beam.t :=
  let startX := structureStartX tb in
  let y := structureStartY tb + (inject_Z (Z.of_nat i) + 1) * spacing in
  Beam.mk startX y (startX + structureWidth tb) y profile true.

(** The positions [i] in [0 .. numBeams - 1] with [(i + 1) * spacing]
    strictly below the depth. *)
Definition positionsInside (numBeams : Z) (spacing depth : Q) : list nat :=
  List.filter
    (fun i => Qltb ((inject_Z (Z.of_nat i) + 1) * spacing) depth)
    (seq 0 (Z.to_nat numBeams)).

(** A whole number of centimetres, at most a million in size.  On such
    numbers the differences, sums, halves and products [createAutoStructure]
    forms are exact in the double-precision arithmetic of the source, so its
    comparisons come out as the ones on rationals here; on other inputs a
    rounded difference can fall on either side of an exact bound. *)
Definition wholeCm (q : Q) : Prop :=
  exists z : Z, q == inject_Z z /\ (Z.abs z <= 1000000)%Z.

(** The four sides of the terrace box are whole centimetres. *)
Definition wholeBox (tb : TerraceBounds.t) : Prop :=
  wholeCm (TerraceBounds.minX tb) /\ wholeCm (TerraceBounds.maxX tb) /\
  wholeCm (TerraceBounds.minY tb) /\ wholeCm (TerraceBounds.maxY tb).

(** A whole number of halves, at most [2 ^ 52] of them: a number that a
    double holds exactly. *)
Definition exactHalf (q : Q) : Prop :=
  exists z : Z, q == inject_Z z / 2 /\ (Z.abs z <= 2 ^ 52)%Z.

(** *** Inclination profile *)

(** The clamp of a request index into [0 .. n - 1]. *)
Definition clampIndex (n : nat) (i : Z) : Z :=
  Z.max 0 (Z.min i (Z.of_nat n - 1)).

(** The end index a request resolves to: [-1] is the last beam. *)
Definition resolvedEnd (n : nat) (inclination : Inclination) : Z :=
  if (endBeam inclination =? -1)%Z then (Z.of_nat n - 1)%Z
  else endBeam inclination.

(** The depth coordinates of the endpoints of a list of beams, and of the
    beams of index [from] and above. *)
Definition depthsOf (terraceCenter : Point.t) (beams : list Beam.t) : list Q :=
  flat_map
    (fun b => [Beam.y1 b - Point.y terraceCenter;
               Beam.y2 b - Point.y terraceCenter])
    beams.

Definition endpointDepths (terraceCenter : Point.t) (from : nat)
  (beams : list Beam.t) : list Q :=
  depthsOf terraceCenter (drop from beams).

(** The depth of the centre line of a beam lies in the range of [r], with
    the tolerance of half a unit. *)
Definition centerInRange (terraceCenter : Point.t) (r : RangeInfo) (b : Beam.t)
  : Prop :=
  minZ r - 0.5 <= (Beam.y1 b + Beam.y2 b) / 2 - Point.y terraceCenter /\
  (Beam.y1 b + Beam.y2 b) / 2 - Point.y terraceCenter <= maxZ r + 0.5.

(** Two points within one unit of each other in both coordinates. *)
Definition near (ax ay bx by_ : Q) : Prop :=
  Qabs (ax - bx) <= 1 /\ Qabs (ay - by_) <= 1.

(** Two beams share an endpoint, up to that tolerance. *)
Definition sharesEndpoint (b1 b2 : Beam.t) : Prop :=
  near (Beam.x1 b1) (Beam.y1 b1) (Beam.x1 b2) (Beam.y1 b2) \/
  near (Beam.x1 b1) (Beam.y1 b1) (Beam.x2 b2) (Beam.y2 b2) \/
  near (Beam.x2 b1) (Beam.y2 b1) (Beam.x1 b2) (Beam.y1 b2) \/
  near (Beam.x2 b1) (Beam.y2 b1) (Beam.x2 b2) (Beam.y2 b2).

(** A frame beam: horizontal at the least or greatest [y] of all beam
    endpoints, or vertical at the least or greatest [x], all within one
    unit. *)
Definition framePerimeter (beams : list Beam.t) (b : Beam.t) : Prop :=
  exists loX hiX loY hiY,
    isMinOf loX (flat_map (fun b => [Beam.x1 b; Beam.x2 b]) beams) /\
    isMaxOf hiX (flat_map (fun b => [Beam.x1 b; Beam.x2 b]) beams) /\
    isMinOf loY (flat_map (fun b => [Beam.y1 b; Beam.y2 b]) beams) /\
    isMaxOf hiY (flat_map (fun b => [Beam.y1 b; Beam.y2 b]) beams) /\
    ((Qabs (Beam.y1 b - Beam.y2 b) <= 1 /\
      (Qabs (Beam.y1 b - loY) <= 1 \/ Qabs (Beam.y1 b - hiY) <= 1)) \/
     (Qabs (Beam.x1 b - Beam.x2 b) <= 1 /\
      (Qabs (Beam.x1 b - loX) <= 1 \/ Qabs (Beam.x1 b - hiX) <= 1))).

(** Modelled on the words of the specification: the height at [depth] for a
    range starting at [minDepth] with span [span]. *)
Definition heightAt_spec (tan : Q -> Q) (base minDepth span : Q)
  (inverted : bool) (depth tilt : Q) : Q :=
  if Qeq_bool span 0 || Qeq_bool tilt 0 then base
  else
    let t := clamp01 ((depth - minDepth) / span) in
    base + span * tan tilt * (if inverted then 1 - t else t).

(** *** Panel support *)

(** Beam [b] crosses the rectangle of panel [p]. *)
Definition crosses (p : Panel.t) (b : Beam.t) : bool :=
  segmentIntersectsRect (Beam.x1 b) (Beam.y1 b) (Beam.x2 b) (Beam.y2 b)
    (panelRect p).

(** Twice the signed area of the triangle [a b c]: the value whose sign
    [orientation] reads. *)
Definition turn (a b c : Point.t) : Q :=
  (Point.y b - Point.y a) * (Point.x c - Point.x b) -
  (Point.x b - Point.x a) * (Point.y c - Point.y b).

(** [c] and [d] fall on the same side of the line through [a] and [b], with
    the tolerance of a millionth: both within the tolerance of the line,
    both beyond it on the one side, or both on the other. *)
Definition sameSide (a b c d : Point.t) : Prop :=
  (Qabs (turn a b c) <= 1 # 1000000 /\ Qabs (turn a b d) <= 1 # 1000000) \/
  ((1 # 1000000) < turn a b c /\ (1 # 1000000) < turn a b d) \/
  (turn a b c < - (1 # 1000000) /\ turn a b d < - (1 # 1000000)).

(** [c] lies on the segment from [a] to [b], with that tolerance: within it
    of the line, and in the box the two ends span, widened by it. *)
Definition liesOn (a b c : Point.t) : Prop :=
  Qabs (turn a b c) <= 1 # 1000000 /\
  Qmin (Point.x a) (Point.x b) - (1 # 1000000) <= Point.x c /\
  Point.x c <= Qmax (Point.x a) (Point.x b) + (1 # 1000000) /\
  Qmin (Point.y a) (Point.y b) - (1 # 1000000) <= Point.y c /\
  Point.y c <= Qmax (Point.y a) (Point.y b) + (1 # 1000000).

(** Two segments meet: the ends of each fall on different sides of the
    other, or an end of one lies on the other. *)
Definition segmentsMeet (p1 p2 p3 p4 : Point.t) : Prop :=
  (~ sameSide p1 p2 p3 p4 /\ ~ sameSide p3 p4 p1 p2) \/
  liesOn p1 p2 p3 \/ liesOn p1 p2 p4 \/ liesOn p3 p4 p1 \/ liesOn p3 p4 p2.

(** The height [H] of the rectangle that decides which beams support panel
    [p]: the real, untilted height of the panel, and its height in plan [h]
    only when [realHeight] is missing or 0.  For a tilted panel the
    rectangle reaches beyond the one drawn in plan. *)
Definition supportHeight (p : Panel.t) (H : Q) : Prop :=
  match Panel.realHeight p with
  | Some r => (~ r == 0 /\ H = r) \/ (r == 0 /\ H = Panel.h p)
  | None => H = Panel.h p
  end.

(** The point [(px, py)] lies in the rectangle from the corner of panel [p],
    as wide as the panel and [H] high. *)
Definition inSupportRect (p : Panel.t) (H : Q) (px py : Q) : Prop :=
  Panel.x p <= px /\ px <= Panel.x p + Panel.w p /\
  Panel.y p <= py /\ py <= Panel.y p + H.

(** Beam [b] supports panel [p]: an end of the beam lies in that rectangle,
    or the beam meets one of its four edges. *)
Definition supports (p : Panel.t) (b : Beam.t) : Prop :=
  exists H, supportHeight p H /\
    let p1 := Point.mk (Beam.x1 b) (Beam.y1 b) in
    let p2 := Point.mk (Beam.x2 b) (Beam.y2 b) in
    let tl := Point.mk (Panel.x p) (Panel.y p) in
    let tr := Point.mk (Panel.x p + Panel.w p) (Panel.y p) in
    let br := Point.mk (Panel.x p + Panel.w p) (Panel.y p + H) in
    let bl := Point.mk (Panel.x p) (Panel.y p + H) in
    inSupportRect p H (Beam.x1 b) (Beam.y1 b) \/
    inSupportRect p H (Beam.x2 b) (Beam.y2 b) \/
    segmentsMeet p1 p2 tl tr \/ segmentsMeet p1 p2 tr br \/
    segmentsMeet p1 p2 br bl \/ segmentsMeet p1 p2 bl tl.

(** The distance from a point to beam [b], and from the centre of panel [p]
    in plan, [(x + w / 2, y + h / 2)], to beam [b]. *)
Definition segmentDistance (sqrt : Q -> Q) (px py : Q) (b : Beam.t) : Q :=
  _distancePointToSegment sqrt px py
    (Beam.x1 b) (Beam.y1 b) (Beam.x2 b) (Beam.y2 b).

Definition centerDistance (sqrt : Q -> Q) (p : Panel.t) (b : Beam.t) : Q :=
  segmentDistance sqrt
    (Panel.x p + Panel.w p / 2) (Panel.y p + Panel.h p / 2) b.

(** Beam [k] of [bs] is at least as near to the point as every beam of [bs]
    and strictly nearer than those before it. *)
Definition firstNearest (sqrt : Q -> Q) (px py : Q) (bs : list Beam.t)
  (k : nat) : Prop :=
  exists bk, bs !! k = Some bk /\
    (forall j bj, bs !! j = Some bj ->
       segmentDistance sqrt px py bk <= segmentDistance sqrt px py bj) /\
    (forall j bj, (j < k)%nat -> bs !! j = Some bj ->
       segmentDistance sqrt px py bk < segmentDistance sqrt px py bj).

(** The state of the loop of [_getNearestBeamIndex] after the beams [pre]:
    nothing seen yet, or the first nearest beam of [pre] and its distance. *)
Definition loopState (sqrt : Q -> Q) (px py : Q) (pre : list Beam.t)
  (m : JSNum.num) (k : Z) : Prop :=
  (pre = [] /\ m = JSNum.PosInf) \/
  (exists k0 bk, k = Z.of_nat k0 /\ pre !! k0 = Some bk /\
                 m = JSNum.Fin (segmentDistance sqrt px py bk) /\
                 firstNearest sqrt px py pre k0).

(** *** Segments *)

(** The point [(px, py)] lies on the segment from [(x1, y1)] to
    [(x2, y2)]. *)
Definition onSeg (px py x1 y1 x2 y2 : Q) : Prop :=
  exists t, 0 <= t /\ t <= 1 /\
    px == x1 + t * (x2 - x1) /\ py == y1 + t * (y2 - y1).

(** Two segments share a point. *)
Definition sharePoint (x1 y1 x2 y2 x3 y3 x4 y4 : Q) : Prop :=
  exists px py, onSeg px py x1 y1 x2 y2 /\ onSeg px py x3 y3 x4 y4.

(** ** Concrete scenarios *)

(** Two parallel beams, at depths 0 and 100. *)
Definition twoBeams : list Beam.t :=
  [ Beam.mk 0 0 100 0 "IPN-80" false;
    Beam.mk 0 100 100 100 "IPN-80" false ].

(** Two horizontal beams at depths 0 and 100 joined by a vertical one on the
    right. *)
Definition threeBeams : list Beam.t :=
  [ Beam.mk 0 0 100 0 "IPN-80" false;
    Beam.mk 100 0 100 100 "IPN-80" false;
    Beam.mk 0 100 100 100 "IPN-80" false ].

(** The default panel at the origin and one beam that runs across it at
    depth 100. *)
Definition scenarioPanel : Panel.t := Panel.mk 0 0 114 228 (Some 228) 0 610.

Definition crossingBeam : list Beam.t :=
  [ Beam.mk (-10) 100 200 100 "IPN-80" false ].

(** A panel tilted by 60 degrees: 114 wide, 228 long, 114 high in plan; and
    one beam at depth 150, beyond the rectangle of the panel in plan and
    under the rectangle of its real height. *)
Definition tiltedPanel : Panel.t := Panel.mk 0 0 114 114 (Some 228) 60 610.

Definition beamBeyondPlan : list Beam.t :=
  [ Beam.mk (-10) 150 200 150 "IPN-80" false ].

(** A reachable state: a fresh editor, the terrace of 585 by 388, three
    beams at spacing 100. *)
Definition scenarioState : Editor :=
  fst (createAutoStructure 3 100 "IPN-80" None None
         (setRectangularTerrace 585 388 (newEditor None))).

(** The scenario of the specification: on the terrace of 585 by 388 a panel
    of 114 by 228 at the origin is selected and pushed 610 to the right. *)
Definition scenarioEditor : Editor :=
  mkEditor 4
    [Point.mk 0 0; Point.mk 585 0; Point.mk 585 388; Point.mk 0 388]
    (Some (Bounds.mk (-10) 595 (-10) 398))
    (Some (Bounds.mk (-50) 635 (-50) 438))
    [] [] [Panel.mk 0 0 114 228 (Some 228) 0 610] [] []
    [Sel.mk KPanel 0]
    (PanelConfig.mk 114 228 0 610) (TextConfig.mk "Texto" 14).



(** ** View: coordinates, grid and zoom *)

(** The view state of [AEPEditor2D]: pan offset, zoom level and grid. *)
Record View : Type := mkView {
  offsetX : Q;
  offsetY : Q;
  zoomLevel : Q;
  gridSize : Q;
  snapEnabled : bool
}.

(** [Math.round]: the nearest integer, halves upwards. *)
Definition Math_round (x : Q) : Q := inject_Z (Qfloor (x + 0.5)).

(** [snap(val)].  The grid size is set once, to 10; with a grid size of 0
    the source divides by zero, which has no counterpart here. *)
Definition snap (v : View) (val : Q) : Q :=
  if negb (snapEnabled v) then val
  else Math_round (val / gridSize v) * gridSize v.

(** [_onWheel], as far as the view goes: [deltaY] is the wheel delta. *)
Definition _onWheel (deltaY : Q) (v : View) : View :=
  let factor := if Qltb 0 deltaY then 0.9 else 1.1 in
  mkView (offsetX v) (offsetY v)
    (Qmax 0.2 (Qmin 5 (zoomLevel v * factor)))
    (gridSize v) (snapEnabled v).

(** ** Rectangles *)

Definition _normalizeRect (rect : Rect.t) : Rect.t :=
  let normalized :=
    if Qltb (Rect.w rect) 0
    then Rect.mk (Rect.x rect + Rect.w rect) (Rect.y rect)
           (Qabs (Rect.w rect)) (Rect.h rect)
    else rect in
  if Qltb (Rect.h normalized) 0
  then Rect.mk (Rect.x normalized) (Rect.y normalized + Rect.h normalized)
         (Rect.w normalized) (Qabs (Rect.h normalized))
  else normalized.

(** The point [(px, py)] lies in the closed rectangle [r]. *)
Definition inRect (r : Rect.t) (px py : Q) : Prop :=
  Rect.x r <= px /\ px <= Rect.x r + Rect.w r /\
  Rect.y r <= py /\ py <= Rect.y r + Rect.h r.

(** The point lies strictly inside the rectangle. *)
Definition strictlyInRect (r : Rect.t) (px py : Q) : Prop :=
  Rect.x r < px /\ px < Rect.x r + Rect.w r /\
  Rect.y r < py /\ py < Rect.y r + Rect.h r.

(** The segment shares a point with one of the four edges of [r]. *)
Definition touchesBoundary (r : Rect.t) (x1 y1 x2 y2 : Q) : Prop :=
  sharePoint x1 y1 x2 y2
    (Rect.x r) (Rect.y r) (Rect.x r + Rect.w r) (Rect.y r) \/
  sharePoint x1 y1 x2 y2
    (Rect.x r + Rect.w r) (Rect.y r) (Rect.x r + Rect.w r) (Rect.y r + Rect.h r) \/
  sharePoint x1 y1 x2 y2
    (Rect.x r + Rect.w r) (Rect.y r + Rect.h r) (Rect.x r) (Rect.y r + Rect.h r) \/
  sharePoint x1 y1 x2 y2
    (Rect.x r) (Rect.y r + Rect.h r) (Rect.x r) (Rect.y r).

(** ** Selection handlers *)

Definition set_selected (sels : list Sel.t) (e : Editor) : Editor :=
  mkEditor (scale e) (terraceVertices e) (constructionBounds e) (panelBounds e)
    (obstacles e) (beams e) (panels e) (texts e) (tempPoints e) sels
    (panelConfig e) (textConfig e).

(** [Array.prototype.findIndex]: the first index whose element satisfies
    [f]; [None] is [-1]. *)
Fixpoint findIndex {A : Type} (f : A -> bool) (l : list A) : option nat :=
  match l with
  | [] => None
  | a :: l' => if f a then Some 0%nat else S <$> findIndex f l'
  end.

(** [sel.type === type && sel.index === index]. *)
Definition sameEntry (type : ElementKind) (index : nat) (sel : Sel.t) : bool :=
  bool_decide (Sel.type sel = type) && (Sel.index sel =? index)%nat.

(** [_applySelection(type, index, isAdditive)]; [_emitSelectionChange]
    reports the new selection to the page and changes nothing. *)
Definition _applySelection (type : ElementKind) (index : nat)
  (isAdditive : bool) (e : Editor) : Editor :=
  let existingIndex := findIndex (sameEntry type index) (selectedElements e) in
  if negb isAdditive then set_selected [Sel.mk type index] e
  else
    match existingIndex with
    | Some i => set_selected (delete i (selectedElements e)) e
    | None => set_selected (selectedElements e ++ [Sel.mk type index]) e
    end.

(** The indices, in increasing order, of the elements that satisfy [f],
    each wrapped as a selection entry of the given kind: the body of the
    [forEach] and [for] loops that push onto a selection. *)
Definition entriesWhere {A : Type} (kind : ElementKind) (f : A -> bool)
  (l : list A) : list Sel.t :=
  omap (fun '(i, a) => if f a then Some (Sel.mk kind i) else None)
       (imap pair l).

(** [setTool(tool)], on the design data: the tool name itself, [isDrawing]
    and the alignment guide are view state. *)
Definition setTool (tool : string) (e : Editor) : Editor :=
  let e1 := set_selected [] (set_tempPoints [] e) in
  if String.eqb tool "select-structure"
  then set_selected (entriesWhere KBeam Beam.isAutoStructure (beams e1)) e1
  else e1.

(** The loops [for (let i = length - 1; i >= 0; i--) if (f(l[i])) return i]:
    the last index whose element satisfies [f], counted from [i]. *)
Fixpoint findLastIndexFrom {A : Type} (f : A -> bool) (l : list A) (i : nat)
  : option nat :=
  match l with
  | [] => None
  | a :: l' =>
      match findLastIndexFrom f l' (S i) with
      | Some j => Some j
      | None => if f a then Some i else None
      end
  end.

Definition findLastIndex {A : Type} (f : A -> bool) (l : list A) : option nat :=
  findLastIndexFrom f l 0.

Section Picking.

(** [ctx.measureText(text).width] with the font set to the given size, and
    [Math.sqrt]. *)
Variable measureText : string -> Q -> Q.
Variable sqrt : Q -> Q.

(** [_getTextRect(textItem)].  Scale and zoom are non-zero in every state
    the operations lead to; with [pxPerCm] zero the source divides by zero,
    which has no counterpart here. *)
Definition _getTextRect (e : Editor) (v : View) (textItem : TextItem.t)
  : Rect.t :=
  let size :=
    if Qeq_bool (TextItem.size textItem) 0 then 14 else TextItem.size textItem in
  let textWpx := measureText (TextItem.text textItem) size in
  let textHpx := size in
  let pxPerCm := scale e * zoomLevel v in
  Rect.mk (TextItem.x textItem) (TextItem.y textItem)
    (textWpx / pxPerCm) (textHpx / pxPerCm).

(** The test of [_getTextIndexAt]: the text box hangs above its anchor. *)
Definition textContains (e : Editor) (v : View) (cm : Point.t)
  (t : TextItem.t) : bool :=
  let rect := _getTextRect e v t in
  Qgeb (Point.x cm) (Rect.x rect) &&
  Qle_bool (Point.x cm) (Rect.x rect + Rect.w rect) &&
  Qgeb (Point.y cm) (Rect.y rect - Rect.h rect) &&
  Qle_bool (Point.y cm) (Rect.y rect).

Definition _getTextIndexAt (e : Editor) (v : View) (cm : Point.t)
  : option nat :=
  findLastIndex (textContains e v cm) (texts e).

Definition panelContains (cm : Point.t) (p : Panel.t) : bool :=
  Qgeb (Point.x cm) (Panel.x p) &&
  Qle_bool (Point.x cm) (Panel.x p + Panel.w p) &&
  Qgeb (Point.y cm) (Panel.y p) &&
  Qle_bool (Point.y cm) (Panel.y p + Panel.h p).

Definition obstacleContains (cm : Point.t) (o : Obstacle.t) : bool :=
  Qgeb (Point.x cm) (Obstacle.x o) &&
  Qle_bool (Point.x cm) (Obstacle.x o + Obstacle.w o) &&
  Qgeb (Point.y cm) (Obstacle.y o) &&
  Qle_bool (Point.y cm) (Obstacle.y o + Obstacle.h o).

Definition _pointNearLine (px py x1 y1 x2 y2 threshold : Q) : bool :=
  let dx := x2 - x1 in
  let dy := y2 - y1 in
  let length := sqrt (dx * dx + dy * dy) in
  if Qeq_bool length 0
  then Qltb (sqrt ((px - x1) ^ 2 + (py - y1) ^ 2)) threshold
  else
    let t :=
      Qmax 0 (Qmin 1 (((px - x1) * dx + (py - y1) * dy) / (length * length))) in
    let closestX := x1 + t * dx in
    let closestY := y1 + t * dy in
    let dist := sqrt ((px - closestX) ^ 2 + (py - closestY) ^ 2) in
    Qltb dist threshold.

Definition beamNear (cm : Point.t) (b : Beam.t) : bool :=
  _pointNearLine (Point.x cm) (Point.y cm)
    (Beam.x1 b) (Beam.y1 b) (Beam.x2 b) (Beam.y2 b) 5.

(** [_handleSelect(cm, event)]; [isAdditive] is
    [event && (event.ctrlKey || event.metaKey)]. *)
Definition _handleSelect (cm : Point.t) (isAdditive : bool) (v : View)
  (e : Editor) : Editor :=
  match _getTextIndexAt e v cm with
  | Some textIndex => _applySelection KText textIndex isAdditive e
  | None =>
      match findLastIndex (panelContains cm) (panels e) with
      | Some i => _applySelection KPanel i isAdditive e
      | None =>
          match findLastIndex (obstacleContains cm) (obstacles e) with
          | Some i => _applySelection KObstacle i isAdditive e
          | None =>
              match findLastIndex (beamNear cm) (beams e) with
              | Some i => _applySelection KBeam i isAdditive e
              | None => if negb isAdditive then set_selected [] e else e
              end
          end
      end
  end.

(** The rectangle a text occupies in [_finishAreaSelect]. *)
Definition textRect (e : Editor) (v : View) (t : TextItem.t) : Rect.t :=
  let bounds := _getTextRect e v t in
  Rect.mk (Rect.x bounds) (Rect.y bounds - Rect.h bounds)
    (Rect.w bounds) (Rect.h bounds).

(** The loop of the additive branch: an item joins unless it is there. *)
Definition addMissing (sels areaSelection : list Sel.t) : list Sel.t :=
  fold_left
    (fun sels item =>
       if existsb (sameEntry (Sel.type item) (Sel.index item)) sels then sels
       else sels ++ [item])
    areaSelection sels.

(** [_finishAreaSelect()], with the two fields it reads from the tool state
    as arguments. *)
Definition _finishAreaSelect (selectionRect : option Rect.t)
  (isAreaAdditive : bool) (v : View) (e : Editor) : Editor :=
  match selectionRect with
  | None => e
  | Some sr =>
      let rect := normalizeSelectionRect sr in
      let areaSelection :=
        entriesWhere KPanel
          (fun p => _rectsIntersect rect
                      (Rect.mk (Panel.x p) (Panel.y p) (Panel.w p) (Panel.h p)))
          (panels e) ++
        entriesWhere KText
          (fun t => _rectsIntersect rect (textRect e v t)) (texts e) ++
        entriesWhere KObstacle
          (fun o => _rectsIntersect rect
                      (Rect.mk (Obstacle.x o) (Obstacle.y o)
                               (Obstacle.w o) (Obstacle.h o)))
          (obstacles e) ++
        areaSelectBeams sr (beams e) in
      if isAreaAdditive
      then set_selected (addMissing (selectedElements e) areaSelection) e
      else set_selected areaSelection e
  end.

End Picking.

(** ** Deleting, copying and pasting *)

(** One round of the insertion into a list sorted by decreasing index;
    entries of equal index keep their order. *)
Fixpoint insertByIndexDesc (x : Sel.t) (l : list Sel.t) : list Sel.t :=
  match l with
  | [] => [x]
  | y :: l' =>
      if (Sel.index x <? Sel.index y)%nat then y :: insertByIndexDesc x l'
      else x :: y :: l'
  end.

(** [selectedElements.sort((a, b) => b.index - a.index)]: the stable sort
    by decreasing index. *)
Definition sortByIndexDesc (l : list Sel.t) : list Sel.t :=
  foldr insertByIndexDesc [] l.

(** One round of the loop of [deleteSelected]; [splice(index, 1)] beyond the
    end removes nothing. *)
Definition deleteOne (e : Editor) (sel : Sel.t) : Editor :=
  match Sel.type sel with
  | KPanel => set_panels (delete (Sel.index sel) (panels e)) e
  | KObstacle => set_obstacles (delete (Sel.index sel) (obstacles e)) e
  | KBeam => set_beams (delete (Sel.index sel) (beams e)) e
  | KText => set_texts (delete (Sel.index sel) (texts e)) e
  end.

(** [deleteSelected()]: the selection is sorted in place and stays. *)
Definition deleteSelected (e : Editor) : Editor :=
  match selectedElements e with
  | [] => e
  | _ :: _ =>
      let sorted := sortByIndexDesc (selectedElements e) in
      fold_left deleteOne sorted (set_selected sorted e)
  end.

(** An entry of [copiedElements]: the kind and a copy of the element. *)
Inductive Copied : Type :=
| CPanel (p : Panel.t)
| CObstacle (o : Obstacle.t)
| CBeam (b : Beam.t)
| CText (t : TextItem.t).



(** The callback of [copiedElements.every] in [paste]. *)
Definition canPasteOne (e : Editor) (offsetX offsetY : Q) (item : Copied)
  : bool :=
  match item with
  | CPanel p =>
      _isRectWithinPanelBounds e (Panel.x p + offsetX) (Panel.y p + offsetY)
        (Panel.w p) (Panel.h p)
  | CObstacle _ => true
  | CBeam b =>
      _isLineWithinConstructionBounds e
        (Beam.x1 b + offsetX) (Beam.y1 b + offsetY)
        (Beam.x2 b + offsetX) (Beam.y2 b + offsetY)
  | CText _ => true
  end.

(** One round of the pasting loop: the editor and [newElements]. *)
Definition pasteOne (offsetX offsetY : Q) (acc : Editor * list Sel.t)
  (item : Copied) : Editor * list Sel.t :=
  let e := fst acc in
  let newElements := snd acc in
  match item with
  | CPanel p =>
      (set_panels (panels e ++ [movePanel offsetX offsetY p]) e,
       newElements ++ [Sel.mk KPanel (length (panels e))])
  | CObstacle o =>
      (set_obstacles (obstacles e ++ [moveObstacle offsetX offsetY o]) e,
       newElements ++ [Sel.mk KObstacle (length (obstacles e))])
  | CBeam b =>
      (set_beams (beams e ++ [moveBeam offsetX offsetY b]) e,
       newElements ++ [Sel.mk KBeam (length (beams e))])
  | CText t =>
      (set_texts (texts e ++ [moveText offsetX offsetY t]) e,
       newElements ++ [Sel.mk KText (length (texts e))])
  end.

(** [paste(offsetX, offsetY)].  The minimum the source computes first is
    never used. *)
Definition paste (offsetX offsetY : Q) (copiedElements : list Copied)
  (e : Editor) : Editor :=
  match copiedElements with
  | [] => e
  | _ :: _ =>
      let canPaste :=
        match constructionBounds e with
        | Some _ => forallb (canPasteOne e offsetX offsetY) copiedElements
        | None => true
        end in
      if negb canPaste then e
      else
        let r := fold_left (pasteOne offsetX offsetY) copiedElements (e, []) in
        set_selected (snd r) (fst r)
  end.

(** Element [i] of [l] is hit and no later element is; and no element of
    [l] is hit. *)
Definition topmostHit {A : Type} (hit : A -> bool) (l : list A) (i : nat)
  : Prop :=
  (exists a, l !! i = Some a /\ hit a = true) /\
  forall m b, (i < m)%nat -> l !! m = Some b -> hit b = false.

Definition noHit {A : Type} (hit : A -> bool) (l : list A) : Prop :=
  forall m b, l !! m = Some b -> hit b = false.

(** The selection has no entry twice and every entry refers to an
    element. *)
Definition selectionWellFormed (e : Editor) : Prop :=
  NoDup (selectedElements e) /\
  forall sel, sel ∈ selectedElements e -> validEntry e sel.

(** The elements of [l] at the indices [i, i + 1, ...] for which [drop] is
    false. *)
Fixpoint keepFrom {A : Type} (drop : nat -> bool) (i : nat) (l : list A)
  : list A :=
  match l with
  | [] => []
  | a :: l' =>
      if drop i then keepFrom drop (S i) l' else a :: keepFrom drop (S i) l'
  end.

(** The elements of [l] whose index is not selected under [kind]. *)
Definition unselected {A : Type} (sels : list Sel.t) (kind : ElementKind)
  (l : list A) : list A :=
  keepFrom (fun i => bool_decide (Sel.mk kind i ∈ sels)) 0 l.

(** The copies of one kind on the clipboard, in order. *)
Definition copiedPanels (cs : list Copied) : list Panel.t :=
  omap (fun c => match c with CPanel p => Some p | _ => None end) cs.

Definition copiedObstacles (cs : list Copied) : list Obstacle.t :=
  omap (fun c => match c with CObstacle o => Some o | _ => None end) cs.

Definition copiedBeams (cs : list Copied) : list Beam.t :=
  omap (fun c => match c with CBeam b => Some b | _ => None end) cs.

Definition copiedTexts (cs : list Copied) : list TextItem.t :=
  omap (fun c => match c with CText t => Some t | _ => None end) cs.

(** The collections after a paste: every collection has grown by one
    element per copy of its kind, in clipboard order, each the copy shifted
    by the offset. *)
Definition pastedShifted (dx dy : Q) (cs : list Copied) (e e' : Editor) : Prop :=
  (exists ps, panels e' = panels e ++ ps /\
              Forall2 (panelShifted dx dy) (copiedPanels cs) ps) /\
  (exists os, obstacles e' = obstacles e ++ os /\
              Forall2 (obstacleShifted dx dy) (copiedObstacles cs) os) /\
  (exists bs, beams e' = beams e ++ bs /\
              Forall2 (beamShifted dx dy) (copiedBeams cs) bs) /\
  (exists ts, texts e' = texts e ++ ts /\
              Forall2 (textShifted dx dy) (copiedTexts cs) ts).

(** The translated copies of one kind on the clipboard, in order. *)
Definition pastedPanels (dx dy : Q) (cs : list Copied) : list Panel.t :=
  omap (fun c => match c with CPanel p => Some (movePanel dx dy p) | _ => None end) cs.

Definition pastedObstacles (dx dy : Q) (cs : list Copied) : list Obstacle.t :=
  omap (fun c => match c with CObstacle o => Some (moveObstacle dx dy o) | _ => None end) cs.

Definition pastedBeams (dx dy : Q) (cs : list Copied) : list Beam.t :=
  omap (fun c => match c with CBeam b => Some (moveBeam dx dy b) | _ => None end) cs.

Definition pastedTexts (dx dy : Q) (cs : list Copied) : list TextItem.t :=
  omap (fun c => match c with CText t => Some (moveText dx dy t) | _ => None end) cs.

(** The copy at the offset respects the bound of its kind. *)
Definition copyRespectsBound (e : Editor) (dx dy : Q) (c : Copied) : Prop :=
  match c with
  | CPanel p =>
      forall pb, panelBounds e = Some pb ->
        rectInside pb (Panel.x p + dx) (Panel.y p + dy) (Panel.w p) (Panel.h p)
  | CBeam b =>
      forall cb, constructionBounds e = Some cb ->
        pointInside cb (Beam.x1 b + dx) (Beam.y1 b + dy) /\
        pointInside cb (Beam.x2 b + dx) (Beam.y2 b + dy)
  | CObstacle _ | CText _ => True
  end.

(** The outcome of the check of [paste]: [canPaste], or no check at all
    without construction bounds. *)
Definition pasteAccepted (e : Editor) (dx dy : Q) (cs : list Copied) : bool :=
  match constructionBounds e with
  | Some _ => forallb (canPasteOne e dx dy) cs
  | None => true
  end.

(** What one round of the loop of [deleteSelected] does to the collection
    of kind [kind]. *)
Definition deleteOfKind {A : Type} (kind : ElementKind) (l : list A)
  (sel : Sel.t) : list A :=
  if decide (Sel.type sel = kind) then delete (Sel.index sel) l else l.

(** The order of a list sorted by decreasing index. *)
Definition indexGe (a b : Sel.t) : Prop := (Sel.index b <= Sel.index a)%nat.

(** The handlers that set or keep the selection.  [deleteSelected] is not
    among them: it leaves the entries of the deleted elements behind. *)
Inductive selectionStep : Editor -> Editor -> Prop :=
| step_applySelection type index isAdditive e :
    validEntry e (Sel.mk type index) ->
    selectionStep e (_applySelection type index isAdditive e)
| step_handleSelect measureText sqrt cm isAdditive v e :
    ~ scale e * zoomLevel v == 0 ->
    selectionStep e (_handleSelect measureText sqrt cm isAdditive v e)
| step_finishAreaSelect measureText selectionRect isAreaAdditive v e :
    ~ scale e * zoomLevel v == 0 ->
    selectionStep e
      (_finishAreaSelect measureText selectionRect isAreaAdditive v e)
| step_setTool tool e :
    selectionStep e (setTool tool e)
| step_paste ox oy copiedElements e :
    selectionStep e (paste ox oy copiedElements e)
| step_moveSelected dx dy e e' :
    _moveSelected dx dy e = Some e' -> selectionStep e e'.


(** ** Drawing tools *)

(** [this.obstacles[this.obstacles.length - 1]] and its like: the index of
    the last element; on an empty array the source reads index [-1], which
    holds nothing, as index [0] does here. *)
Definition lastIndex {A : Type} (l : list A) : nat := (length l - 1)%nat.

Definition _startObstacle (cm : Point.t) (e : Editor) : Editor :=
  set_obstacles
    (obstacles e ++ [Obstacle.mk (Point.x cm) (Point.y cm) 0 0 "column"]) e.

(** [_updateObstacle(cm)]; writing [o.w] of a missing obstacle throws. *)
Definition _updateObstacle (v : View) (cm : Point.t) (e : Editor)
  : option Editor :=
  let i := lastIndex (obstacles e) in
  match obstacles e !! i with
  | None => None
  | Some o =>
      let snappedX := snap v (Point.x cm) in
      let snappedY := snap v (Point.y cm) in
      Some (set_obstacles
              (<[i := Obstacle.mk (Obstacle.x o) (Obstacle.y o)
                        (snappedX - Obstacle.x o) (snappedY - Obstacle.y o)
                        (Obstacle.type o)]> (obstacles e)) e)
  end.

(** The two normalising statements of [_finishObstacle]. *)
Definition normalizeObstacle (o : Obstacle.t) : Obstacle.t :=
  let o1 :=
    if Qltb (Obstacle.w o) 0
    then Obstacle.mk (Obstacle.x o + Obstacle.w o) (Obstacle.y o)
           (Qabs (Obstacle.w o)) (Obstacle.h o) (Obstacle.type o)
    else o in
  if Qltb (Obstacle.h o1) 0
  then Obstacle.mk (Obstacle.x o1) (Obstacle.y o1 + Obstacle.h o1)
         (Obstacle.w o1) (Qabs (Obstacle.h o1)) (Obstacle.type o1)
  else o1.

Definition _finishObstacle (e : Editor) : option Editor :=
  let i := lastIndex (obstacles e) in
  match obstacles e !! i with
  | None => None
  | Some o =>
      let o' := normalizeObstacle o in
      let os := <[i := o']> (obstacles e) in
      Some (set_obstacles
              (if Qltb (Obstacle.w o') 2 && Qltb (Obstacle.h o') 2
               then removelast os else os) e)
  end.

(** [document.getElementById('beamProfile')?.value || 'IPN-80']. *)
Definition profileOrDefault (beamProfile : option string) : string :=
  match beamProfile with
  | Some s => if String.eqb s "" then "IPN-80"%string else s
  | None => "IPN-80"%string
  end.

Definition _startBeam (beamProfile : option string) (cm : Point.t)
  (e : Editor) : Editor :=
  if negb (_isWithinConstructionBounds e (Point.x cm) (Point.y cm)) then e
  else
    set_beams
      (beams e ++ [Beam.mk (Point.x cm) (Point.y cm) (Point.x cm) (Point.y cm)
                     (profileOrDefault beamProfile) false]) e.

(** [_updateBeam(cm)]; writing [b.x2] of a missing beam throws. *)
Definition _updateBeam (v : View) (cm : Point.t) (e : Editor)
  : option Editor :=
  let i := lastIndex (beams e) in
  let snappedX := snap v (Point.x cm) in
  let snappedY := snap v (Point.y cm) in
  if negb (_isWithinConstructionBounds e snappedX snappedY) then Some e
  else
    match beams e !! i with
    | None => None
    | Some b =>
        Some (set_beams
                (<[i := Beam.mk (Beam.x1 b) (Beam.y1 b) snappedX snappedY
                          (Beam.profile b) (Beam.isAutoStructure b)]>
                   (beams e)) e)
    end.

(** [_finishBeam()]; [sqrt] is [Math.sqrt]. *)
Definition _finishBeam (sqrt : Q -> Q) (e : Editor) : option Editor :=
  match beams e !! lastIndex (beams e) with
  | None => None
  | Some b =>
      let length :=
        sqrt ((Beam.x2 b - Beam.x1 b) ^ 2 + (Beam.y2 b - Beam.y1 b) ^ 2) in
      if Qltb length 5 then Some (set_beams (removelast (beams e)) e)
      else if negb (_isLineWithinConstructionBounds e (Beam.x1 b) (Beam.y1 b)
                      (Beam.x2 b) (Beam.y2 b))
      then Some (set_beams (removelast (beams e)) e)
      else Some e
  end.

(** [_placePanel(cm)]; [cos] and [PI] are [Math.cos] and [Math.PI]. *)
Definition _placePanel (cos : Q -> Q) (PI : Q) (cm : Point.t) (e : Editor)
  : Editor :=
  let cfg := panelConfig e in
  let inclRad := PanelConfig.inclination cfg * PI / 180 in
  let projectedHeight := PanelConfig.height cfg * cos inclRad in
  if negb (_isRectWithinPanelBounds e (Point.x cm) (Point.y cm)
             (PanelConfig.width cfg) projectedHeight)
  then e
  else
    set_panels
      (panels e ++ [Panel.mk (Point.x cm) (Point.y cm) (PanelConfig.width cfg)
                      projectedHeight (Some (PanelConfig.height cfg))
                      (PanelConfig.inclination cfg) (PanelConfig.power cfg)])
      e.

(** [_placeText(cm)]; [answer] is what [prompt] returns and [trim] is
    [String.prototype.trim]. *)
Definition _placeText (trim : string -> string) (answer : option string)
  (cm : Point.t) (e : Editor) : Editor :=
  match answer with
  | None => e
  | Some text =>
      let trimmed := trim text in
      if String.eqb trimmed "" then e
      else
        set_texts
          (texts e ++ [TextItem.mk (Point.x cm) (Point.y cm) trimmed
                         (TextConfig.size (textConfig e))]) e
  end.

(** The mouse moves of one drag, in order: [step] is [_updateObstacle] or
    [_updateBeam]. *)
Definition dragThrough (step : Point.t -> Editor -> option Editor)
  (moves : list Point.t) (e : Editor) : option Editor :=
  fold_left (fun acc cm => acc ≫= step cm) moves (Some e).

(** Press, drag and release with the obstacle tool. *)
Definition drawObstacle (v : View) (start : Point.t) (moves : list Point.t)
  (e : Editor) : option Editor :=
  dragThrough (_updateObstacle v) moves (_startObstacle start e)
    ≫= _finishObstacle.

(** The flag [this.isDrawing] after [_startBeam(cm)]: set when the beam is
    started, left as it was when the press is refused. *)
Definition _startBeam_isDrawing (isDrawing : bool) (cm : Point.t) (e : Editor)
  : bool :=
  if negb (_isWithinConstructionBounds e (Point.x cm) (Point.y cm))
  then isDrawing else true.

(** What [_onMouseMove] and [_onMouseUp] do with the beam tool:
    [if (this.isDrawing && this.currentTool === 'add-beam')] guards
    [_updateBeam] and [_finishBeam]. *)
Definition beamToolMove (v : View) (isDrawing : bool) (cm : Point.t)
  (e : Editor) : option Editor :=
  if isDrawing then _updateBeam v cm e else Some e.

Definition beamToolUp (sqrt : Q -> Q) (isDrawing : bool) (e : Editor)
  : option Editor :=
  if isDrawing then _finishBeam sqrt e else Some e.

(** Press, drag and release with the beam tool, from the state [setTool]
    and every finished drawing leave: [isDrawing] is [false].  [start] is
    the snapped point [_onMouseDown] hands to [_startBeam]; the flag does
    not change during the moves. *)
Definition drawBeam (sqrt : Q -> Q) (v : View) (beamProfile : option string)
  (start : Point.t) (moves : list Point.t) (e : Editor) : option Editor :=
  let isDrawing := _startBeam_isDrawing false start e in
  dragThrough (beamToolMove v isDrawing) moves (_startBeam beamProfile start e)
    ≫= beamToolUp sqrt isDrawing.

(** Where the free corner of the obstacle being drawn ends up: at the
    snapped last position of the mouse. *)
Definition obstacleCorner (v : View) (start : Point.t) (moves : list Point.t)
  : Point.t :=
  match last moves with
  | Some m => Point.mk (snap v (Point.x m)) (snap v (Point.y m))
  | None => start
  end.

(** Where the free end of the beam being drawn ends up: at the last snapped
    position of the mouse that lies within the construction bounds. *)
Definition beamEnd (e : Editor) (v : View) (start : Point.t)
  (moves : list Point.t) : Point.t :=
  fold_left
    (fun p m =>
       if _isWithinConstructionBounds e (snap v (Point.x m)) (snap v (Point.y m))
       then Point.mk (snap v (Point.x m)) (snap v (Point.y m))
       else p)
    moves start.

(** Every beam lies within the construction bounds and every panel within
    the panel bounds, where these are set. *)
Definition elementsInside (e : Editor) : Prop :=
  (forall cb b, constructionBounds e = Some cb -> b ∈ beams e ->
     pointInside cb (Beam.x1 b) (Beam.y1 b) /\
     pointInside cb (Beam.x2 b) (Beam.y2 b)) /\
  (forall pb p, panelBounds e = Some pb -> p ∈ panels e ->
     rectInside pb (Panel.x p) (Panel.y p) (Panel.w p) (Panel.h p)).

(** Bounds, panels and beams are as they were: what the selection handlers
    and the obstacle and text tools guarantee. *)
Definition boundedKept (e e' : Editor) : Prop :=
  sameFrame e e' /\ panels e' = panels e /\ beams e' = beams e.

Definition editInvariant (e : Editor) : Prop :=
  boundsCoupled e /\ NoDup (selectedElements e) /\ elementsInside e.

(** The editing operations on elements and selection.  The operations that
    set the terrace, and with it the bounds, are not among them, nor is
    [createAutoStructure]. *)
Inductive editStep : Editor -> Editor -> Prop :=
| edit_applySelection type index isAdditive e :
    editStep e (_applySelection type index isAdditive e)
| edit_handleSelect measureText sqrt cm isAdditive v e :
    ~ scale e * zoomLevel v == 0 ->
    editStep e (_handleSelect measureText sqrt cm isAdditive v e)
| edit_finishAreaSelect measureText selectionRect isAreaAdditive v e :
    ~ scale e * zoomLevel v == 0 ->
    editStep e (_finishAreaSelect measureText selectionRect isAreaAdditive v e)
| edit_setTool tool e :
    editStep e (setTool tool e)
| edit_moveSelected dx dy e e' :
    _moveSelected dx dy e = Some e' -> editStep e e'
| edit_deleteSelected e :
    editStep e (deleteSelected e)
| edit_paste ox oy copiedElements e :
    editStep e (paste ox oy copiedElements e)
| edit_startObstacle cm e :
    editStep e (_startObstacle cm e)
| edit_updateObstacle v cm e e' :
    0 < gridSize v -> _updateObstacle v cm e = Some e' -> editStep e e'
| edit_finishObstacle e e' :
    _finishObstacle e = Some e' -> editStep e e'
| edit_startBeam beamProfile cm e :
    editStep e (_startBeam beamProfile cm e)
| edit_updateBeam v cm e e' :
    0 < gridSize v -> _updateBeam v cm e = Some e' -> editStep e e'
| edit_finishBeam sqrt e e' :
    _finishBeam sqrt e = Some e' -> editStep e e'
| edit_placePanel cos PI cm e :
    editStep e (_placePanel cos PI cm e)
| edit_placeText trim answer cm e :
    editStep e (_placeText trim answer cm e)
| edit_clearAll e :
    editStep e (clearAll e).


(** ** 3D viewer: terrace centre and corner posts *)

(** [_calculateTerraceCenter(vertices)]: the value it stores in
    [this.terraceCenter].  The last branch is the box with an infinite side,
    which three loop rounds rule out. *)
Definition _calculateTerraceCenter (vertices : list Point.t) : option Point.t :=
  if (length vertices <? 3)%nat then Some (Point.mk 0 0)
  else
    match vertexExtremes vertices with
    | mkExtremes (JSNum.Fin minX) (JSNum.Fin maxX)
                 (JSNum.Fin minY) (JSNum.Fin maxY) =>
        Some (Point.mk ((minX + maxX) / 2) ((minY + maxY) / 2))
    | _ => None
    end.

(** A post [_buildCornerPosts] puts into the scene: its corner and its
    height. *)
Record Post : Type := mkPost { post_x : Q; post_z : Q; postHeight : Q }.

(** [_buildCornerPosts], as the posts it adds, in order. *)
Definition _buildCornerPosts (tan : Q -> Q) (PI : Q) (terraceCenter : Point.t)
  (beams : list Beam.t) (terraceVertices : list Point.t) (height : Q)
  (inclination : Inclination) : list Post :=
  match _getStructureBounds terraceCenter beams terraceVertices with
  | None => []
  | Some bounds =>
      let rangeInfo := _getInclinationRange terraceCenter beams inclination in
      let zMin :=
        match rangeInfo with Some r => minZ r | None => sb_minZ bounds end in
      let zMax :=
        match rangeInfo with Some r => maxZ r | None => sb_maxZ bounds end in
      let zSpan := zMax - zMin in
      let rise := zSpan * tan (degrees inclination * PI / 180) in
      let corners :=
        [ (sb_minX bounds, sb_minZ bounds); (sb_maxX bounds, sb_minZ bounds);
          (sb_maxX bounds, sb_maxZ bounds); (sb_minX bounds, sb_maxZ bounds) ] in
      List.map
        (fun corner =>
           let zOffset := snd corner - zMin in
           let t := if Qeq_bool zSpan 0 then 0 else zOffset / zSpan in
           let t :=
             match rangeInfo with
             | Some r => if invert r then 1 - t else t
             | None => t
             end in
           let t := Qmax 0 (Qmin 1 t) in
           mkPost (fst corner) (snd corner) (height + rise * t))
        corners
  end.

(** The three resolved inclinations a beam can get. *)
Definition inclinationLevels (base : Q) : list BeamIncl :=
  [mkBeamIncl base true; mkBeamIncl (base * 0.25) false; mkBeamIncl 0 false].








(** ** The selection inspector *)

(** The closure [applyRect] of [getSelectionBounds]. *)
Definition applyRect (acc : Extremes) (x y w h : Q) : Extremes :=
  mkExtremes (JSNum.min (e_minX acc) x) (JSNum.max (e_maxX acc) (x + w))
             (JSNum.min (e_minY acc) y) (JSNum.max (e_maxY acc) (y + h)).

(** One round of the loop of [getSelectionBounds]; reading [p.x] of a
    missing element throws. *)
Definition boundsOfEntry (measureText : string -> Q -> Q) (v : View)
  (e : Editor) (acc : Extremes) (sel : Sel.t) : option Extremes :=
  match Sel.type sel with
  | KPanel =>
      (fun p => applyRect acc (Panel.x p) (Panel.y p) (Panel.w p) (Panel.h p))
        <$> panels e !! Sel.index sel
  | KObstacle =>
      (fun o => applyRect acc (Obstacle.x o) (Obstacle.y o)
                  (Obstacle.w o) (Obstacle.h o))
        <$> obstacles e !! Sel.index sel
  | KBeam =>
      (fun b => applyPoint (applyPoint acc (Beam.x1 b) (Beam.y1 b))
                  (Beam.x2 b) (Beam.y2 b))
        <$> beams e !! Sel.index sel
  | KText =>
      (fun t =>
         let rect := _getTextRect measureText e v t in
         applyRect acc (Rect.x rect) (Rect.y rect - Rect.h rect)
           (Rect.w rect) (Rect.h rect))
        <$> texts e !! Sel.index sel
  end.

(** The record [getSelectionBounds] returns. *)
Record SelectionBounds : Type := mkSelectionBounds {
  sel_minX : Q; sel_minY : Q; sel_maxX : Q; sel_maxY : Q;
  sel_width : Q; sel_height : Q
}.

(** The loop of [getSelectionBounds]. *)
Definition selectionExtremes (measureText : string -> Q -> Q) (v : View)
  (e : Editor) (sels : list Sel.t) (acc : Extremes) : option Extremes :=
  fold_left (fun acc sel => acc ≫= fun a => boundsOfEntry measureText v e a sel)
    sels (Some acc).

(** [getSelectionBounds()]: [None] when it throws, [Some None] for [null].
    The last branch is the box with an infinite side, which one loop round
    rules out. *)
Definition getSelectionBounds (measureText : string -> Q -> Q) (v : View)
  (e : Editor) : option (option SelectionBounds) :=
  match selectedElements e with
  | [] => Some None
  | _ :: _ =>
      match selectionExtremes measureText v e (selectedElements e) noExtremes with
      | None => None
      | Some (mkExtremes (JSNum.Fin minX) (JSNum.Fin maxX)
                         (JSNum.Fin minY) (JSNum.Fin maxY)) =>
          Some (Some (mkSelectionBounds minX minY maxX maxY
                        (maxX - minX) (maxY - minY)))
      | Some _ => Some None
      end
  end.

(** [applySelectionPosition] of the page, on the editor: [posX] and [posY]
    are the two inputs as [parseFloat] reads them, [None] for [NaN]. *)
Definition applySelectionPosition (measureText : string -> Q -> Q) (v : View)
  (posX posY : option Q) (e : Editor) : option Editor :=
  match getSelectionBounds measureText v e with
  | None => None
  | Some None => Some e
  | Some (Some bounds) =>
      match posX, posY with
      | Some newX, Some newY =>
          _moveSelected (newX - sel_minX bounds) (newY - sel_minY bounds) e
      | _, _ => Some e
      end
  end.

(** The four running extremes are numbers; and none of them has run off to
    the wrong infinity, as is the case from [noExtremes] on. *)
Definition allFinite (a : Extremes) : Prop :=
  JSNum.isFinite (e_minX a) = true /\ JSNum.isFinite (e_maxX a) = true /\
  JSNum.isFinite (e_minY a) = true /\ JSNum.isFinite (e_maxY a) = true.

Definition properExtremes (a : Extremes) : Prop :=
  e_minX a <> JSNum.NegInf /\ e_maxX a <> JSNum.PosInf /\
  e_minY a <> JSNum.NegInf /\ e_maxY a <> JSNum.PosInf.

(** A running minimum is at most [q]; a running maximum is at least [q]. *)
Definition atMost (a : JSNum.num) (q : Q) : Prop :=
  match a with
  | JSNum.NegInf => True
  | JSNum.Fin p => p <= q
  | JSNum.PosInf => False
  end.

Definition atLeast (a : JSNum.num) (q : Q) : Prop :=
  match a with
  | JSNum.NegInf => False
  | JSNum.Fin p => q <= p
  | JSNum.PosInf => True
  end.

(** The running extremes hold the box from [(x0, y0)] to [(x1, y1)]. *)
Definition holdsBox (acc : Extremes) (x0 y0 x1 y1 : Q) : Prop :=
  atMost (e_minX acc) x0 /\ atLeast (e_maxX acc) x1 /\
  atMost (e_minY acc) y0 /\ atLeast (e_maxY acc) y1.

(** The running extremes hold the element [sel] refers to: the rectangle of
    a panel, an obstacle or a text, both ends of a beam. *)
Definition holdsEntry (measureText : string -> Q -> Q) (v : View) (e : Editor)
  (acc : Extremes) (sel : Sel.t) : Prop :=
  match Sel.type sel with
  | KPanel =>
      forall p, panels e !! Sel.index sel = Some p ->
        holdsBox acc (Panel.x p) (Panel.y p)
          (Panel.x p + Panel.w p) (Panel.y p + Panel.h p)
  | KObstacle =>
      forall o, obstacles e !! Sel.index sel = Some o ->
        holdsBox acc (Obstacle.x o) (Obstacle.y o)
          (Obstacle.x o + Obstacle.w o) (Obstacle.y o + Obstacle.h o)
  | KBeam =>
      forall b, beams e !! Sel.index sel = Some b ->
        holdsBox acc (Beam.x1 b) (Beam.y1 b) (Beam.x1 b) (Beam.y1 b) /\
        holdsBox acc (Beam.x2 b) (Beam.y2 b) (Beam.x2 b) (Beam.y2 b)
  | KText =>
      forall t, texts e !! Sel.index sel = Some t ->
        holdsBox acc
          (Rect.x (textRect measureText e v t))
          (Rect.y (textRect measureText e v t))
          (Rect.x (textRect measureText e v t)
           + Rect.w (textRect measureText e v t))
          (Rect.y (textRect measureText e v t)
           + Rect.h (textRect measureText e v t))
  end.

(** The extremes of a returned selection box. *)
Definition boxExtremes (b : SelectionBounds) : Extremes :=
  mkExtremes (JSNum.Fin (sel_minX b)) (JSNum.Fin (sel_maxX b))
             (JSNum.Fin (sel_minY b)) (JSNum.Fin (sel_maxY b)).

(** * Properties *)

(** ** Numbers and running extremes *)

Lemma Qmin_cases (a b : Q) : Qmin a b = a \/ Qmin a b = b.
Proof.
  unfold Qmin, GenericMinMax.gmin. destruct (a ?= b); auto.
Qed.

Lemma Qmax_cases (a b : Q) : Qmax a b = a \/ Qmax a b = b.
Proof.
  unfold Qmax, GenericMinMax.gmax. destruct (a ?= b); auto.
Qed.

Lemma Qltb_lt (a b : Q) : Qltb a b = true <-> a < b.
Proof.
  unfold Qltb. rewrite negb_true_iff. split; intros H.
  - apply Qnot_le_lt. intros Hle. apply Qle_bool_iff in Hle. congruence.
  - destruct (Qle_bool b a) eqn:E; [|reflexivity].
    apply Qle_bool_iff in E. lra.
Qed.

Lemma Qltb_ge (a b : Q) : Qltb a b = false <-> b <= a.
Proof.
  unfold Qltb. rewrite negb_false_iff. apply Qle_bool_iff.
Qed.

Lemma Qle_bool_false (a b : Q) : Qle_bool a b = false <-> b < a.
Proof.
  rewrite <- Qltb_lt. unfold Qltb. rewrite negb_true_iff. reflexivity.
Qed.

Lemma fold_min_from (l : list Q) (a : Q) :
  exists q, fold_left JSNum.min l (JSNum.Fin a) = JSNum.Fin q /\
            (q = a \/ q ∈ l) /\ q <= a /\ forall x, x ∈ l -> q <= x.
Proof.
  revert a. induction l as [|y l IH]; intros a; simpl.
  - exists a. repeat split; auto; try lra. intros x Hx. inversion Hx.
  - destruct (IH (Qmin a y)) as (q & Hq & Hor & Hle & Hall).
    exists q. split; [exact Hq|]. split; [|split].
    + destruct Hor as [->|Hin].
      * destruct (Qmin_cases a y) as [->| ->]; [left; reflexivity|].
        right. apply elem_of_cons. left. reflexivity.
      * right. apply elem_of_cons. right. exact Hin.
    + pose proof (Q.le_min_l a y). lra.
    + intros x Hx. apply elem_of_cons in Hx as [->|Hx]; [|auto].
      pose proof (Q.le_min_r a y). lra.
Qed.

Lemma fold_max_from (l : list Q) (a : Q) :
  exists q, fold_left JSNum.max l (JSNum.Fin a) = JSNum.Fin q /\
            (q = a \/ q ∈ l) /\ a <= q /\ forall x, x ∈ l -> x <= q.
Proof.
  revert a. induction l as [|y l IH]; intros a; simpl.
  - exists a. repeat split; auto; try lra. intros x Hx. inversion Hx.
  - destruct (IH (Qmax a y)) as (q & Hq & Hor & Hle & Hall).
    exists q. split; [exact Hq|]. split; [|split].
    + destruct Hor as [->|Hin].
      * destruct (Qmax_cases a y) as [->| ->]; [left; reflexivity|].
        right. apply elem_of_cons. left. reflexivity.
      * right. apply elem_of_cons. right. exact Hin.
    + pose proof (Q.le_max_l a y). lra.
    + intros x Hx. apply elem_of_cons in Hx as [->|Hx]; [|auto].
      pose proof (Q.le_max_r a y). lra.
Qed.

(** The running minimum of a non-empty list, started at [Infinity], is
    finite and is the least element. *)
Lemma fold_min_spec (l : list Q) :
  l <> [] ->
  exists q, fold_left JSNum.min l JSNum.PosInf = JSNum.Fin q /\ isMinOf q l.
Proof.
  destruct l as [|y l]; [congruence|]. intros _. simpl.
  destruct (fold_min_from l y) as (q & Hq & Hor & Hle & Hall).
  exists q. split; [exact Hq|]. split.
  - apply elem_of_cons. destruct Hor; auto.
  - intros x Hx. apply elem_of_cons in Hx as [->|Hx]; auto.
Qed.

Lemma fold_max_spec (l : list Q) :
  l <> [] ->
  exists q, fold_left JSNum.max l JSNum.NegInf = JSNum.Fin q /\ isMaxOf q l.
Proof.
  destruct l as [|y l]; [congruence|]. intros _. simpl.
  destruct (fold_max_from l y) as (q & Hq & Hor & Hle & Hall).
  exists q. split; [exact Hq|]. split.
  - apply elem_of_cons. destruct Hor; auto.
  - intros x Hx. apply elem_of_cons in Hx as [->|Hx]; auto.
Qed.

(** A loop that applies one point per round keeps four independent running
    extremes. *)
Lemma fold_applyPoint {A : Type} (fx fy : A -> Q) (l : list A) (acc : Extremes) :
  fold_left (fun acc v => applyPoint acc (fx v) (fy v)) l acc =
  mkExtremes (fold_left JSNum.min (List.map fx l) (e_minX acc))
             (fold_left JSNum.max (List.map fx l) (e_maxX acc))
             (fold_left JSNum.min (List.map fy l) (e_minY acc))
             (fold_left JSNum.max (List.map fy l) (e_maxY acc)).
Proof.
  revert acc. induction l as [|v l IH]; intros acc; simpl.
  - destruct acc; reflexivity.
  - rewrite IH. reflexivity.
Qed.

(** The same for the loops that apply both endpoints of a beam per round. *)
Lemma fold_applyPoint2 {A : Type} (fx1 fy1 fx2 fy2 : A -> Q) (l : list A)
  (acc : Extremes) :
  fold_left
    (fun acc v => applyPoint (applyPoint acc (fx1 v) (fy1 v)) (fx2 v) (fy2 v))
    l acc =
  mkExtremes
    (fold_left JSNum.min (flat_map (fun v => [fx1 v; fx2 v]) l) (e_minX acc))
    (fold_left JSNum.max (flat_map (fun v => [fx1 v; fx2 v]) l) (e_maxX acc))
    (fold_left JSNum.min (flat_map (fun v => [fy1 v; fy2 v]) l) (e_minY acc))
    (fold_left JSNum.max (flat_map (fun v => [fy1 v; fy2 v]) l) (e_maxY acc)).
Proof.
  revert acc. induction l as [|v l IH]; intros acc; simpl.
  - destruct acc; reflexivity.
  - rewrite IH. reflexivity.
Qed.

Lemma map_nonempty {A B : Type} (f : A -> B) (l : list A) :
  l <> [] -> List.map f l <> [].
Proof. destruct l; simpl; congruence. Qed.

Lemma elem_of_map_inv {A B : Type} (f : A -> B) (l : list A) (v : A) :
  v ∈ l -> f v ∈ List.map f l.
Proof.
  intros H. apply list_elem_of_In. apply in_map. apply list_elem_of_In, H.
Qed.

(** ** Bounds engine *)

(** With three vertices or more there is a bounding box, and it is the
    bounding box: its sides are attained and enclose every vertex. *)
Lemma getTerraceBounds_some (vs : list Point.t) :
  (3 <= length vs)%nat ->
  exists tb,
    getTerraceBounds vs = Some tb /\
    isMinOf (TerraceBounds.minX tb) (List.map Point.x vs) /\
    isMaxOf (TerraceBounds.maxX tb) (List.map Point.x vs) /\
    isMinOf (TerraceBounds.minY tb) (List.map Point.y vs) /\
    isMaxOf (TerraceBounds.maxY tb) (List.map Point.y vs) /\
    TerraceBounds.width tb = TerraceBounds.maxX tb - TerraceBounds.minX tb /\
    TerraceBounds.height tb = TerraceBounds.maxY tb - TerraceBounds.minY tb.
Proof.
  intros Hlen. unfold getTerraceBounds, vertexExtremes.
  assert (Hne : vs <> []) by (destruct vs; simpl in Hlen; [lia|congruence]).
  destruct (Nat.ltb_spec (length vs) 3) as [Hlt|_]; [lia|].
  rewrite fold_applyPoint. simpl.
  destruct (fold_min_spec (List.map Point.x vs)) as (a & -> & Ha);
    [apply map_nonempty, Hne|].
  destruct (fold_max_spec (List.map Point.x vs)) as (b & -> & Hb);
    [apply map_nonempty, Hne|].
  destruct (fold_min_spec (List.map Point.y vs)) as (c & -> & Hc);
    [apply map_nonempty, Hne|].
  destruct (fold_max_spec (List.map Point.y vs)) as (d & -> & Hd);
    [apply map_nonempty, Hne|].
  eexists. split; [reflexivity|]. simpl. auto 10.
Qed.

Lemma getTerraceBounds_none (vs : list Point.t) :
  (length vs < 3)%nat -> getTerraceBounds vs = None.
Proof.
  intros H. unfold getTerraceBounds.
  destruct (Nat.ltb_spec (length vs) 3); [reflexivity|lia].
Qed.

Lemma getTerraceBounds_length (vs : list Point.t) (tb : TerraceBounds.t) :
  getTerraceBounds vs = Some tb -> (3 <= length vs)%nat.
Proof.
  unfold getTerraceBounds.
  destruct (Nat.ltb_spec (length vs) 3); [discriminate|auto].
Qed.

Lemma construction_contains_box (tb : TerraceBounds.t) :
  Bounds.within (TerraceBounds.box tb) (_calculateConstructionBounds tb 10).
Proof. unfold Bounds.within; simpl. repeat split; lra. Qed.

Lemma panel_contains_construction (cb : Bounds.t) :
  Bounds.within cb (_calculatePanelBounds cb 40).
Proof. unfold Bounds.within; simpl. repeat split; lra. Qed.

(** Recomputing the bounds of a terrace of three vertices or more
    establishes the nesting. *)
Lemma recomputeBounds_nested (e : Editor) :
  (3 <= length (terraceVertices e))%nat -> terraceNested (recomputeBounds e).
Proof.
  intros Hlen. unfold recomputeBounds.
  destruct (getTerraceBounds_some _ Hlen)
    as (tb & Htb & HminX & HmaxX & HminY & HmaxY & _).
  rewrite Htb. unfold terraceNested. simpl.
  exists tb, (_calculateConstructionBounds tb 10),
    (_calculatePanelBounds (_calculateConstructionBounds tb 10) 40).
  split; [exact Htb|]. split; [reflexivity|]. split; [reflexivity|].
  split; [|split;
           [apply construction_contains_box|apply panel_contains_construction]].
  intros v Hv. unfold pointInside; simpl.
  pose proof (elem_of_map_inv Point.x _ _ Hv) as Hx.
  pose proof (elem_of_map_inv Point.y _ _ Hv) as Hy.
  destruct HminX as [_ HminX], HmaxX as [_ HmaxX],
           HminY as [_ HminY], HmaxY as [_ HmaxY].
  auto.
Qed.

Lemma recomputeBounds_terrace (e : Editor) :
  terraceVertices (recomputeBounds e) = terraceVertices e.
Proof.
  unfold recomputeBounds. destruct (getTerraceBounds _); reflexivity.
Qed.

(** C4.  After each of the three recomputations of the bounds (confirming a
    terrace of at least three points, generating a rectangular terrace,
    importing a record that lacks a bound for a terrace of at least three
    vertices) the terrace has at least three vertices, its bounding box
    encloses them and lies within the construction bounds, and the
    construction bounds lie within the panel bounds. *)
Theorem bounds_nested_after_recomputation (e e' : Editor) :
  recomputes e e' ->
  (3 <= length (terraceVertices e'))%nat /\ terraceNested e'.
Proof.
  intros H. destruct H as [e Htemp | w h e | d e Hmissing Hlen].
  - unfold confirmTerrace.
    destruct (Nat.leb_spec 3 (length (tempPoints e))) as [_|Hlt]; [|lia].
    assert (Hn : terraceNested (recomputeBounds (set_terrace (tempPoints e) e)))
      by (apply recomputeBounds_nested; exact Htemp).
    assert (Ht : terraceVertices
                   (set_tempPoints []
                      (recomputeBounds (set_terrace (tempPoints e) e))) =
                 tempPoints e)
      by (simpl; rewrite recomputeBounds_terrace; reflexivity).
    split; [rewrite Ht; exact Htemp|exact Hn].
  - unfold setRectangularTerrace. split.
    + rewrite recomputeBounds_terrace. simpl. lia.
    + apply recomputeBounds_nested. simpl. lia.
  - unfold importData. cbn [constructionBounds panelBounds terraceVertices].
    destruct (Nat.leb_spec 3 (length (default [] (d_terraceVertices d))))
      as [_|Hlt]; [|lia].
    assert (Hc : negb (bool_decide (is_Some (d_constructionBounds d))) ||
                 negb (bool_decide (is_Some (d_panelBounds d))) = true).
    { destruct Hmissing as [-> | ->]; simpl; [reflexivity|].
      apply orb_true_r. }
    rewrite Hc. simpl andb. cbv iota. split.
    + rewrite recomputeBounds_terrace. exact Hlen.
    + apply recomputeBounds_nested. exact Hlen.
Qed.

(** The three recomputations at a terrace of 585 by 388: the scenario of the
    specification. *)
Lemma bounds_nested_after_recomputation_witness :
  (3 <= length (terraceVertices (setRectangularTerrace 585 388 (newEditor None))))%nat
  /\ terraceNested (setRectangularTerrace 585 388 (newEditor None)).
Proof.
  apply (bounds_nested_after_recomputation (newEditor None)).
  apply rc_setRectangularTerrace.
Defined.

(** ** Moving the selection *)

Lemma isRectWithinPanelBounds_spec (e : Editor) (rx ry rw rh : Q) :
  _isRectWithinPanelBounds e rx ry rw rh = true <->
  forall pb, panelBounds e = Some pb -> rectInside pb rx ry rw rh.
Proof.
  unfold _isRectWithinPanelBounds, rectInside, Qgeb.
  destruct (panelBounds e) as [pb|].
  - rewrite !andb_true_iff, !Qle_bool_iff. split.
    + intros H pb' [= <-]. tauto.
    + intros H. specialize (H pb eq_refl). tauto.
  - split; [intros _ pb; discriminate|reflexivity].
Qed.

Lemma isWithinConstructionBounds_spec (e : Editor) (cb : Bounds.t) (px py : Q) :
  constructionBounds e = Some cb ->
  _isWithinConstructionBounds e px py = true <-> pointInside cb px py.
Proof.
  intros Hcb. unfold _isWithinConstructionBounds, pointInside, Qgeb.
  rewrite Hcb, !andb_true_iff, !Qle_bool_iff. tauto.
Qed.

Lemma isLineWithinConstructionBounds_spec (e : Editor) (ax ay bx by_ : Q) :
  _isLineWithinConstructionBounds e ax ay bx by_ = true <->
  forall cb, constructionBounds e = Some cb ->
             pointInside cb ax ay /\ pointInside cb bx by_.
Proof.
  unfold _isLineWithinConstructionBounds.
  destruct (constructionBounds e) as [cb|] eqn:Hcb.
  - rewrite andb_true_iff, !(isWithinConstructionBounds_spec e cb) by exact Hcb.
    split.
    + intros H cb' [= <-]. exact H.
    + intros H. exact (H cb eq_refl).
  - split; [intros _ cb; discriminate|reflexivity].
Qed.

(** On an entry that refers to an element the check of [_moveSelected]
    decides whether the moved element respects its bound. *)
Lemma canMoveOne_spec (e : Editor) (dx dy : Q) (sel : Sel.t) :
  validEntry e sel ->
  exists b, canMoveOne e dx dy sel = Some b /\
            (b = true <-> respectsBound e dx dy sel).
Proof.
  unfold validEntry, canMoveOne, respectsBound.
  destruct (Sel.type sel); intros Hv.
  - destruct Hv as [p Hp]. rewrite Hp. eexists. split; [reflexivity|].
    rewrite isRectWithinPanelBounds_spec. split.
    + intros H p' pb [= <-]. apply H.
    + intros H pb Hpb. exact (H p pb eq_refl Hpb).
  - exists true. tauto.
  - destruct Hv as [b Hb]. rewrite Hb. eexists. split; [reflexivity|].
    rewrite isLineWithinConstructionBounds_spec. split.
    + intros H b' cb [= <-]. apply H.
    + intros H cb Hcb. exact (H b cb eq_refl Hcb).
  - exists true. tauto.
Qed.

Lemma every_spec {A : Type} (f : A -> option bool) (P : A -> Prop) (l : list A) :
  (forall a, a ∈ l -> exists b, f a = Some b /\ (b = true <-> P a)) ->
  exists b, every f l = Some b /\ (b = true <-> forall a, a ∈ l -> P a).
Proof.
  induction l as [|a l IH]; intros Hf; simpl.
  - exists true. split; [reflexivity|]. split; [|reflexivity].
    intros _ a Ha. inversion Ha.
  - destruct (Hf a) as (b & Hb & Hiff); [apply elem_of_cons; auto|].
    rewrite Hb. destruct b.
    + destruct IH as (b' & Hb' & Hiff').
      { intros a' Ha'. apply Hf. apply elem_of_cons. auto. }
      exists b'. split; [exact Hb'|]. rewrite Hiff'. split.
      * intros H a' Ha'. apply elem_of_cons in Ha' as [->|Ha']; [|auto].
        apply Hiff. reflexivity.
      * intros H a' Ha'. apply H. apply elem_of_cons. auto.
    + exists false. split; [reflexivity|]. split; [discriminate|].
      intros H. apply Hiff. apply H. apply elem_of_cons. auto.
Qed.

Lemma oneMoved_alter {A : Type} (kind : ElementKind) (j : nat) (f : A -> A)
  (l : list A) :
  oneMoved (Sel.mk kind j) kind f l (alter f j l).
Proof.
  intros i. rewrite list_lookup_alter.
  destruct (decide (j = i)) as [->|Hne].
  - rewrite decide_True by reflexivity. reflexivity.
  - rewrite decide_False by congruence. reflexivity.
Qed.

Lemma oneMoved_other {A : Type} (k kind : ElementKind) (j : nat) (f : A -> A)
  (l : list A) :
  k <> kind -> oneMoved (Sel.mk k j) kind f l l.
Proof.
  intros Hk i. rewrite decide_False by congruence. reflexivity.
Qed.

Lemma moveOne_spec (dx dy : Q) (e : Editor) (sel : Sel.t) :
  validEntry e sel ->
  exists e1,
    moveOne dx dy e sel = Some e1 /\
    oneMoved sel KPanel (movePanel dx dy) (panels e) (panels e1) /\
    oneMoved sel KObstacle (moveObstacle dx dy) (obstacles e) (obstacles e1) /\
    oneMoved sel KBeam (moveBeam dx dy) (beams e) (beams e1) /\
    oneMoved sel KText (moveText dx dy) (texts e) (texts e1) /\
    sameFrame e e1 /\
    tempPoints e1 = tempPoints e /\
    selectedElements e1 = selectedElements e /\
    panelConfig e1 = panelConfig e /\
    textConfig e1 = textConfig e.
Proof.
  destruct sel as [k j]. unfold validEntry, moveOne, sameFrame. simpl.
  destruct k; intros [x Hx]; rewrite Hx; eexists; (split; [reflexivity|]);
    simpl; repeat split;
    first [apply oneMoved_alter | apply oneMoved_other; discriminate].
Qed.

Lemma oneMoved_valid (e e1 : Editor) (sel sel' : Sel.t) (dx dy : Q) :
  moveOne dx dy e sel = Some e1 -> validEntry e sel' -> validEntry e1 sel'.
Proof.
  destruct sel as [k j]. unfold moveOne, validEntry. simpl.
  destruct k;
    (destruct (_ !! j) eqn:Hj; [|discriminate]); intros [= <-];
    destruct (Sel.type sel'); simpl; auto;
    rewrite list_lookup_alter; intros [y Hy];
    destruct (decide (j = Sel.index sel')) as [->|_]; rewrite ?Hy; eauto.
Qed.

Lemma movedWhereSelected_step {A : Type} (sel : Sel.t) (rest : list Sel.t)
  (kind : ElementKind) (f : A -> A) (l l1 l' : list A) :
  sel ∉ rest ->
  oneMoved sel kind f l l1 ->
  movedWhereSelected rest kind f l1 l' ->
  movedWhereSelected (sel :: rest) kind f l l'.
Proof.
  intros Hnot H1 Hrest i. rewrite (Hrest i), (H1 i).
  destruct (decide (Sel.mk kind i ∈ rest)) as [Hin|Hnin];
    destruct (decide (sel = Sel.mk kind i)) as [Heq|Hne];
    destruct (decide (Sel.mk kind i ∈ sel :: rest)) as [Hin'|Hnin'];
    try reflexivity; exfalso; subst;
    rewrite ?elem_of_cons in *; intuition congruence.
Qed.

Lemma movedWhereSelected_nil {A : Type} (kind : ElementKind) (f : A -> A)
  (l : list A) :
  movedWhereSelected [] kind f l l.
Proof.
  intros i. rewrite decide_False; [reflexivity|]. intros H. inversion H.
Qed.

(** The mutation loop over a duplicate-free selection of valid entries
    translates exactly the selected elements. *)
Lemma moveAll_spec (dx dy : Q) (sels : list Sel.t) (e : Editor) :
  NoDup sels -> (forall sel, sel ∈ sels -> validEntry e sel) ->
  exists e',
    moveAll dx dy sels e = Some e' /\
    movedWhereSelected sels KPanel (movePanel dx dy) (panels e) (panels e') /\
    movedWhereSelected sels KObstacle (moveObstacle dx dy)
      (obstacles e) (obstacles e') /\
    movedWhereSelected sels KBeam (moveBeam dx dy) (beams e) (beams e') /\
    movedWhereSelected sels KText (moveText dx dy) (texts e) (texts e') /\
    sameFrame e e' /\
    tempPoints e' = tempPoints e /\
    selectedElements e' = selectedElements e /\
    panelConfig e' = panelConfig e /\
    textConfig e' = textConfig e.
Proof.
  revert e. induction sels as [|sel rest IH]; intros e Hnd Hvalid; simpl.
  - exists e. split; [reflexivity|]. unfold sameFrame.
    repeat split; apply movedWhereSelected_nil.
  - apply NoDup_cons in Hnd as [Hnot Hnd].
    destruct (moveOne_spec dx dy e sel) as
      (e1 & He1 & Hp & Ho & Hb & Ht & Hf & Htp & Hse & Hpc & Htc).
    { apply Hvalid. apply elem_of_cons. auto. }
    rewrite He1.
    destruct (IH e1 Hnd) as
      (e' & He' & Hp' & Ho' & Hb' & Ht' & Hf' & Htp' & Hse' & Hpc' & Htc').
    { intros s Hs. eapply oneMoved_valid; [exact He1|].
      apply Hvalid. apply elem_of_cons. auto. }
    exists e'. split; [exact He'|].
    unfold sameFrame in *.
    destruct Hf as (? & ? & ? & ?), Hf' as (? & ? & ? & ?).
    repeat split; try congruence;
      eapply movedWhereSelected_step; eauto.
Qed.

(** Without construction bounds [_moveSelected] validates nothing. *)
Lemma moveSelected_unvalidated (dx dy : Q) (e : Editor) :
  constructionBounds e = None ->
  _moveSelected dx dy e = moveAll dx dy (selectedElements e) e.
Proof.
  intros Hcb. unfold _moveSelected. rewrite Hcb.
  destruct (selectedElements e); reflexivity.
Qed.

(** The four moves shift by exactly [(dx, dy)]. *)
Lemma movePanel_shifted (dx dy : Q) (p : Panel.t) :
  panelShifted dx dy p (movePanel dx dy p).
Proof. unfold panelShifted. simpl. auto 10. Qed.

Lemma moveObstacle_shifted (dx dy : Q) (o : Obstacle.t) :
  obstacleShifted dx dy o (moveObstacle dx dy o).
Proof. unfold obstacleShifted. simpl. auto 10. Qed.

Lemma moveBeam_shifted (dx dy : Q) (b : Beam.t) :
  beamShifted dx dy b (moveBeam dx dy b).
Proof. unfold beamShifted. simpl. auto 10. Qed.

Lemma moveText_shifted (dx dy : Q) (t : TextItem.t) :
  textShifted dx dy t (moveText dx dy t).
Proof. unfold textShifted. simpl. auto 10. Qed.

Lemma movedWhereSelected_shifted {A : Type} (sels : list Sel.t)
  (kind : ElementKind) (f : A -> A) (R : A -> A -> Prop) (l l' : list A) :
  (forall a, R a (f a)) ->
  movedWhereSelected sels kind f l l' -> shiftedWhereSelected sels kind R l l'.
Proof.
  intros HR Hm. split.
  - apply Nat.le_antisymm.
    + apply lookup_ge_None. rewrite (Hm (length l)).
      rewrite (proj2 (lookup_ge_None l (length l))) by lia.
      destruct (decide _); reflexivity.
    + apply lookup_ge_None.
      pose proof (Hm (length l')) as H.
      rewrite (proj2 (lookup_ge_None l' (length l'))) in H by lia.
      destruct (decide _); destruct (l !! length l'); simpl in H;
        congruence.
  - intros i a Ha. rewrite (Hm i), Ha.
    destruct (decide (Sel.mk kind i ∈ sels)) as [Hin|Hnot].
    + exists (f a). split; [reflexivity|]. split; [auto|contradiction].
    + exists a. split; [reflexivity|]. split; [contradiction|auto].
Qed.

Lemma translated_shifted (dx dy : Q) (e e' : Editor) :
  translated dx dy e e' -> selectionShifted dx dy e e'.
Proof.
  intros (Hp & Ho & Hb & Ht & Hrest). unfold selectionShifted.
  split; [|split; [|split; [|split; [|exact Hrest]]]].
  - eapply movedWhereSelected_shifted; [apply movePanel_shifted|exact Hp].
  - eapply movedWhereSelected_shifted; [apply moveObstacle_shifted|exact Ho].
  - eapply movedWhereSelected_shifted; [apply moveBeam_shifted|exact Hb].
  - eapply movedWhereSelected_shifted; [apply moveText_shifted|exact Ht].
Qed.

(** The mutation loop completes exactly when it does not stop at an entry
    without element. *)
Lemma moveAllUntilThrow_spec (dx dy : Q) (sels : list Sel.t) (e : Editor) :
  match moveAll dx dy sels e with
  | Some e' => moveAllUntilThrow dx dy sels e = (e', false)
  | None => snd (moveAllUntilThrow dx dy sels e) = true
  end.
Proof.
  revert e. induction sels as [|sel rest IH]; intros e; simpl.
  - reflexivity.
  - destruct (moveOne dx dy e sel) as [e1|]; [apply IH|reflexivity].
Qed.




(** ** Resolving the inclination range *)

Section InclinationRange.

Variable terraceCenter : Point.t.

(** The loop over the indices [s .. s + n - 1] of existing beams keeps the
    running extremes of the depths of those beams. *)
Lemma depthExtremes_seq (beams : list Beam.t) (n s : nat)
  (acc : JSNum.num * JSNum.num) :
  (s + n <= length beams)%nat ->
  fold_left
    (fun acc i =>
       match beams !! i with
       | None => acc
       | Some b =>
           (JSNum.min (JSNum.min (fst acc)
                         (Beam.y1 b - Point.y terraceCenter))
              (Beam.y2 b - Point.y terraceCenter),
            JSNum.max (JSNum.max (snd acc)
                         (Beam.y1 b - Point.y terraceCenter))
              (Beam.y2 b - Point.y terraceCenter))
       end)
    (seq s n) acc =
  (fold_left JSNum.min (depthsOf terraceCenter (take n (drop s beams))) (fst acc),
   fold_left JSNum.max (depthsOf terraceCenter (take n (drop s beams))) (snd acc)).
Proof.
  revert s acc. induction n as [|n IH]; intros s acc Hlen.
  - simpl. destruct acc; reflexivity.
  - destruct (lookup_lt_is_Some_2 beams s) as [b Hb]; [lia|].
    cbn [seq fold_left]. rewrite Hb, IH by lia.
    rewrite (drop_S _ _ _ Hb). reflexivity.
Qed.

Lemma depthsOf_nonempty (bs : list Beam.t) :
  bs <> [] -> depthsOf terraceCenter bs <> [].
Proof. destruct bs; simpl; congruence. Qed.

Lemma Qmin4_le_Qmax4 (a b c d : Q) : Qmin4 a b c d <= Qmax4 a b c d.
Proof.
  unfold Qmin4, Qmax4.
  pose proof (Q.le_min_l (Qmin (Qmin a b) c) d).
  pose proof (Q.le_min_l (Qmin a b) c).
  pose proof (Q.le_min_l a b).
  pose proof (Q.le_max_l (Qmax (Qmax a b) c) d).
  pose proof (Q.le_max_l (Qmax a b) c).
  pose proof (Q.le_max_l a b).
  lra.
Qed.

(** What [_getInclinationRange] returns on a non-empty beam array. *)
Lemma getInclinationRange_some (beams : list Beam.t) (inclination : Inclination) :
  beams <> [] ->
  let n := length beams in
  let s := clampIndex n (startBeam inclination) in
  let e := clampIndex n (resolvedEnd n inclination) in
  exists r,
    _getInclinationRange terraceCenter beams inclination = Some r /\
    startIndex r = Z.min s e /\
    endIndex r = Z.max s e /\
    invert r = (e <? s)%Z /\
    minZ r <= maxZ r /\
    (endBeam inclination = (-1)%Z ->
     isMinOf (minZ r) (endpointDepths terraceCenter (Z.to_nat s) beams) /\
     isMaxOf (maxZ r) (endpointDepths terraceCenter (Z.to_nat s) beams)) /\
    (endBeam inclination <> (-1)%Z ->
     exists sb eb,
       beams !! Z.to_nat s = Some sb /\ beams !! Z.to_nat e = Some eb /\
       minZ r = Qmin4 (Beam.y1 sb - Point.y terraceCenter)
                      (Beam.y2 sb - Point.y terraceCenter)
                      (Beam.y1 eb - Point.y terraceCenter)
                      (Beam.y2 eb - Point.y terraceCenter) /\
       maxZ r = Qmax4 (Beam.y1 sb - Point.y terraceCenter)
                      (Beam.y2 sb - Point.y terraceCenter)
                      (Beam.y1 eb - Point.y terraceCenter)
                      (Beam.y2 eb - Point.y terraceCenter)).
Proof.
  intros Hne. unfold _getInclinationRange.
  destruct beams as [|b0 bs]; [congruence|]. clear Hne.
  remember (b0 :: bs) as beams eqn:Hbeams.
  assert (Hn : (0 < length beams)%nat) by (subst beams; simpl; lia).
  clear Hbeams b0 bs. unfold clampIndex, resolvedEnd.
  set (n := length beams) in *.
  set (s := Z.max 0 (Z.min (startBeam inclination) (Z.of_nat n - 1))).
  set (e := Z.max 0 (Z.min (if (endBeam inclination =? -1)%Z
                            then (Z.of_nat n - 1)%Z
                            else endBeam inclination) (Z.of_nat n - 1))).
  assert (Hs : (0 <= s < Z.of_nat n)%Z) by (subst s; lia).
  assert (He : (0 <= e < Z.of_nat n)%Z) by (subst e; lia).
  destruct (Z.eqb_spec (endBeam inclination) (-1)) as [Hend|Hend].
  - assert (Ee : e = (Z.of_nat n - 1)%Z) by (subst e; lia).
    clearbody e s. subst e.
    replace (Z.min s (Z.of_nat n - 1)) with s by lia.
    replace (Z.max s (Z.of_nat n - 1)) with (Z.of_nat n - 1)%Z by lia.
    unfold depthExtremes. rewrite depthExtremes_seq by lia.
    replace (Z.to_nat (Z.of_nat n - 1 - s + 1)) with (n - Z.to_nat s)%nat by lia.
    rewrite take_ge by (rewrite length_drop; lia).
    assert (Hd : drop (Z.to_nat s) beams <> []).
    { intros Hd. apply (f_equal length) in Hd. rewrite length_drop in Hd.
      simpl in Hd. lia. }
    destruct (fold_min_spec _ (depthsOf_nonempty _ Hd)) as (lo & Hlo & Hmin).
    destruct (fold_max_spec _ (depthsOf_nonempty _ Hd)) as (hi & Hhi & Hmax).
    cbn [fst snd]. rewrite Hlo, Hhi.
    eexists. split; [reflexivity|]. cbn [startIndex endIndex invert minZ maxZ].
    assert (Hle : lo <= hi).
    { destruct Hmin as [Hin _]. destruct Hmax as [_ Hge]. exact (Hge _ Hin). }
    repeat (split; [reflexivity|]). split; [exact Hle|].
    split; [intros _; split; assumption|intros Hc; congruence].
  - clearbody e s.
    destruct (lookup_lt_is_Some_2 beams (Z.to_nat s)) as [sb Hsb]; [lia|].
    destruct (lookup_lt_is_Some_2 beams (Z.to_nat e)) as [eb Heb]; [lia|].
    rewrite Hsb, Heb.
    eexists. split; [reflexivity|]. cbn [startIndex endIndex invert minZ maxZ].
    repeat (split; [reflexivity|]). split; [apply Qmin4_le_Qmax4|]. split; [intros Hc; congruence|].
    intros _. exists sb, eb. auto.
Qed.

End InclinationRange.

Lemma getInclinationRange_nil (c : Point.t) (inclination : Inclination) :
  _getInclinationRange c [] inclination = None.
Proof. reflexivity. Qed.

(** C7 (as the code has it).  With [endBeam = -1] on a non-empty beam array
    the resolved depth range is the least and the greatest depth of the
    endpoints of the beams from the clamped start index to the last one; it
    spans every beam when [startBeam] is not positive. *)
Theorem range_to_last_beam_spans_from_start (c : Point.t) (beams : list Beam.t)
  (inclination : Inclination) :
  beams <> [] ->
  endBeam inclination = (-1)%Z ->
  exists r,
    _getInclinationRange c beams inclination = Some r /\
    isMinOf (minZ r)
      (endpointDepths c
         (Z.to_nat (clampIndex (length beams) (startBeam inclination))) beams) /\
    isMaxOf (maxZ r)
      (endpointDepths c
         (Z.to_nat (clampIndex (length beams) (startBeam inclination))) beams) /\
    ((startBeam inclination <= 0)%Z ->
     isMinOf (minZ r) (endpointDepths c 0 beams) /\
     isMaxOf (maxZ r) (endpointDepths c 0 beams)).
Proof.
  intros Hne Hend.
  destruct (getInclinationRange_some c beams inclination Hne)
    as (r & Hr & _ & _ & _ & _ & Hlast & _).
  destruct (Hlast Hend) as [Hmin Hmax].
  exists r. split; [exact Hr|]. split; [exact Hmin|]. split; [exact Hmax|].
  intros Hstart.
  replace (Z.to_nat (clampIndex (length beams) (startBeam inclination)))
    with 0%nat in Hmin, Hmax by (unfold clampIndex; lia).
  split; assumption.
Qed.

Lemma range_to_last_beam_spans_from_start_witness :
  exists r,
    _getInclinationRange (Point.mk 0 0) twoBeams (mkInclination 20 1 (-1))
    = Some r /\
    isMinOf (minZ r)
      (endpointDepths (Point.mk 0 0)
         (Z.to_nat (clampIndex (length twoBeams) 1)) twoBeams) /\
    isMaxOf (maxZ r)
      (endpointDepths (Point.mk 0 0)
         (Z.to_nat (clampIndex (length twoBeams) 1)) twoBeams) /\
    ((1 <= 0)%Z ->
     isMinOf (minZ r) (endpointDepths (Point.mk 0 0) 0 twoBeams) /\
     isMaxOf (maxZ r) (endpointDepths (Point.mk 0 0) 0 twoBeams)).
Proof.
  apply (range_to_last_beam_spans_from_start (Point.mk 0 0) twoBeams
           (mkInclination 20 1 (-1))).
  - discriminate.
  - reflexivity.
Defined.

(** C7 as stated fails: two beams at depths 0 and 100, a request from beam 1
    to the last beam.  The resolved range starts at depth 100, which is not
    the least endpoint depth of all beams. *)
Lemma range_to_last_beam_ignores_earlier_beams :
  endBeam (mkInclination 20 1 (-1)) = (-1)%Z /\
  exists r,
    _getInclinationRange (Point.mk 0 0) twoBeams (mkInclination 20 1 (-1))
    = Some r /\
    ~ isMinOf (minZ r) (endpointDepths (Point.mk 0 0) 0 twoBeams).
Proof.
  split; [reflexivity|]. eexists. split; [vm_compute; reflexivity|].
  intros [_ Hle]. cbn [minZ] in Hle.
  specialize (Hle (0 - 0)).
  assert (Hin : 0 - 0 ∈ endpointDepths (Point.mk 0 0) 0 twoBeams).
  { apply list_elem_of_In. simpl. auto. }
  specialize (Hle Hin). apply Qle_bool_iff in Hle. vm_compute in Hle.
  discriminate.
Qed.

(** C10.  [_getInclinationRange] returns [null] exactly on the empty beam
    array.  On a non-empty one both request indices are clamped into the
    array before any beam is read, every index the function reads holds a
    beam, a range is returned, and [invert] says that the clamped end lies
    strictly below the clamped start, which [endBeam = -1] excludes. *)
Theorem inclination_range_total (c : Point.t) (beams : list Beam.t)
  (inclination : Inclination) :
  (_getInclinationRange c beams inclination = None <-> beams = []) /\
  (beams <> [] ->
   let n := length beams in
   let s := clampIndex n (startBeam inclination) in
   let e := clampIndex n (resolvedEnd n inclination) in
   (0 <= s < Z.of_nat n)%Z /\ (0 <= e < Z.of_nat n)%Z /\
   (forall i, (Z.min s e <= Z.of_nat i <= Z.max s e)%Z -> is_Some (beams !! i)) /\
   exists r,
     _getInclinationRange c beams inclination = Some r /\
     startIndex r = Z.min s e /\
     endIndex r = Z.max s e /\
     (invert r = true <-> (e < s)%Z) /\
     (endBeam inclination = (-1)%Z -> invert r = false)).
Proof.
  assert (Hsome : beams <> [] ->
                  exists r, _getInclinationRange c beams inclination = Some r).
  { intros Hne. destruct (getInclinationRange_some c beams inclination Hne)
      as (r & Hr & _). eauto. }
  split.
  - split.
    + intros Hnone. destruct beams as [|b bs]; [reflexivity|].
      destruct Hsome as [r Hr]; [discriminate|]. congruence.
    + intros ->. reflexivity.
  - intros Hne n s e.
    assert (Hn : (0 < n)%nat)
      by (subst n; destruct beams; simpl; [congruence|lia]).
    assert (Hs : (0 <= s < Z.of_nat n)%Z) by (subst s; unfold clampIndex; lia).
    assert (He : (0 <= e < Z.of_nat n)%Z) by (subst e; unfold clampIndex; lia).
    split; [exact Hs|]. split; [exact He|]. split.
    { intros i Hi. apply lookup_lt_is_Some_2. fold n. lia. }
    destruct (getInclinationRange_some c beams inclination Hne)
      as (r & Hr & Hsi & Hei & Hinv & _).
    exists r. split; [exact Hr|]. split; [exact Hsi|]. split; [exact Hei|].
    fold n s e in Hinv. rewrite Hinv. split; [apply Z.ltb_lt|].
    intros Hend. apply Z.ltb_ge.
    subst e s. unfold clampIndex, resolvedEnd. rewrite Hend. simpl. lia.
Qed.

Lemma inclination_range_total_witness :
  exists r,
    _getInclinationRange (Point.mk 0 0) twoBeams (mkInclination 20 5 (-7))
    = Some r /\
    startIndex r = 0%Z /\ endIndex r = 1%Z /\
    (invert r = true <-> (0 < 1)%Z).
Proof.
  destruct (proj2 (inclination_range_total (Point.mk 0 0) twoBeams
                     (mkInclination 20 5 (-7))))
    as (_ & _ & _ & r & Hr & Hs & He & Hi & _); [discriminate|].
  exists r. split; [exact Hr|]. split; [exact Hs|]. split; [exact He|].
  exact Hi.
Defined.

(** ** The height field *)

Lemma clamp01_flip (t : Q) : clamp01 (1 - t) == 1 - clamp01 t.
Proof.
  unfold clamp01.
  destruct (Q.min_spec 1 (1 - t)) as [[H1 E1]|[H1 E1]];
    destruct (Q.min_spec 1 t) as [[H2 E2]|[H2 E2]];
    destruct (Q.max_spec 0 (Qmin 1 (1 - t))) as [[H3 E3]|[H3 E3]];
    destruct (Q.max_spec 0 (Qmin 1 t)) as [[H4 E4]|[H4 E4]];
    rewrite ?E3, ?E4, ?E1, ?E2; rewrite ?E1, ?E2 in *; lra.
Qed.

(** A non-empty beam array has structure bounds. *)
Lemma getStructureBounds_some (c : Point.t) (beams : list Beam.t) :
  beams <> [] -> is_Some (_getStructureBounds c beams []).
Proof.
  intros Hne. unfold _getStructureBounds.
  destruct beams as [|b0 bs]; [congruence|].
  remember (b0 :: bs) as beams eqn:Hb. clear Hb b0 bs.
  rewrite fold_applyPoint2. cbn [e_minX e_maxX e_minY e_maxY noExtremes].
  assert (Hx : flat_map (fun v => [Beam.x1 v - Point.x c; Beam.x2 v - Point.x c])
                 beams <> []) by (destruct beams; simpl; congruence).
  assert (Hy : flat_map (fun v => [Beam.y1 v - Point.y c; Beam.y2 v - Point.y c])
                 beams <> []) by (destruct beams; simpl; congruence).
  destruct (fold_min_spec _ Hx) as (a & -> & _).
  destruct (fold_max_spec _ Hx) as (b & -> & _).
  destruct (fold_min_spec _ Hy) as (a' & -> & _).
  destruct (fold_max_spec _ Hy) as (b' & -> & _).
  simpl. eauto.
Qed.

(** C2.  The closure [getHeightAtZ] of [_buildBeams] and the one of
    [_buildPanels] return the same height for every beam array, base height,
    inclination request, depth and tilt.  With a resolved range this height
    is the one the specification words: the base height for a degenerate
    span or a zero tilt, otherwise base + span * tan(tilt) * t with
    t = (depth - minDepth) / span clamped to [0, 1] and flipped to 1 - t for
    an inverted ramp.  Without beams it is the base height. *)
Theorem getHeightAtZ_shared (tan : Q -> Q) (c : Point.t) (beams : list Beam.t)
  (height : Q) (inclination : Inclination) (z rad : Q) :
  getHeightAtZ_buildBeams tan c beams height inclination z rad =
  getHeightAtZ_buildPanels tan c beams height inclination z rad /\
  match _getInclinationRange c beams inclination with
  | Some r =>
      getHeightAtZ_buildPanels tan c beams height inclination z rad ==
      heightAt_spec tan height (minZ r) (maxZ r - minZ r) (invert r) z rad
  | None =>
      getHeightAtZ_buildPanels tan c beams height inclination z rad = height
  end.
Proof.
  split; [reflexivity|].
  unfold getHeightAtZ_buildPanels, heightAt_spec.
  destruct (_getInclinationRange c beams inclination) as [r|] eqn:Hr.
  - assert (Hne : beams <> []) by (intros ->; discriminate).
    destruct (getStructureBounds_some c beams Hne) as [sb ->]. simpl negb.
    rewrite orb_false_l.
    destruct (Qeq_bool (maxZ r - minZ r) 0 || Qeq_bool rad 0); [reflexivity|].
    destruct (invert r).
    + rewrite (clamp01_flip ((z - minZ r) / (maxZ r - minZ r))).
      unfold clamp01. reflexivity.
    + unfold clamp01. reflexivity.
  - destruct beams as [|b bs].
    + reflexivity.
    + destruct (getInclinationRange_some c (b :: bs) inclination)
        as (r & Hr' & _); [discriminate|]. congruence.
Qed.

(** ** Per-beam inclinations *)

Lemma absle_spec (x t : Q) :
  Qle_bool (Qabs x) t = true <-> Qabs x <= t.
Proof. apply Qle_bool_iff. Qed.

Lemma Qabs_le_iff (x t : Q) : Qabs x <= t <-> - t <= x /\ x <= t.
Proof. apply Qabs_Qle_condition. Qed.

Lemma isMinOf_unique (a b : Q) (l : list Q) :
  isMinOf a l -> isMinOf b l -> a == b.
Proof.
  intros [Ha Hla] [Hb Hlb]. specialize (Hla _ Hb). specialize (Hlb _ Ha). lra.
Qed.

Lemma isMaxOf_unique (a b : Q) (l : list Q) :
  isMaxOf a l -> isMaxOf b l -> a == b.
Proof.
  intros [Ha Hla] [Hb Hlb]. specialize (Hla _ Hb). specialize (Hlb _ Ha). lra.
Qed.

Lemma absDiffLe_spec (q p t : Q) :
  JSNum.absDiffLe q (JSNum.Fin p) t = true <-> Qabs (q - p) <= t.
Proof. apply Qle_bool_iff. Qed.

Lemma Qabs_diff_compat (q p p' t : Q) :
  p == p' -> Qabs (q - p) <= t -> Qabs (q - p') <= t.
Proof.
  intros Hp H. apply Qabs_le_iff in H. apply Qabs_le_iff. lra.
Qed.

(** The extremes of the endpoints of a non-empty beam array. *)
Lemma beamExtremes_spec (beams : list Beam.t) :
  beams <> [] ->
  exists loX hiX loY hiY,
    beamExtremes beams =
      mkExtremes (JSNum.Fin loX) (JSNum.Fin hiX)
                 (JSNum.Fin loY) (JSNum.Fin hiY) /\
    isMinOf loX (flat_map (fun b => [Beam.x1 b; Beam.x2 b]) beams) /\
    isMaxOf hiX (flat_map (fun b => [Beam.x1 b; Beam.x2 b]) beams) /\
    isMinOf loY (flat_map (fun b => [Beam.y1 b; Beam.y2 b]) beams) /\
    isMaxOf hiY (flat_map (fun b => [Beam.y1 b; Beam.y2 b]) beams).
Proof.
  intros Hne. unfold beamExtremes. rewrite fold_applyPoint2.
  cbn [e_minX e_maxX e_minY e_maxY noExtremes].
  assert (Hx : flat_map (fun b => [Beam.x1 b; Beam.x2 b]) beams <> [])
    by (destruct beams; simpl; congruence).
  assert (Hy : flat_map (fun b => [Beam.y1 b; Beam.y2 b]) beams <> [])
    by (destruct beams; simpl; congruence).
  destruct (fold_min_spec _ Hx) as (a & -> & Ha).
  destruct (fold_max_spec _ Hx) as (b & -> & Hb).
  destruct (fold_min_spec _ Hy) as (a' & -> & Ha').
  destruct (fold_max_spec _ Hy) as (b' & -> & Hb').
  exists a, b, a', b'. auto.
Qed.

(** [isFrameBeam] decides [framePerimeter]. *)
Lemma isFrameBeam_spec (beams : list Beam.t) (b : Beam.t) :
  beams <> [] ->
  isFrameBeam (beamExtremes beams) b 1 = true <-> framePerimeter beams b.
Proof.
  intros Hne.
  destruct (beamExtremes_spec beams Hne)
    as (loX & hiX & loY & hiY & -> & HloX & HhiX & HloY & HhiY).
  unfold isFrameBeam, framePerimeter. cbn [e_minX e_maxX e_minY e_maxY].
  rewrite !orb_true_iff, !andb_true_iff, !orb_true_iff,
    !absDiffLe_spec, !absle_spec.
  split.
  - intros H. exists loX, hiX, loY, hiY. auto 10.
  - intros (loX' & hiX' & loY' & hiY' & H1 & H2 & H3 & H4 & H).
    pose proof (isMinOf_unique _ _ _ H1 HloX) as E1.
    pose proof (isMaxOf_unique _ _ _ H2 HhiX) as E2.
    pose proof (isMinOf_unique _ _ _ H3 HloY) as E3.
    pose proof (isMaxOf_unique _ _ _ H4 HhiY) as E4.
    destruct H as [[Hh [Hm|Hm]]|[Hv [Hm|Hm]]];
      [left; split; [exact Hh|left] | left; split; [exact Hh|right]
      |right; split; [exact Hv|left] | right; split; [exact Hv|right]];
      eapply Qabs_diff_compat; eauto.
Qed.

Lemma pointsEqual_spec (ax ay bx by_ : Q) :
  pointsEqual (Point.mk ax ay) (Point.mk bx by_) 1 = true <->
  near ax ay bx by_.
Proof.
  unfold pointsEqual, near. cbn [Point.x Point.y].
  rewrite andb_true_iff, !absle_spec. reflexivity.
Qed.

Lemma beamsConnected_spec (b1 b2 : Beam.t) :
  beamsConnected b1 b2 = true <-> sharesEndpoint b1 b2.
Proof.
  unfold beamsConnected, sharesEndpoint.
  rewrite !orb_true_iff, !pointsEqual_spec. tauto.
Qed.

Lemma inDepthRange_spec (c : Point.t) (r : RangeInfo) (b : Beam.t) :
  minZ r <= maxZ r ->
  inDepthRange c r b = true <-> centerInRange c r b.
Proof.
  intros Hle. unfold inDepthRange, centerInRange, Qgeb.
  rewrite andb_true_iff, !Qle_bool_iff.
  pose proof (Q.min_l _ _ Hle) as Emin.
  pose proof (Q.max_r _ _ Hle) as Emax.
  split; intros [H1 H2]; split; lra.
Qed.

Lemma rangeIndices_spec (c : Point.t) (beams : list Beam.t) (r : RangeInfo)
  (j : nat) :
  In j (rangeIndices c beams (Some r)) <->
  exists bj, beams !! j = Some bj /\ inDepthRange c r bj = true.
Proof.
  unfold rangeIndices. rewrite filter_In, in_seq. split.
  - intros [_ H]. destruct (beams !! j) as [bj|]; [eauto|discriminate].
  - intros (bj & Hbj & Hin). rewrite Hbj. split; [|exact Hin].
    apply lookup_lt_Some in Hbj. lia.
Qed.

(** C6.  In the resolved profile, a beam whose centre-line depth is outside
    the resolved range (tolerance one half) gets the full requested angle if
    it shares an endpoint (tolerance one per coordinate) with a beam in range
    and is a frame beam, one quarter of the requested angle if it shares such
    an endpoint and is not a frame beam, and no tilt if it shares an endpoint
    with no beam in range. *)
Theorem connected_beam_inclination (PI : Q) (c : Point.t) (beams : list Beam.t)
  (inclination : Inclination) (r : RangeInfo) (i : nat) (b : Beam.t) :
  beams !! i = Some b ->
  _getInclinationRange c beams inclination = Some r ->
  ~ centerInRange c r b ->
  let base := degrees inclination * PI / 180 in
  let result := _calculateBeamInclinations PI c beams inclination in
  ((exists j bj, beams !! j = Some bj /\ centerInRange c r bj /\
                 sharesEndpoint b bj) ->
   (framePerimeter beams b -> result !! i = Some (mkBeamIncl base true)) /\
   (~ framePerimeter beams b ->
    result !! i = Some (mkBeamIncl (base * 0.25) false))) /\
  ((forall j bj, beams !! j = Some bj -> centerInRange c r bj ->
                 ~ sharesEndpoint b bj) ->
   result !! i = Some (mkBeamIncl 0 false)).
Proof.
  intros Hb Hr Hout base result.
  assert (Hne : beams <> []) by (intros ->; discriminate).
  destruct (getInclinationRange_some c beams inclination Hne)
    as (r' & Hr' & _ & _ & _ & Hle & _).
  assert (r' = r) by congruence. subst r'. clear Hr'.
  assert (Hres : result !! i =
                 Some (beamInclinationAt beams
                         (rangeIndices c beams (Some r))
                         (beamExtremes beams) base i b)).
  { subst result. unfold _calculateBeamInclinations.
    destruct beams as [|b0 bs]; [congruence|].
    rewrite Hr, list_lookup_imap, Hb. reflexivity. }
  rewrite Hres. unfold beamInclinationAt.
  assert (Hnot : existsb (Nat.eqb i) (rangeIndices c beams (Some r)) = false).
  { apply not_true_is_false. intros H. apply existsb_exists in H.
    destruct H as (j & Hj & Heq). apply Nat.eqb_eq in Heq. subst j.
    apply rangeIndices_spec in Hj. destruct Hj as (bj & Hbj & Hin).
    apply Hout. apply (inDepthRange_spec c r b Hle). congruence. }
  rewrite Hnot. split.
  - intros (j & bj & Hbj & Hin & Hshare).
    destruct (List.find _ _) as [k|] eqn:Hfind.
    + split; intros Hframe.
      * apply (isFrameBeam_spec beams b Hne) in Hframe. rewrite Hframe.
        reflexivity.
      * destruct (isFrameBeam (beamExtremes beams) b 1) eqn:Hf; [|reflexivity].
        exfalso. apply Hframe. apply (isFrameBeam_spec beams b Hne). exact Hf.
    + exfalso. eapply find_none in Hfind.
      2:{ apply (rangeIndices_spec c beams r j). exists bj. split; [exact Hbj|].
          apply (inDepthRange_spec c r bj Hle). exact Hin. }
      simpl in Hfind. rewrite Hbj in Hfind.
      apply andb_false_iff in Hfind as [Hfind|Hfind].
      * apply Nat.ltb_ge in Hfind. apply lookup_lt_Some in Hbj. lia.
      * apply beamsConnected_spec in Hshare. congruence.
  - intros Hnone.
    destruct (List.find _ _) as [k|] eqn:Hfind; [|reflexivity].
    exfalso. apply find_some in Hfind as [Hk Hconn].
    apply rangeIndices_spec in Hk. destruct Hk as (bk & Hbk & Hin).
    rewrite Hbk in Hconn. apply andb_true_iff in Hconn as [_ Hconn].
    apply (Hnone k bk Hbk).
    + apply (inDepthRange_spec c r bk Hle). exact Hin.
    + apply beamsConnected_spec. exact Hconn.
Qed.

Lemma connected_beam_inclination_witness :
  _calculateBeamInclinations (22 # 7) (Point.mk 0 0) threeBeams
    (mkInclination 20 2 2) !! 1%nat
  = Some (mkBeamIncl (20 * (22 # 7) / 180) true).
Proof.
  destruct (connected_beam_inclination (22 # 7) (Point.mk 0 0) threeBeams
              (mkInclination 20 2 2) (mkRangeInfo 2 2 100 100 false) 1
              (Beam.mk 100 0 100 100 "IPN-80" false))
    as [Hconnected _].
  - reflexivity.
  - vm_compute. reflexivity.
  - intros [H _]. apply Qle_bool_iff in H. vm_compute in H. discriminate.
  - destruct Hconnected as [Hframe _].
    + exists 2%nat, (Beam.mk 0 100 100 100 "IPN-80" false).
      split; [reflexivity|]. split.
      * split; apply Qle_bool_iff; vm_compute; reflexivity.
      * right. right. right.
        split; apply Qle_bool_iff; vm_compute; reflexivity.
    + apply Hframe. apply isFrameBeam_spec; [discriminate|].
      vm_compute. reflexivity.
Defined.

(** ** Panel support *)

(** The running maximum of [_buildPanels], started at [a]. *)
Lemma steepest_spec (g : nat -> Q) (hits : list nat) (a : Q) :
  let r :=
    fold_left (fun inclRad i => if Qltb inclRad (g i) then g i else inclRad)
      hits a in
  a <= r /\ (forall i, In i hits -> g i <= r) /\
  (r = a \/ exists i, In i hits /\ r = g i).
Proof.
  revert a. induction hits as [|h hits IH]; intros a; simpl.
  - split; [lra|]. split; [tauto|auto].
  - destruct (Qltb a (g h)) eqn:Hlt.
    + apply Qltb_lt in Hlt. destruct (IH (g h)) as (H1 & H2 & H3).
      split; [lra|]. split.
      * intros i [<-|Hi]; auto.
      * right. destruct H3 as [->|(i & Hi & ->)]; eauto.
    + apply Qltb_ge in Hlt. destruct (IH a) as (H1 & H2 & H3).
      split; [exact H1|]. split.
      * intros i [<-|Hi]; [lra|auto].
      * destruct H3 as [->|(i & Hi & ->)]; eauto.
Qed.

Lemma intersecting_spec (p : Panel.t) (beams : list Beam.t) (i : nat) :
  In i (intersecting p beams) <->
  exists b, beams !! i = Some b /\ crosses p b = true.
Proof.
  unfold intersecting, crosses. rewrite filter_In, in_seq. split.
  - intros [_ H]. destruct (beams !! i) as [b|]; [eauto|discriminate].
  - intros (b & Hb & Hc). rewrite Hb. split; [|exact Hc].
    apply lookup_lt_Some in Hb. lia.
Qed.

Section Nearest.

Variable sqrt : Q -> Q.
Variables centerX centerY : Q.

Lemma nearestLoop_spec (bs pre : list Beam.t) (m : JSNum.num) (k : Z) :
  loopState sqrt centerX centerY pre m k -> pre ++ bs <> [] ->
  exists k', nearestLoop sqrt centerX centerY bs (Z.of_nat (length pre)) m k
             = Z.of_nat k' /\
             firstNearest sqrt centerX centerY (pre ++ bs) k'.
Proof.
  revert pre m k. induction bs as [|b rest IH]; intros pre m k Hst Hne.
  - rewrite app_nil_r in *. simpl.
    destruct Hst as [[-> _]|(k0 & bk & -> & _ & _ & Hfn)]; [congruence|].
    exists k0. auto.
  - cbn [nearestLoop]. fold (segmentDistance sqrt centerX centerY b).
    replace (Z.of_nat (length pre) + 1)%Z
      with (Z.of_nat (length (pre ++ [b])))
      by (rewrite length_app; simpl; lia).
    rewrite (cons_middle b pre rest), app_assoc in *.
    assert (Hlast : (pre ++ [b]) !! length pre = Some b).
    { rewrite lookup_app_r by lia. rewrite Nat.sub_diag. reflexivity. }
    assert (Hcases : forall j bj, (pre ++ [b]) !! j = Some bj ->
                       pre !! j = Some bj \/ (j = length pre /\ bj = b)).
    { intros j bj Hj. destruct (Nat.lt_ge_cases j (length pre)) as [Hlt|Hge].
      - left. rewrite lookup_app_l in Hj by lia. exact Hj.
      - right. rewrite lookup_app_r in Hj by lia.
        destruct (j - length pre)%nat as [|d] eqn:Hd; simpl in Hj.
        + split; [lia|congruence].
        + destruct d; discriminate. }
    destruct (JSNum.ltb_l (segmentDistance sqrt centerX centerY b) m) eqn:Hlt; apply IH; try exact Hne.
    + right. exists (length pre), b.
      split; [reflexivity|]. split; [exact Hlast|]. split; [reflexivity|].
      exists b. split; [exact Hlast|].
      destruct Hst as [[-> ->]|(k0 & bk & -> & Hbk & -> & bk' & Hbk' & Hle & Hstrict)].
      * split.
        -- intros j bj Hj. apply Hcases in Hj as [Hj|[_ ->]];
             [destruct j; discriminate|lra].
        -- intros j bj Hjlt Hj. simpl in Hjlt. lia.
      * assert (bk' = bk) by congruence. subst bk'.
        simpl in Hlt. apply negb_true_iff, Qle_bool_false in Hlt.
        split.
        -- intros j bj Hj. apply Hcases in Hj as [Hj|[_ ->]]; [|lra].
           specialize (Hle j bj Hj). lra.
        -- intros j bj Hjlt Hj. apply Hcases in Hj as [Hj|[-> _]]; [|lia].
           specialize (Hle j bj Hj). lra.
    + destruct Hst as [[-> ->]|(k0 & bk & -> & Hbk & -> & bk' & Hbk' & Hle & Hstrict)];
        [discriminate|].
      assert (bk' = bk) by congruence. subst bk'.
      simpl in Hlt. apply negb_false_iff, Qle_bool_iff in Hlt.
      right. exists k0, bk. split; [reflexivity|].
      assert (Hk0 : (pre ++ [b]) !! k0 = Some bk).
      { rewrite lookup_app_l; [exact Hbk|]. apply lookup_lt_Some in Hbk. lia. }
      split; [exact Hk0|]. split; [reflexivity|].
      exists bk. split; [exact Hk0|]. split.
      * intros j bj Hj. apply Hcases in Hj as [Hj|[_ ->]]; [eauto|exact Hlt].
      * intros j bj Hjlt Hj. apply Hcases in Hj as [Hj|[-> _]]; [eauto|].
        apply lookup_lt_Some in Hbk. lia.
Qed.

End Nearest.

(** [_getNearestBeamIndex] returns the first beam at least distance from the
    centre of the panel. *)
Lemma getNearestBeamIndex_spec (sqrt : Q -> Q) (p : Panel.t)
  (beams : list Beam.t) :
  beams <> [] ->
  exists k, _getNearestBeamIndex sqrt p beams = Z.of_nat k /\
            firstNearest sqrt (Panel.x p + Panel.w p / 2)
              (Panel.y p + Panel.h p / 2) beams k.
Proof.
  intros Hne. unfold _getNearestBeamIndex.
  destruct beams as [|b0 bs]; [congruence|].
  apply (nearestLoop_spec sqrt _ _ (b0 :: bs) [] JSNum.PosInf (-1)).
  - left. auto.
  - discriminate.
Qed.

(** The segment test of [_buildPanels], as inequalities. *)
Lemma epsilon_eq : epsilon == 1 # 1000000.
Proof. reflexivity. Qed.

Lemma orientation_cases (a b c : Point.t) :
  (orientation a b c = 0%nat /\ Qabs (turn a b c) <= 1 # 1000000) \/
  (orientation a b c = 1%nat /\ (1 # 1000000) < turn a b c) \/
  (orientation a b c = 2%nat /\ turn a b c < - (1 # 1000000)).
Proof.
  unfold orientation. fold (turn a b c).
  destruct (Qle_bool (Qabs (turn a b c)) epsilon) eqn:Habs.
  - left. split; [reflexivity|]. apply Qle_bool_iff in Habs.
    rewrite epsilon_eq in Habs. exact Habs.
  - apply Qle_bool_false in Habs. rewrite epsilon_eq in Habs.
    destruct (Qltb 0 (turn a b c)) eqn:Hpos.
    + right. left. split; [reflexivity|]. apply Qltb_lt in Hpos.
      rewrite Qabs_pos in Habs by lra. exact Habs.
    + right. right. split; [reflexivity|]. apply Qltb_ge in Hpos.
      rewrite Qabs_neg in Habs by exact Hpos. lra.
Qed.

Lemma orientation_zero (a b c : Point.t) :
  (orientation a b c =? 0)%nat = true <-> Qabs (turn a b c) <= 1 # 1000000.
Proof.
  destruct (orientation_cases a b c) as [[-> H]|[[-> H]|[-> H]]];
    cbn [Nat.eqb].
  - tauto.
  - split; [discriminate|]. intros Ha. apply Qabs_le_iff in Ha. lra.
  - split; [discriminate|]. intros Ha. apply Qabs_le_iff in Ha. lra.
Qed.

Lemma sameSide_spec (a b c d : Point.t) :
  (orientation a b c =? orientation a b d)%nat = true <-> sameSide a b c d.
Proof.
  unfold sameSide.
  destruct (orientation_cases a b c) as [[-> Hc]|[[-> Hc]|[-> Hc]]];
    destruct (orientation_cases a b d) as [[-> Hd]|[[-> Hd]|[-> Hd]]];
    cbn [Nat.eqb]; (split; [try discriminate; auto|]);
    try (intros _; reflexivity);
    rewrite !Qabs_le_iff in *; intros [H|[H|H]]; lra.
Qed.

Lemma onSegment_spec (a b c : Point.t) :
  onSegment a b c = true <->
  Qmin (Point.x a) (Point.x b) - (1 # 1000000) <= Point.x c /\
  Point.x c <= Qmax (Point.x a) (Point.x b) + (1 # 1000000) /\
  Qmin (Point.y a) (Point.y b) - (1 # 1000000) <= Point.y c /\
  Point.y c <= Qmax (Point.y a) (Point.y b) + (1 # 1000000).
Proof.
  unfold onSegment. rewrite !andb_true_iff, !Qle_bool_iff.
  rewrite !epsilon_eq. tauto.
Qed.

Lemma segmentsIntersect_spec (p1 p2 p3 p4 : Point.t) :
  segmentsIntersect p1 p2 p3 p4 = true <-> segmentsMeet p1 p2 p3 p4.
Proof.
  unfold segmentsMeet, liesOn.
  rewrite <- !onSegment_spec, <- !orientation_zero, <- !sameSide_spec.
  unfold segmentsIntersect.
  destruct (orientation p1 p2 p3 =? orientation p1 p2 p4)%nat;
    destruct (orientation p3 p4 p1 =? orientation p3 p4 p2)%nat;
    destruct (orientation p1 p2 p3 =? 0)%nat;
    destruct (orientation p1 p2 p4 =? 0)%nat;
    destruct (orientation p3 p4 p1 =? 0)%nat;
    destruct (orientation p3 p4 p2 =? 0)%nat;
    destruct (onSegment p1 p2 p3); destruct (onSegment p1 p2 p4);
    destruct (onSegment p3 p4 p1); destruct (onSegment p3 p4 p2);
    simpl; intuition congruence.
Qed.

Lemma supportHeight_realH (p : Panel.t) (H : Q) :
  supportHeight p H <-> H = realH p.
Proof.
  unfold supportHeight, realH. destruct (Panel.realHeight p) as [r|]; [|tauto].
  destruct (Qeq_bool r 0) eqn:E.
  - apply Qeq_bool_iff in E. tauto.
  - apply Qeq_bool_neq in E. tauto.
Qed.

Lemma pointInRect_spec (p : Panel.t) (px py : Q) :
  pointInRect px py (panelRect p) = true <-> inSupportRect p (realH p) px py.
Proof.
  unfold pointInRect, panelRect, inSupportRect, Qgeb. simpl.
  rewrite !andb_true_iff, !Qle_bool_iff. tauto.
Qed.

(** The test that puts a beam among the intersecting ones is the support
    of the panel by the beam. *)
Lemma crosses_spec (p : Panel.t) (b : Beam.t) :
  crosses p b = true <-> supports p b.
Proof.
  unfold supports. split.
  - intros Hc. exists (realH p). split; [apply supportHeight_realH; reflexivity|].
    cbv zeta. rewrite <- !segmentsIntersect_spec, <- !pointInRect_spec.
    unfold crosses, segmentIntersectsRect in Hc.
    unfold panelRect in Hc at 3 4 5 6 7 8 9 10 11 12 13 14 15 16 17 18.
    cbn [Bounds.minX Bounds.maxX Bounds.minY Bounds.maxY] in Hc.
    destruct (pointInRect (Beam.x1 b) (Beam.y1 b) (panelRect p)); [auto|].
    destruct (pointInRect (Beam.x2 b) (Beam.y2 b) (panelRect p)); [auto|].
    cbn [orb] in Hc. rewrite !orb_true_iff in Hc. tauto.
  - intros (H & HH & Hs). apply supportHeight_realH in HH. subst H.
    cbv zeta in Hs. rewrite <- !segmentsIntersect_spec, <- !pointInRect_spec in Hs.
    unfold crosses, segmentIntersectsRect.
    unfold panelRect at 3 4 5 6 7 8 9 10 11 12 13 14 15 16 17 18.
    cbn [Bounds.minX Bounds.maxX Bounds.minY Bounds.maxY].
    destruct (pointInRect (Beam.x1 b) (Beam.y1 b) (panelRect p)); [reflexivity|].
    destruct (pointInRect (Beam.x2 b) (Beam.y2 b) (panelRect p)); [reflexivity|].
    cbn [orb]. rewrite !orb_true_iff.
    destruct Hs as [H|[H|H]]; [discriminate|discriminate|tauto].
Qed.

Lemma crosses_false (p : Panel.t) (b : Beam.t) :
  crosses p b = false <-> ~ supports p b.
Proof.
  rewrite <- crosses_spec. destruct (crosses p b); split; congruence.
Qed.

(** C5 (as the code has it).  A beam supports a panel when it passes the
    segment test against the rectangle from the corner of the panel, as
    wide as the panel and as high as its real height ([realHeight], and the
    height in plan [h] only when that is missing or 0): an end in the
    rectangle, or the beam meeting one of the four edges, with the tolerance
    of a millionth.  When some beam supports the panel, the effective tilt
    is the greatest of 0 and the tilts of the supporting beams: it is the
    maximum tilt over them as soon as one of them has a non-negative tilt.
    When no beam supports it, the effective tilt is the tilt of the first
    beam at least distance from the centre of the panel in plan,
    [(x + w / 2, y + h / 2)].  No average is taken. *)
Theorem panel_tilt_from_supporting_beams (sqrt : Q -> Q) (p : Panel.t)
  (beams : list Beam.t) (beamInclinations : list BeamIncl) :
  let tilt := panelInclRad sqrt p beams beamInclinations in
  let tiltOf := beamRadAt beamInclinations in
  ((exists i b, beams !! i = Some b /\ supports p b) ->
   0 <= tilt /\
   (forall i b, beams !! i = Some b -> supports p b -> tiltOf i <= tilt) /\
   (tilt = 0 \/
    exists i b, beams !! i = Some b /\ supports p b /\ tilt = tiltOf i) /\
   ((exists i b, beams !! i = Some b /\ supports p b /\ 0 <= tiltOf i) ->
    exists i b, beams !! i = Some b /\ supports p b /\ tilt == tiltOf i)) /\
  ((forall i b, beams !! i = Some b -> ~ supports p b) ->
   beams <> [] ->
   exists k bk,
     beams !! k = Some bk /\ tilt = tiltOf k /\
     (forall j bj, beams !! j = Some bj ->
                   centerDistance sqrt p bk <= centerDistance sqrt p bj) /\
     (forall j bj, (j < k)%nat -> beams !! j = Some bj ->
                   centerDistance sqrt p bk < centerDistance sqrt p bj)).
Proof.
  intros tilt tiltOf.
  pose proof (steepest_spec tiltOf (intersecting p beams) 0) as Hfold.
  cbv zeta in Hfold. destruct Hfold as (Hge & Hmax & Hatt).
  assert (Hhit : forall i, In i (intersecting p beams) <->
                           exists b, beams !! i = Some b /\ supports p b).
  { intros i. rewrite intersecting_spec. split; intros (b & Hb & Hc);
      exists b; (split; [exact Hb|]); apply crosses_spec; exact Hc. }
  split.
  - intros (i0 & b0 & Hb0 & Hc0).
    assert (Hin0 : In i0 (intersecting p beams)) by (apply Hhit; eauto).
    assert (Htilt : tilt =
                    fold_left
                      (fun inclRad i =>
                         if Qltb inclRad (tiltOf i) then tiltOf i else inclRad)
                      (intersecting p beams) 0).
    { subst tilt. unfold panelInclRad.
      destruct (intersecting p beams); [destruct Hin0|reflexivity]. }
    rewrite Htilt. split; [exact Hge|]. split; [|split].
    + intros i b Hb Hc. apply Hmax. apply Hhit. eauto.
    + destruct Hatt as [->|(i & Hi & ->)]; [left; reflexivity|].
      right. apply Hhit in Hi as (b & Hb & Hc). eauto.
    + intros (i & b & Hb & Hc & Hpos).
      destruct Hatt as [E|(j & Hj & E)].
      * exists i, b. split; [exact Hb|]. split; [exact Hc|].
        assert (Hle : tiltOf i <= 0).
        { rewrite <- E. apply Hmax. apply Hhit. eauto. }
        rewrite E. lra.
      * apply Hhit in Hj as (bj & Hbj & Hcj).
        exists j, bj. rewrite E. split; [exact Hbj|]. split; [exact Hcj|].
        reflexivity.
  - intros Hnone Hne.
    assert (Hhits : intersecting p beams = []).
    { destruct (intersecting p beams) as [|i l] eqn:E; [reflexivity|].
      destruct (proj1 (Hhit i) (or_introl eq_refl)) as (b & Hb & Hc).
      destruct (Hnone i b Hb Hc). }
    destruct (getNearestBeamIndex_spec sqrt p beams Hne)
      as (k & Hk & bk & Hbk & Hle & Hlt).
    exists k, bk. split; [exact Hbk|]. split; [|split; assumption].
    subst tilt tiltOf. unfold panelInclRad, beamRadAt.
    rewrite Hhits, Hk. simpl fold_left.
    replace (negb (Z.of_nat k =? -1)%Z) with true
      by (symmetry; apply negb_true_iff, Z.eqb_neq; lia).
    rewrite Nat2Z.id. destruct (beamInclinations !! k); reflexivity.
Qed.

(** A panel tilted by 60 degrees, 114 high in plan and 228 long: the beam at
    depth 150 passes beyond its rectangle in plan and supports it all the
    same, so that the panel takes the tilt of that beam. *)
Lemma panel_tilt_from_supporting_beams_witness :
  Panel.y tiltedPanel + Panel.h tiltedPanel < 150 /\
  0 <= panelInclRad (fun x => x) tiltedPanel beamBeyondPlan
         [mkBeamIncl (1 # 3) true] /\
  beamRadAt [mkBeamIncl (1 # 3) true] 0 <=
  panelInclRad (fun x => x) tiltedPanel beamBeyondPlan
    [mkBeamIncl (1 # 3) true].
Proof.
  split.
  - reflexivity.
  - destruct (proj1 (panel_tilt_from_supporting_beams (fun x => x) tiltedPanel
                       beamBeyondPlan [mkBeamIncl (1 # 3) true]))
      as (Hpos & Hmax & _).
    + exists 0%nat, (Beam.mk (-10) 150 200 150 "IPN-80" false).
      split; [reflexivity|]. apply crosses_spec. vm_compute. reflexivity.
    + split; [exact Hpos|].
      apply (Hmax 0%nat (Beam.mk (-10) 150 200 150 "IPN-80" false));
        [reflexivity|]. apply crosses_spec. vm_compute. reflexivity.
Defined.

(** C5 as stated fails for a negative requested angle: the one beam under
    the panel is tilted by -20 degrees (with 22/7 for pi), every crossing
    beam has a negative tilt, and the effective tilt of the panel is 0,
    which is the tilt of no crossing beam. *)
Lemma panel_tilt_not_the_maximum_when_negative :
  (exists i b, crossingBeam !! i = Some b /\ crosses scenarioPanel b = true) /\
  panelTilt (fun x => x) (22 # 7) (Point.mk 0 0) scenarioPanel crossingBeam
    (mkInclination (-20) 0 (-1)) = 0 /\
  ~ (exists i b,
       crossingBeam !! i = Some b /\ crosses scenarioPanel b = true /\
       panelTilt (fun x => x) (22 # 7) (Point.mk 0 0) scenarioPanel
         crossingBeam (mkInclination (-20) 0 (-1)) ==
       beamRadAt
         (_calculateBeamInclinations (22 # 7) (Point.mk 0 0) crossingBeam
            (mkInclination (-20) 0 (-1))) i).
Proof.
  split; [|split].
  - exists 0%nat, (Beam.mk (-10) 100 200 100 "IPN-80" false).
    split; [reflexivity|]. vm_compute. reflexivity.
  - vm_compute. reflexivity.
  - intros (i & b & Hb & _ & E). destruct i as [|i].
    + apply Qeq_bool_iff in E. vm_compute in E. discriminate.
    + destruct i; discriminate.
Qed.

(** ** Automatic structure *)

Lemma structureTerrace_bounds (width height : option Q) (e : Editor) :
  is_Some (getTerraceBounds (structureTerrace width height e)).
Proof.
  unfold structureTerrace.
  destruct (getTerraceBounds (terraceVertices e)) as [tb|] eqn:Htb.
  - rewrite Htb. eauto.
  - unfold setRectangularTerrace. rewrite recomputeBounds_terrace.
    cbn [terraceVertices set_terrace].
    match goal with
    | |- is_Some (getTerraceBounds ?vs) =>
        destruct (getTerraceBounds_some vs) as (tb & -> & _);
        [simpl; lia|eauto]
    end.
Qed.

Lemma structureDepth_ge_50 (tb : TerraceBounds.t) : 50 <= structureDepth tb.
Proof. unfold structureDepth. apply Q.le_max_l. Qed.

(** With [numBeams * spacing] below the depth every position lies strictly
    inside, so the loop never breaks. *)
Lemma position_inside (numBeams : Z) (spacing depth : Q) (i : nat) :
  50 <= depth ->
  inject_Z numBeams * spacing < depth ->
  (i < Z.to_nat numBeams)%nat ->
  (inject_Z (Z.of_nat i) + 1) * spacing < depth.
Proof.
  intros Hd Hlt Hi.
  assert (Hle : inject_Z (Z.of_nat i) + 1 <= inject_Z numBeams).
  { change 1 with (inject_Z 1). rewrite <- inject_Z_plus.
    rewrite <- Zle_Qle. lia. }
  assert (H0 : 0 <= inject_Z (Z.of_nat i) + 1).
  { change 1 with (inject_Z 1). rewrite <- inject_Z_plus.
    change 0 with (inject_Z 0). rewrite <- Zle_Qle. lia. }
  destruct (Qlt_le_dec spacing 0) as [Hneg|Hpos].
  - assert (Hm : 0 <= (inject_Z (Z.of_nat i) + 1) * - spacing)
      by (apply Qmult_le_0_compat; lra).
    assert (E : (inject_Z (Z.of_nat i) + 1) * - spacing ==
                - ((inject_Z (Z.of_nat i) + 1) * spacing)) by ring.
    lra.
  - assert (Hm : 0 <= (inject_Z numBeams - (inject_Z (Z.of_nat i) + 1)) * spacing)
      by (apply Qmult_le_0_compat; lra).
    assert (E : (inject_Z numBeams - (inject_Z (Z.of_nat i) + 1)) * spacing ==
                inject_Z numBeams * spacing -
                (inject_Z (Z.of_nat i) + 1) * spacing) by ring.
    lra.
Qed.

Lemma positionsInside_all (numBeams : Z) (spacing depth : Q) :
  50 <= depth ->
  inject_Z numBeams * spacing < depth ->
  positionsInside numBeams spacing depth = seq 0 (Z.to_nat numBeams).
Proof.
  intros Hd Hlt. unfold positionsInside.
  apply forallb_filter_id. apply forallb_forall. intros i Hi.
  apply in_seq in Hi. apply Qltb_lt.
  apply (position_inside numBeams); [exact Hd|exact Hlt|lia].
Qed.

Lemma positionsInside_length (numBeams : Z) (spacing depth : Q) :
  (length (positionsInside numBeams spacing depth) <= Z.to_nat numBeams)%nat.
Proof.
  unfold positionsInside.
  etransitivity; [apply filter_length_le|]. rewrite length_seq. lia.
Qed.

(** Without a [break] the loop emits one beam per position. *)
Lemma parallelBeams_all (profile : string) (spacing startX startY endX endY : Q)
  (idxs : list nat) :
  (forall i, In i idxs ->
     startY + (inject_Z (Z.of_nat i) + 1) * spacing < endY) ->
  parallelBeams profile spacing startX startY endX endY idxs =
  List.map
    (fun i =>
       pushBeam profile startX
         (startY + (inject_Z (Z.of_nat i) + 1) * spacing) endX
         (startY + (inject_Z (Z.of_nat i) + 1) * spacing))
    idxs.
Proof.
  induction idxs as [|i idxs IH]; intros Hall; [reflexivity|].
  cbn [parallelBeams List.map]. unfold Qgeb.
  assert (Hi : startY + (inject_Z (Z.of_nat i) + 1) * spacing < endY)
    by (apply Hall; left; reflexivity).
  apply Qle_bool_false in Hi. rewrite Hi. f_equal. apply IH.
  intros j Hj. apply Hall. right. exact Hj.
Qed.

Lemma getTerraceBounds_sides (vs : list Point.t) (tb : TerraceBounds.t) :
  getTerraceBounds vs = Some tb ->
  TerraceBounds.width tb = TerraceBounds.maxX tb - TerraceBounds.minX tb /\
  TerraceBounds.height tb = TerraceBounds.maxY tb - TerraceBounds.minY tb.
Proof.
  unfold getTerraceBounds. destruct (length vs <? 3)%nat; [discriminate|].
  destruct (vertexExtremes vs) as [[| a |] [| b |] [| a' |] [| b' |]];
    try discriminate.
  intros [= <-]. simpl. auto.
Qed.

(** On whole centimetres every number [createAutoStructure] forms is a
    whole number of halves of moderate size: the sides of the structure, the
    required length, the corners, and the depth of every parallel beam.  A
    double holds each of them exactly, so the arithmetic of the source does
    not round on such inputs. *)
Lemma structureSide_whole (a b : Q) :
  wholeCm a -> wholeCm b ->
  exists w : Z, Qmax 50 (b - a - 10) == inject_Z w /\ (Z.abs w <= 2000010)%Z.
Proof.
  intros (za & Ha & Hza) (zb & Hb & Hzb).
  destruct (Q.max_spec 50 (b - a - 10)) as [[_ E]|[_ E]].
  - exists (zb - za - 10)%Z. split; [|lia].
    rewrite E, Ha, Hb. unfold Zminus.
    rewrite !inject_Z_plus, !inject_Z_opp. change (inject_Z 10) with 10. ring.
  - exists 50%Z. split; [|lia]. rewrite E. reflexivity.
Qed.

Lemma exactHalf_whole (q : Q) (z : Z) :
  q == inject_Z z -> (Z.abs z <= 2 ^ 51)%Z -> exactHalf q.
Proof.
  intros E Hz. exists (2 * z)%Z. split; [|lia].
  rewrite E, inject_Z_mult. change (inject_Z 2) with 2. field.
Qed.

Lemma createAutoStructure_exact (numBeams : Z) (spacing : Q)
  (vs : list Point.t) (tb : TerraceBounds.t) (i : nat) :
  (0 < numBeams <= 1000000)%Z -> wholeCm spacing ->
  getTerraceBounds vs = Some tb -> wholeBox tb ->
  (i < Z.to_nat numBeams)%nat ->
  exactHalf (structureWidth tb) /\ exactHalf (structureDepth tb) /\
  exactHalf (inject_Z numBeams * spacing) /\
  exactHalf (structureStartX tb) /\ exactHalf (structureStartY tb) /\
  exactHalf (structureStartX tb + structureWidth tb) /\
  exactHalf (structureStartY tb + structureDepth tb) /\
  exactHalf ((inject_Z (Z.of_nat i) + 1) * spacing) /\
  exactHalf (structureStartY tb + (inject_Z (Z.of_nat i) + 1) * spacing).
Proof.
  intros HN (zs & Hs & Hzs) Htb (Hax & Hbx & Hay & Hby) Hi.
  destruct (getTerraceBounds_sides vs tb Htb) as [Ew Eh].
  destruct (structureSide_whole _ _ Hax Hbx) as (w & Hw & Hzw).
  destruct (structureSide_whole _ _ Hay Hby) as (d & Hd & Hzd).
  rewrite <- Ew in Hw. rewrite <- Eh in Hd.
  fold (structureWidth tb) in Hw. fold (structureDepth tb) in Hd.
  destruct Hax as (ax & Hax & Hzax), Hbx as (bx & Hbx & Hzbx),
           Hay as (ay & Hay & Hzay), Hby as (by_ & Hby & Hzby).
  assert (Hpos : (0 <= Z.of_nat i + 1 <= 1000000)%Z) by lia.
  assert (Hprod : (Z.abs ((Z.of_nat i + 1) * zs) <= 1000000 * 1000000)%Z).
  { rewrite Z.abs_mul. rewrite (Z.abs_eq (Z.of_nat i + 1)) by lia.
    apply Z.mul_le_mono_nonneg; lia. }
  assert (HprodN : (Z.abs (numBeams * zs) <= 1000000 * 1000000)%Z).
  { rewrite Z.abs_mul. rewrite (Z.abs_eq numBeams) by lia.
    apply Z.mul_le_mono_nonneg; lia. }
  assert (E2 : inject_Z 2 == 2) by reflexivity.
  assert (E1 : inject_Z 1 == 1) by reflexivity.
  repeat split.
  - apply (exactHalf_whole _ w); [exact Hw|lia].
  - apply (exactHalf_whole _ d); [exact Hd|lia].
  - apply (exactHalf_whole _ (numBeams * zs)); [|lia].
    rewrite Hs, inject_Z_mult. reflexivity.
  - exists (ax + bx - w)%Z. split; [|lia].
    unfold structureStartX. rewrite Hw, Hax, Hbx. unfold Zminus.
    rewrite !inject_Z_plus, !inject_Z_opp. field.
  - exists (ay + by_ - d)%Z. split; [|lia].
    unfold structureStartY. rewrite Hd, Hay, Hby. unfold Zminus.
    rewrite !inject_Z_plus, !inject_Z_opp. field.
  - exists (ax + bx + w)%Z. split; [|lia].
    unfold structureStartX. rewrite Hw, Hax, Hbx.
    rewrite !inject_Z_plus. field.
  - exists (ay + by_ + d)%Z. split; [|lia].
    unfold structureStartY. rewrite Hd, Hay, Hby.
    rewrite !inject_Z_plus. field.
  - apply (exactHalf_whole _ ((Z.of_nat i + 1) * zs)); [|lia].
    rewrite Hs, inject_Z_mult, inject_Z_plus, E1. reflexivity.
  - exists (ay + by_ - d + 2 * ((Z.of_nat i + 1) * zs))%Z. split; [|lia].
    unfold structureStartY. rewrite Hd, Hay, Hby, Hs. unfold Zminus.
    rewrite !inject_Z_plus, !inject_Z_mult, !inject_Z_opp, !inject_Z_plus,
      E1, E2. field.
Qed.

Lemma set_bounds_same (e : Editor) (cb pb : Bounds.t) :
  constructionBounds e = Some cb -> panelBounds e = Some pb ->
  set_bounds (Some cb) (Some pb) e = e.
Proof. destruct e; simpl; intros -> ->; reflexivity. Qed.

(** C3 (as the code has it).  [createAutoStructure] with a positive beam
    count works on the existing terrace or, without one, on the default
    rectangle it creates first; [D] is the depth of the structure, the
    greater of 50 and the terrace height less 10.  For a spacing and a
    terrace box in whole centimetres, where the arithmetic of the source is
    exact: if [numBeams * spacing]
    reaches [D] it reports failure with the required and the available
    length and leaves beams, obstacles, panels and texts as they were (the
    whole editor, when the terrace and both bounds existed).  Otherwise it
    succeeds and replaces the beams by the four perimeter beams followed by
    one parallel beam at depth start + (i + 1) * spacing for every position
    [i] with (i + 1) * spacing below [D], all marked auto-generated: four
    plus at most [numBeams] beams. *)
Theorem createAutoStructure_spec (numBeams : Z) (spacing : Q) (profile : string)
  (width height : option Q) (e : Editor) :
  (0 < numBeams <= 1000000)%Z -> wholeCm spacing ->
  exists tb,
    getTerraceBounds (structureTerrace width height e) = Some tb /\
    (wholeBox tb ->
    let D := structureDepth tb in
    let e' := fst (createAutoStructure numBeams spacing profile width height e) in
    let res := snd (createAutoStructure numBeams spacing profile width height e) in
    terraceVertices e' = structureTerrace width height e /\
    obstacles e' = obstacles e /\ panels e' = panels e /\ texts e' = texts e /\
    (D <= inject_Z numBeams * spacing ->
     success res = false /\
     message res = MsgTooLong numBeams spacing (inject_Z numBeams * spacing) D /\
     structure res = Some (mkStructure (structureWidth tb) D) /\
     beams e' = beams e /\
     (is_Some (getTerraceBounds (terraceVertices e)) ->
      is_Some (constructionBounds e) -> is_Some (panelBounds e) -> e' = e)) /\
    (inject_Z numBeams * spacing < D ->
     success res = true /\
     beams e' =
       perimeterBeams profile tb ++
       List.map (parallelBeam profile tb spacing)
         (positionsInside numBeams spacing D) /\
     (length (positionsInside numBeams spacing D) <= Z.to_nat numBeams)%nat /\
     length (beams e') =
       (4 + length (positionsInside numBeams spacing D))%nat /\
     Forall (fun b => Beam.isAutoStructure b = true) (beams e'))).
Proof.
  intros [HN _] _.
  destruct (structureTerrace_bounds width height e) as [tb Htb].
  exists tb. split; [exact Htb|]. intros _. cbv zeta.
  unfold createAutoStructure.
  set (e1 := match getTerraceBounds (terraceVertices e) with
             | Some _ => e
             | None => setRectangularTerrace (orDefault width 585)
                         (orDefault height 388) e
             end).
  assert (He1 : terraceVertices e1 = structureTerrace width height e).
  { subst e1. unfold structureTerrace.
    destruct (getTerraceBounds (terraceVertices e)); reflexivity. }
  assert (Hsame : obstacles e1 = obstacles e /\ panels e1 = panels e /\
                  texts e1 = texts e /\ beams e1 = beams e).
  { subst e1. destruct (getTerraceBounds (terraceVertices e)); [auto|].
    unfold setRectangularTerrace, recomputeBounds.
    destruct (getTerraceBounds _); auto. }
  destruct Hsame as (Ho & Hp & Ht & Hb).
  rewrite He1, Htb.
  change (Qmax 50 (TerraceBounds.height tb - 2 * 5)) with (structureDepth tb).
  change (Qmax 50 (TerraceBounds.width tb - 2 * 5)) with (structureWidth tb).
  replace (0 <? numBeams)%Z with true by (symmetry; apply Z.ltb_lt; exact HN).
  cbn [andb]. unfold Qgeb.
  destruct (Qle_bool (structureDepth tb) (inject_Z numBeams * spacing)) eqn:Hcmp.
  - apply Qle_bool_iff in Hcmp. cbn [fst snd].
    cbn [terraceVertices obstacles panels texts beams set_bounds
         success message structure].
    split; [exact He1|]. split; [exact Ho|]. split; [exact Hp|].
    split; [exact Ht|]. split; [|intros Hlt; lra].
    intros _. repeat (split; [reflexivity|]). split; [exact Hb|].
    intros [tb0 Htb0] [cb Hcb] [pb Hpb].
    subst e1. rewrite Htb0 in *. rewrite Hcb, Hpb.
    apply set_bounds_same; assumption.
  - apply Qle_bool_false in Hcmp. cbn [fst snd].
    cbn [terraceVertices obstacles panels texts beams set_bounds set_beams
         success message structure].
    split; [exact He1|]. split; [exact Ho|]. split; [exact Hp|].
    split; [exact Ht|]. split; [intros Hge; lra|].
    intros _. split; [reflexivity|].
    pose proof (structureDepth_ge_50 tb) as H50.
    rewrite positionsInside_all by assumption.
    rewrite parallelBeams_all.
    2:{ intros i Hi. apply in_seq in Hi.
        pose proof (position_inside numBeams spacing (structureDepth tb) i
                      H50 Hcmp ltac:(lia)) as Hpos.
        lra. }
    split; [reflexivity|].
    split; [rewrite length_seq; lia|]. split.
    + rewrite length_app, !length_map. reflexivity.
    + apply Forall_app. split.
      * repeat constructor.
      * apply Forall_forall. intros b Hin. apply list_elem_of_In in Hin.
        apply in_map_iff in Hin as (i & <- & _). reflexivity.
Qed.

(** The scenario of the specification: five beams at spacing 100 on the
    default terrace of 585 by 388 need 500 of the 378 available. *)
Lemma createAutoStructure_spec_witness :
  exists tb,
    getTerraceBounds (structureTerrace None None (newEditor None)) = Some tb /\
    structureDepth tb == 378 /\
    message (snd (createAutoStructure 5 100 "IPN-80" None None (newEditor None)))
    = MsgTooLong 5 100 (inject_Z 5 * 100) (structureDepth tb) /\
    beams (fst (createAutoStructure 5 100 "IPN-80" None None (newEditor None)))
    = beams (newEditor None).
Proof.
  destruct (createAutoStructure_spec 5 100 "IPN-80" None None (newEditor None))
    as (tb & Htb & Hspec); [lia|exists 100%Z; split; [reflexivity|lia]|].
  exists tb. split; [exact Htb|].
  vm_compute in Htb. injection Htb as <-.
  split; [vm_compute; reflexivity|].
  destruct Hspec as (_ & _ & _ & _ & Hfail & _).
  - repeat split;
      [exists 0%Z|exists 585%Z|exists 0%Z|exists 388%Z];
      (split; [reflexivity|lia]).
  - destruct Hfail as (_ & Hmsg & _ & Hbeams & _).
    + apply Qle_bool_iff. vm_compute. reflexivity.
    + split; [exact Hmsg|exact Hbeams].
Defined.

(** C3 as stated fails: in a fresh editor the rejected call (500 needed,
    378 available) has created the default terrace and its bounds. *)
Lemma createAutoStructure_failure_creates_terrace :
  success (snd (createAutoStructure 5 100 "IPN-80" None None (newEditor None)))
  = false /\
  terraceVertices (newEditor None) = [] /\
  terraceVertices
    (fst (createAutoStructure 5 100 "IPN-80" None None (newEditor None)))
  = [Point.mk 0 0; Point.mk 585 0; Point.mk 585 388; Point.mk 0 388] /\
  constructionBounds (newEditor None) = None /\
  constructionBounds
    (fst (createAutoStructure 5 100 "IPN-80" None None (newEditor None)))
  = Some (Bounds.mk (-10) 595 (-10) 398) /\
  fst (createAutoStructure 5 100 "IPN-80" None None (newEditor None))
  <> newEditor None.
Proof.
  repeat split; try (vm_compute; reflexivity).
  intros H. apply (f_equal terraceVertices) in H. vm_compute in H.
  discriminate.
Qed.

(** ** Reachable states and the round trip *)

Lemma terraceNested_ext (e e' : Editor) :
  terraceVertices e' = terraceVertices e ->
  constructionBounds e' = constructionBounds e ->
  panelBounds e' = panelBounds e ->
  terraceNested e -> terraceNested e'.
Proof.
  intros Ht Hc Hp. unfold terraceNested. rewrite Ht, Hc, Hp. auto.
Qed.

Lemma terraceNested_frame (e e' : Editor) :
  sameFrame e e' -> terraceNested e -> terraceNested e'.
Proof.
  intros (_ & Ht & Hc & Hp). apply terraceNested_ext; assumption.
Qed.

Lemma stateInvariant_frame (e e' : Editor) :
  sameFrame e e' -> stateInvariant e -> stateInvariant e'.
Proof.
  intros Hf (Hs & Hc & Hn). pose proof Hf as (Es & Et & Ec & Ep).
  unfold stateInvariant, boundsCoupled, boundsNested. rewrite Es, Et, Ec, Ep.
  split; [exact Hs|]. split; [exact Hc|].
  intros Hlen. apply (terraceNested_frame e e' Hf). auto.
Qed.

Lemma recomputeBounds_fields (e : Editor) :
  scale (recomputeBounds e) = scale e /\
  terraceVertices (recomputeBounds e) = terraceVertices e /\
  obstacles (recomputeBounds e) = obstacles e /\
  beams (recomputeBounds e) = beams e /\
  panels (recomputeBounds e) = panels e /\
  texts (recomputeBounds e) = texts e /\
  panelConfig (recomputeBounds e) = panelConfig e /\
  textConfig (recomputeBounds e) = textConfig e.
Proof.
  unfold recomputeBounds. destruct (getTerraceBounds _); simpl; auto 10.
Qed.

(** Recomputing keeps the invariant whatever the terrace is, provided the
    bounds were set together before. *)
Lemma recomputeBounds_invariant (e : Editor) :
  ~ scale e == 0 ->
  (constructionBounds e = None <-> panelBounds e = None) ->
  stateInvariant (recomputeBounds e).
Proof.
  intros Hs Hc. split; [|split].
  - destruct (recomputeBounds_fields e) as (-> & _). exact Hs.
  - unfold boundsCoupled, recomputeBounds.
    destruct (getTerraceBounds _); simpl; [|exact Hc].
    split; discriminate.
  - intros Hlen. rewrite recomputeBounds_terrace in Hlen.
    apply recomputeBounds_nested. exact Hlen.
Qed.

Lemma moveOne_frame (dx dy : Q) (e e1 : Editor) (sel : Sel.t) :
  moveOne dx dy e sel = Some e1 -> sameFrame e e1.
Proof.
  unfold moveOne, sameFrame.
  destruct (Sel.type sel);
    (destruct (_ !! Sel.index sel); [|discriminate]); intros [= <-];
    simpl; auto.
Qed.

Lemma moveAll_frame (dx dy : Q) (sels : list Sel.t) (e e' : Editor) :
  moveAll dx dy sels e = Some e' -> sameFrame e e'.
Proof.
  revert e. induction sels as [|sel rest IH]; intros e; simpl.
  - intros [= <-]. unfold sameFrame. auto.
  - destruct (moveOne dx dy e sel) as [e1|] eqn:H1; [|discriminate].
    intros H. apply moveOne_frame in H1. apply IH in H.
    unfold sameFrame in *. intuition congruence.
Qed.

Lemma moveSelected_frame (dx dy : Q) (e e' : Editor) :
  _moveSelected dx dy e = Some e' -> sameFrame e e'.
Proof.
  assert (Hrefl : sameFrame e e) by (unfold sameFrame; auto).
  unfold _moveSelected. destruct (selectedElements e) as [|s0 rest].
  - intros [= <-]. exact Hrefl.
  - destruct (constructionBounds e).
    + destruct (every _ _) as [[|]|]; [|intros [= <-]; exact Hrefl|discriminate].
      apply moveAll_frame.
    + apply moveAll_frame.
Qed.

Lemma createAutoStructure_invariant (numBeams : Z) (spacing : Q)
  (profile : string) (width height : option Q) (e : Editor) :
  stateInvariant e ->
  stateInvariant
    (fst (createAutoStructure numBeams spacing profile width height e)).
Proof.
  intros Hinv. unfold createAutoStructure.
  set (e1 := match getTerraceBounds (terraceVertices e) with
             | Some _ => e
             | None => setRectangularTerrace (orDefault width 585)
                         (orDefault height 388) e
             end).
  assert (Hinv1 : stateInvariant e1).
  { subst e1. destruct (getTerraceBounds (terraceVertices e)); [exact Hinv|].
    destruct Hinv as (Hs & Hc & _).
    unfold setRectangularTerrace. apply recomputeBounds_invariant; simpl; auto. }
  destruct (getTerraceBounds (terraceVertices e1)) as [tb|] eqn:Htb;
    [|exact Hinv1].
  destruct Hinv1 as (Hs & Hc & Hn).
  destruct (Hn (getTerraceBounds_length _ _ Htb))
    as (tb' & cb & pb & Htb' & Hcb & Hpb & Hrest).
  rewrite Hcb, Hpb. rewrite (set_bounds_same e1 cb pb Hcb Hpb).
  assert (Hinv1 : stateInvariant e1).
  { split; [exact Hs|]. split; [exact Hc|exact Hn]. }
  destruct ((0 <? numBeams)%Z && _); [exact Hinv1|].
  cbn [fst]. apply (stateInvariant_frame e1); [|exact Hinv1].
  unfold sameFrame. simpl. auto.
Qed.

(** The scale of the editor after an import: the scale of the record when
    it has one that is not 0. *)
Lemma importData_scale (d : ExportData) (e : Editor) :
  ~ scale e == 0 -> ~ scale (importData (Some d) e) == 0.
Proof.
  intros Hs. unfold importData.
  match goal with
  | |- context [if ?c then recomputeBounds ?x else _] =>
      assert (Hx : ~ scale x == 0)
  end.
  { cbn [scale]. destruct (d_scale d) as [s|]; [|exact Hs].
    destruct (Qeq_bool s 0) eqn:E; [exact Hs|].
    apply Qeq_bool_neq. exact E. }
  match goal with
  | |- context [if ?c then recomputeBounds ?x else _] =>
      destruct c; [destruct (recomputeBounds_fields x) as (-> & _)|];
      exact Hx
  end.
Qed.



(** Importing a record with nested bounds gives a state that satisfies the
    invariant. *)
Lemma importData_invariant (d : ExportData) (e : Editor) :
  nestedRecord d -> ~ scale e == 0 ->
  stateInvariant (importData (Some d) e).
Proof.
  intros [Hc Hn] Hs. split; [apply importData_scale; exact Hs|].
  unfold importData.
  match goal with
  | |- context [if _ then recomputeBounds ?x else _] => set (e1 := x)
  end.
  assert (Hrec : boundsCoupled (recomputeBounds e1) /\
                 boundsNested (recomputeBounds e1)).
  { split.
    - unfold boundsCoupled, recomputeBounds.
      destruct (getTerraceBounds _); simpl; [split; discriminate|exact Hc].
    - intros Hlen. rewrite recomputeBounds_terrace in Hlen.
      apply recomputeBounds_nested. exact Hlen. }
  match goal with
  | |- context [if ?c then recomputeBounds _ else _] =>
      destruct c eqn:Hcond; [exact Hrec|]
  end.
  split; [exact Hc|].
  intros Hlen. subst e1.
  cbn [constructionBounds panelBounds terraceVertices] in Hcond, Hlen.
  apply andb_false_iff in Hcond as [Hcond|Hcond].
  2:{ apply Nat.leb_gt in Hcond. lia. }
  apply orb_false_iff in Hcond as [H1 H2].
  apply negb_false_iff, bool_decide_eq_true in H1, H2.
  destruct H1 as [cb Hcb], H2 as [pb Hpb].
  destruct (getTerraceBounds_some (default [] (d_terraceVertices d)) Hlen)
    as (tb & Htb & Hin).
  destruct (Hn tb cb pb Htb Hcb Hpb) as [Hw1 Hw2].
  destruct Hin as (HminX & HmaxX & HminY & HmaxY & _).
  exists tb, cb, pb. cbn [terraceVertices constructionBounds panelBounds].
  split; [exact Htb|]. split; [exact Hcb|]. split; [exact Hpb|].
  split; [|split; assumption].
  intros v Hv. unfold pointInside; simpl.
  pose proof (elem_of_map_inv Point.x _ _ Hv) as Hx.
  pose proof (elem_of_map_inv Point.y _ _ Hv) as Hy.
  destruct HminX as [_ HminX], HmaxX as [_ HmaxX],
           HminY as [_ HminY], HmaxY as [_ HmaxY].
  auto.
Qed.

(** The record exported from a state that satisfies the invariant has
    nested bounds. *)
Lemma exportData_nested (src : Editor) :
  stateInvariant src -> nestedRecord (exportData src).
Proof.
  intros (_ & Hc & Hn). split; [exact Hc|].
  unfold exportData. cbn. intros tb cb pb Htb Hcb Hpb.
  destruct (Hn (getTerraceBounds_length _ _ Htb))
    as (tb' & cb' & pb' & Htb' & Hcb' & Hpb' & _ & Hw1 & Hw2).
  assert (tb' = tb) by congruence. assert (cb' = cb) by congruence.
  assert (pb' = pb) by congruence. subst. auto.
Qed.


(** Every state reached without importing a record whose bounds are not
    nested satisfies the invariant. *)
Lemma reachable_invariant (e : Editor) :
  reachableWith nestedRecord e -> stateInvariant e.
Proof.
  induction 1 as
    [optScale | e _ IH | w h e _ IH | e _ IH
    | numBeams spacing profile width height e _ IH
    | dx dy e e' _ IH Hmove | vertices obs e _ IH
    | d e Hd _ IH | s e Hs _ IH | e e' _ IH Hframe].
  - split; [|split].
    + unfold newEditor. simpl. destruct optScale as [s|]; [|discriminate].
      destruct (Qeq_bool s 0) eqn:E; [discriminate|].
      apply Qeq_bool_neq. exact E.
    + unfold boundsCoupled. simpl. tauto.
    + unfold boundsNested. simpl. lia.
  - unfold confirmTerrace. destruct (3 <=? length (tempPoints e))%nat; [|exact IH].
    destruct IH as (Hs & Hc & _).
    apply (stateInvariant_frame
             (recomputeBounds (set_terrace (tempPoints e) e))).
    + unfold sameFrame. simpl. auto.
    + apply recomputeBounds_invariant; simpl; assumption.
  - destruct IH as (Hs & Hc & _). unfold setRectangularTerrace.
    apply recomputeBounds_invariant; simpl; assumption.
  - destruct IH as (Hs & _). split; [exact Hs|]. split; [unfold boundsCoupled; simpl; tauto|].
    unfold boundsNested. simpl. lia.
  - apply createAutoStructure_invariant. exact IH.
  - apply (stateInvariant_frame e); [|exact IH].
    apply (moveSelected_frame dx dy). exact Hmove.
  - unfold loadTerrace. destruct vertices as [|v vs]; [exact IH|].
    destruct IH as (Hs & Hc & _).
    apply recomputeBounds_invariant; simpl; assumption.
  - apply importData_invariant; [exact Hd|apply IH].
  - destruct IH as (_ & Hc & Hn). split; [exact Hs|]. split; [exact Hc|].
    intros Hlen. apply (terraceNested_ext e); [reflexivity..|].
    apply Hn. exact Hlen.
  - apply (stateInvariant_frame e); assumption.
Qed.

(** In such a state there are no panel bounds without construction bounds:
    the hypothesis of the theorem on [_moveSelected]. *)
Lemma reachable_bounds_coupled (e : Editor) :
  reachableWith nestedRecord e ->
  constructionBounds e = None -> panelBounds e = None.
Proof.
  intros H. destruct (reachable_invariant e H) as (_ & Hc & _). apply Hc.
Qed.




(** ** Area selection *)

(** Parallel segments, collinear ones included, are never reported. *)
Lemma linesIntersect_parallel (x1 y1 x2 y2 x3 y3 x4 y4 : Q) :
  (x1 - x2) * (y3 - y4) - (y1 - y2) * (x3 - x4) == 0 ->
  _linesIntersect x1 y1 x2 y2 x3 y3 x4 y4 = false.
Proof.
  intros H. unfold _linesIntersect.
  apply Qeq_bool_iff in H. rewrite H. reflexivity.
Qed.

(** C8.  The segment test of the area selection at two collinear,
    overlapping segments: they share the point (5, 0), [_linesIntersect]
    reports no intersection, and the orientation and on-segment test of
    [_buildPanels] reports one.  In the area selection, a beam that lies on
    the top edge of the selection rectangle is not selected. *)
Theorem linesIntersect_misses_collinear_overlap :
  sharePoint 0 0 10 0 5 0 15 0 /\
  _linesIntersect 0 0 10 0 5 0 15 0 = false /\
  segmentsIntersect (Point.mk 0 0) (Point.mk 10 0) (Point.mk 5 0) (Point.mk 15 0)
  = true /\
  sharePoint 2 0 8 0 0 0 10 0 /\
  _lineIntersectsRect 2 0 8 0 (Rect.mk 0 0 10 10) = false /\
  areaSelectBeams (Rect.mk 0 0 10 10) [Beam.mk 2 0 8 0 "IPN-80" false] = [].
Proof.
  split; [|split; [|split; [|split; [|split]]]]; try (vm_compute; reflexivity).
  - exists 5, 0. split.
    + exists (1 # 2). repeat split; try lra; try (vm_compute; reflexivity);
        apply Qle_bool_iff; reflexivity.
    + exists 0. repeat split; try lra; try (vm_compute; reflexivity);
        apply Qle_bool_iff; reflexivity.
  - exists 2, 0. split.
    + exists 0. repeat split; try lra; try (vm_compute; reflexivity);
        apply Qle_bool_iff; reflexivity.
    + exists (1 # 5). repeat split; try lra; try (vm_compute; reflexivity);
        apply Qle_bool_iff; reflexivity.
Qed.

(** ** View: coordinates, grid and zoom *)

Lemma Qfloor_half (k : Z) : Qfloor (inject_Z k + 0.5) = k.
Proof.
  pose proof (Qfloor_le (inject_Z k + 0.5)) as Hle.
  pose proof (Qlt_floor (inject_Z k + 0.5)) as Hlt.
  rewrite inject_Z_plus in Hlt. change (inject_Z 1) with 1 in Hlt.
  assert (H1 : inject_Z (Qfloor (inject_Z k + 0.5)) < inject_Z (k + 1)).
  { rewrite inject_Z_plus. change (inject_Z 1) with 1. lra. }
  assert (H2 : inject_Z k < inject_Z (Qfloor (inject_Z k + 0.5) + 1)).
  { rewrite inject_Z_plus. change (inject_Z 1) with 1. lra. }
  rewrite <- Zlt_Qlt in H1, H2. lia.
Qed.

(** X2.  A wheel event leaves the zoom level between 0.2 and 5, whatever it
    was before, and does not pan.  From a zoom level in that range, rolling
    down (a positive delta) zooms out by at most a tenth and any other event
    zooms in by at most a tenth. *)
Theorem onWheel_zoom (deltaY : Q) (v : View) :
  let v' := _onWheel deltaY v in
  0.2 <= zoomLevel v' /\ zoomLevel v' <= 5 /\
  offsetX v' = offsetX v /\ offsetY v' = offsetY v /\
  (0.2 <= zoomLevel v -> zoomLevel v <= 5 ->
   (0 < deltaY ->
    zoomLevel v * 0.9 <= zoomLevel v' /\ zoomLevel v' <= zoomLevel v) /\
   (deltaY <= 0 ->
    zoomLevel v <= zoomLevel v' /\ zoomLevel v' <= zoomLevel v * 1.1)).
Proof.
  cbv zeta. unfold _onWheel. cbn [zoomLevel offsetX offsetY].
  split; [apply Q.le_max_l|].
  split; [apply Q.max_lub; [lra|apply Q.le_min_l]|].
  split; [reflexivity|]. split; [reflexivity|].
  intros Hlo Hhi. split; intros Hd.
  - apply Qltb_lt in Hd. rewrite Hd.
    destruct (Q.min_spec 5 (zoomLevel v * 0.9)) as [[? Em]|[? Em]];
      destruct (Q.max_spec 0.2 (Qmin 5 (zoomLevel v * 0.9))) as [[? Ex]|[? Ex]];
      split; lra.
  - apply Qltb_ge in Hd. rewrite Hd.
    destruct (Q.min_spec 5 (zoomLevel v * 1.1)) as [[? Em]|[? Em]];
      destruct (Q.max_spec 0.2 (Qmin 5 (zoomLevel v * 1.1))) as [[? Ex]|[? Ex]];
      split; lra.
Qed.

Lemma onWheel_zoom_witness :
  1 <= zoomLevel (_onWheel (-120) (mkView 50 50 1 10 true)) /\
  zoomLevel (_onWheel (-120) (mkView 50 50 1 10 true)) <= 1 * 1.1.
Proof.
  destruct (onWheel_zoom (-120) (mkView 50 50 1 10 true))
    as (_ & _ & _ & _ & Hdir).
  apply Hdir.
  - apply Qle_bool_iff. reflexivity.
  - apply Qle_bool_iff. reflexivity.
  - apply Qle_bool_iff. reflexivity.
Defined.

(** X3.  With snapping on and a positive grid size, [snap] returns a whole
    multiple of the grid size that lies within half a grid step of the value,
    halves going up. *)
Theorem snap_nearest_multiple (v : View) (val : Q) :
  snapEnabled v = true ->
  0 < gridSize v ->
  exists k : Z,
    snap v val = inject_Z k * gridSize v /\
    val - gridSize v / 2 < snap v val /\
    snap v val <= val + gridSize v / 2.
Proof.
  intros Hon Hg. unfold snap, Math_round. rewrite Hon. cbn [negb].
  set (g := gridSize v) in *.
  exists (Qfloor (val / g + 0.5)). split; [reflexivity|].
  pose proof (Qfloor_le (val / g + 0.5)) as Hle.
  pose proof (Qlt_floor (val / g + 0.5)) as Hlt.
  rewrite inject_Z_plus in Hlt. change (inject_Z 1) with 1 in Hlt.
  set (k := inject_Z (Qfloor (val / g + 0.5))) in *.
  assert (Hq : val / g * g == val) by (field; lra).
  assert (H1 : k * g <= (val / g + 0.5) * g)
    by (apply Qmult_le_compat_r; lra).
  assert (H2 : (val / g + 0.5) * g < (k + 1) * g)
    by (apply Qmult_lt_compat_r; lra).
  assert (E1 : (val / g + 0.5) * g == val + g / 2) by (field; lra).
  assert (E2 : (k + 1) * g == k * g + g) by ring.
  split; lra.
Qed.

Lemma snap_nearest_multiple_witness :
  exists k : Z,
    snap (mkView 50 50 1 10 true) 37 = inject_Z k * 10 /\
    37 - 10 / 2 < snap (mkView 50 50 1 10 true) 37 /\
    snap (mkView 50 50 1 10 true) 37 <= 37 + 10 / 2.
Proof.
  apply (snap_nearest_multiple (mkView 50 50 1 10 true) 37).
  - reflexivity.
  - reflexivity.
Defined.

(** X4.  [snap] is idempotent for a non-zero grid size: a snapped value
    snaps to itself. *)
Theorem snap_idempotent (v : View) (val : Q) :
  ~ gridSize v == 0 ->
  snap v (snap v val) = snap v val.
Proof.
  intros Hg. unfold snap, Math_round.
  destruct (snapEnabled v); cbn [negb]; [|reflexivity].
  set (g := gridSize v) in *.
  set (k := Qfloor (val / g + 0.5)).
  assert (E : inject_Z k * g / g + 0.5 == inject_Z k + 0.5) by (field; exact Hg).
  rewrite (Qfloor_comp _ _ E), Qfloor_half. reflexivity.
Qed.

Lemma snap_idempotent_witness :
  snap (mkView 50 50 1 10 true) (snap (mkView 50 50 1 10 true) 37)
  = snap (mkView 50 50 1 10 true) 37.
Proof.
  apply (snap_idempotent (mkView 50 50 1 10 true) 37).
  intros H. apply Qeq_bool_iff in H. vm_compute in H. discriminate.
Defined.

(** ** Rectangles and segments *)

(** The normalisation written out in [_finishAreaSelect] is
    [_normalizeRect]. *)
Lemma normalizeSelectionRect_eq (r : Rect.t) :
  normalizeSelectionRect r = _normalizeRect r.
Proof.
  unfold normalizeSelectionRect, _normalizeRect.
  destruct (Qltb (Rect.w r) 0); cbn [Rect.h];
    destruct (Qltb (Rect.h r) 0); reflexivity.
Qed.



(** X6.  For rectangles of non-negative width and height [_rectsIntersect]
    holds exactly when the two closed rectangles have a point in common;
    touching edges count. *)
Theorem rectsIntersect_common_point (r1 r2 : Rect.t) :
  0 <= Rect.w r1 -> 0 <= Rect.h r1 -> 0 <= Rect.w r2 -> 0 <= Rect.h r2 ->
  _rectsIntersect r1 r2 = true <->
  exists px py, inRect r1 px py /\ inRect r2 px py.
Proof.
  intros Hw1 Hh1 Hw2 Hh2. unfold _rectsIntersect, inRect.
  rewrite negb_true_iff, !orb_false_iff, !Qltb_ge. split.
  - intros (((H1 & H2) & H3) & H4).
    exists (Qmax (Rect.x r1) (Rect.x r2)), (Qmax (Rect.y r1) (Rect.y r2)).
    destruct (Q.max_spec (Rect.x r1) (Rect.x r2)) as [[? ->]|[? ->]];
      destruct (Q.max_spec (Rect.y r1) (Rect.y r2)) as [[? ->]|[? ->]];
      repeat split; lra.
  - intros (px & py & H1 & H2). repeat split; lra.
Qed.

Lemma rectsIntersect_common_point_witness :
  _rectsIntersect (Rect.mk 0 0 10 10) (Rect.mk 10 10 5 5) = true <->
  exists px py,
    inRect (Rect.mk 0 0 10 10) px py /\ inRect (Rect.mk 10 10 5 5) px py.
Proof.
  apply (rectsIntersect_common_point (Rect.mk 0 0 10 10) (Rect.mk 10 10 5 5));
    apply Qle_bool_iff; reflexivity.
Defined.

(** When the test succeeds the lines are not parallel and both parameters
    lie in the unit interval. *)
Lemma linesIntersect_true (x1 y1 x2 y2 x3 y3 x4 y4 : Q) :
  _linesIntersect x1 y1 x2 y2 x3 y3 x4 y4 = true <->
  ~ (x1 - x2) * (y3 - y4) - (y1 - y2) * (x3 - x4) == 0 /\
  0 <= ((x1 - x3) * (y3 - y4) - (y1 - y3) * (x3 - x4)) /
       ((x1 - x2) * (y3 - y4) - (y1 - y2) * (x3 - x4)) <= 1 /\
  0 <= - ((x1 - x2) * (y1 - y3) - (y1 - y2) * (x1 - x3)) /
       ((x1 - x2) * (y3 - y4) - (y1 - y2) * (x3 - x4)) <= 1.
Proof.
  unfold _linesIntersect, Qgeb.
  destruct (Qeq_bool _ 0) eqn:Hd.
  - apply Qeq_bool_iff in Hd. split; [discriminate|]. intros [Hn _].
    contradiction.
  - apply Qeq_bool_neq in Hd. rewrite !andb_true_iff, !Qle_bool_iff. tauto.
Qed.

(** A successful test exhibits the common point. *)
Lemma linesIntersect_sound (x1 y1 x2 y2 x3 y3 x4 y4 : Q) :
  _linesIntersect x1 y1 x2 y2 x3 y3 x4 y4 = true ->
  sharePoint x1 y1 x2 y2 x3 y3 x4 y4.
Proof.
  intros H. apply linesIntersect_true in H as (Hd & Ht & Hu).
  set (d := (x1 - x2) * (y3 - y4) - (y1 - y2) * (x3 - x4)) in *.
  set (t := ((x1 - x3) * (y3 - y4) - (y1 - y3) * (x3 - x4)) / d) in *.
  set (u := - ((x1 - x2) * (y1 - y3) - (y1 - y2) * (x1 - x3)) / d) in *.
  exists (x1 + t * (x2 - x1)), (y1 + t * (y2 - y1)). split.
  - exists t. repeat split; try reflexivity; lra.
  - exists u. split; [lra|]. split; [lra|].
    subst t u d. split; field; exact Hd.
Qed.

(** X7.  For segments that are not parallel [_linesIntersect] holds exactly
    when the two segments have a point in common; and whenever it holds, for
    any segments, they have one. *)
Theorem linesIntersect_exact (x1 y1 x2 y2 x3 y3 x4 y4 : Q) :
  (_linesIntersect x1 y1 x2 y2 x3 y3 x4 y4 = true ->
   sharePoint x1 y1 x2 y2 x3 y3 x4 y4) /\
  (~ (x1 - x2) * (y3 - y4) - (y1 - y2) * (x3 - x4) == 0 ->
   sharePoint x1 y1 x2 y2 x3 y3 x4 y4 ->
   _linesIntersect x1 y1 x2 y2 x3 y3 x4 y4 = true).
Proof.
  split.
  - apply linesIntersect_sound.
  - intros Hd (px & py & (t & Ht0 & Ht1 & Ex & Ey) & (u & Hu0 & Hu1 & Ex' & Ey')).
    apply linesIntersect_true. split; [exact Hd|].
    set (d := (x1 - x2) * (y3 - y4) - (y1 - y2) * (x3 - x4)) in *.
    assert (D1 : x1 + t * (x2 - x1) - (x3 + u * (x4 - x3)) == 0) by lra.
    assert (D2 : y1 + t * (y2 - y1) - (y3 + u * (y4 - y3)) == 0) by lra.
    assert (It : (x1 - x3) * (y3 - y4) - (y1 - y3) * (x3 - x4) - t * d ==
                 (x1 + t * (x2 - x1) - (x3 + u * (x4 - x3))) * (y3 - y4) -
                 (y1 + t * (y2 - y1) - (y3 + u * (y4 - y3))) * (x3 - x4))
      by (subst d; ring).
    assert (Iu : - ((x1 - x2) * (y1 - y3) - (y1 - y2) * (x1 - x3)) - u * d ==
                 (x1 + t * (x2 - x1) - (x3 + u * (x4 - x3))) * (y1 - y2) -
                 (y1 + t * (y2 - y1) - (y3 + u * (y4 - y3))) * (x1 - x2))
      by (subst d; ring).
    rewrite D1, D2 in It, Iu.
    assert (Et : ((x1 - x3) * (y3 - y4) - (y1 - y3) * (x3 - x4)) / d == t).
    { assert (E : (x1 - x3) * (y3 - y4) - (y1 - y3) * (x3 - x4) == t * d) by lra.
      rewrite E. field. exact Hd. }
    assert (Eu : - ((x1 - x2) * (y1 - y3) - (y1 - y2) * (x1 - x3)) / d == u).
    { assert (E : - ((x1 - x2) * (y1 - y3) - (y1 - y2) * (x1 - x3)) == u * d)
        by lra.
      rewrite E. field. exact Hd. }
    rewrite Et, Eu. lra.
Qed.

Lemma linesIntersect_exact_witness :
  _linesIntersect 0 0 10 10 0 10 10 0 = true.
Proof.
  apply (proj2 (linesIntersect_exact 0 0 10 10 0 10 10 0)).
  - intros H. apply Qeq_bool_iff in H. vm_compute in H. discriminate.
  - exists 5, 5. split; exists (1 # 2); repeat split;
      apply Qle_bool_iff || apply Qeq_bool_iff; reflexivity.
Defined.

Lemma onSeg_convex_x (px py x1 y1 x2 y2 lo hi : Q) :
  onSeg px py x1 y1 x2 y2 -> lo < x1 < hi -> lo < x2 < hi -> lo < px < hi.
Proof.
  intros (t & H0 & H1 & Ex & _) Ha Hb.
  assert (E : x1 + t * (x2 - x1) == (1 - t) * x1 + t * x2) by ring.
  destruct (Qlt_le_dec t (1 # 2)) as [Ht|Ht].
  - assert (A1 : 0 <= t * (x2 - lo)) by (apply Qmult_le_0_compat; lra).
    assert (A2 : 0 <= t * (hi - x2)) by (apply Qmult_le_0_compat; lra).
    assert (A3 : 0 < (1 - t) * (x1 - lo)) by (apply Qmult_lt_0_compat; lra).
    assert (A4 : 0 < (1 - t) * (hi - x1)) by (apply Qmult_lt_0_compat; lra).
    assert (E1 : (1 - t) * (x1 - lo) + t * (x2 - lo) ==
                 (1 - t) * x1 + t * x2 - lo) by ring.
    assert (E2 : (1 - t) * (hi - x1) + t * (hi - x2) ==
                 hi - ((1 - t) * x1 + t * x2)) by ring.
    lra.
  - assert (A1 : 0 < t * (x2 - lo)) by (apply Qmult_lt_0_compat; lra).
    assert (A2 : 0 < t * (hi - x2)) by (apply Qmult_lt_0_compat; lra).
    assert (A3 : 0 <= (1 - t) * (x1 - lo)) by (apply Qmult_le_0_compat; lra).
    assert (A4 : 0 <= (1 - t) * (hi - x1)) by (apply Qmult_le_0_compat; lra).
    assert (E1 : (1 - t) * (x1 - lo) + t * (x2 - lo) ==
                 (1 - t) * x1 + t * x2 - lo) by ring.
    assert (E2 : (1 - t) * (hi - x1) + t * (hi - x2) ==
                 hi - ((1 - t) * x1 + t * x2)) by ring.
    lra.
Qed.

Lemma onSeg_swap (px py x1 y1 x2 y2 : Q) :
  onSeg px py x1 y1 x2 y2 -> onSeg py px y1 x1 y2 x2.
Proof. intros (t & H0 & H1 & Ex & Ey). exists t. auto. Qed.

Lemma onSeg_horizontal (px py xa xb y : Q) :
  onSeg px py xa y xb y -> py == y.
Proof. intros (t & _ & _ & _ & Ey). rewrite Ey. ring. Qed.

Lemma onSeg_vertical (px py x ya yb : Q) :
  onSeg px py x ya x yb -> px == x.
Proof. intros (t & _ & _ & Ex & _). rewrite Ex. ring. Qed.

Lemma lineIntersectsRect_touches (x1 y1 x2 y2 : Q) (r : Rect.t) :
  _lineIntersectsRect x1 y1 x2 y2 r = true -> touchesBoundary r x1 y1 x2 y2.
Proof.
  unfold _lineIntersectsRect, touchesBoundary. cbv zeta.
  rewrite !orb_true_iff. intros [[[H|H]|H]|H];
    apply linesIntersect_sound in H; auto.
Qed.

(** X8.  The area selection picks only beams that meet the boundary of the
    normalised selection rectangle, and it never picks a beam whose two
    endpoints lie strictly inside that rectangle: a beam is selected by
    dragging across it, not around it. *)
Theorem areaSelectBeams_crosses_boundary (selectionRect : Rect.t)
  (bs : list Beam.t) (i : nat) :
  (Sel.mk KBeam i ∈ areaSelectBeams selectionRect bs ->
   exists b, bs !! i = Some b /\
     touchesBoundary (_normalizeRect selectionRect)
       (Beam.x1 b) (Beam.y1 b) (Beam.x2 b) (Beam.y2 b)) /\
  (forall b, bs !! i = Some b ->
     strictlyInRect (_normalizeRect selectionRect) (Beam.x1 b) (Beam.y1 b) ->
     strictlyInRect (_normalizeRect selectionRect) (Beam.x2 b) (Beam.y2 b) ->
     Sel.mk KBeam i ∉ areaSelectBeams selectionRect bs).
Proof.
  pose proof (normalizeSelectionRect_eq selectionRect) as Hnorm.
  assert (Hsel : Sel.mk KBeam i ∈ areaSelectBeams selectionRect bs ->
                 exists b, bs !! i = Some b /\
                   _lineIntersectsRect (Beam.x1 b) (Beam.y1 b) (Beam.x2 b)
                     (Beam.y2 b) (_normalizeRect selectionRect) = true).
  { unfold areaSelectBeams. rewrite Hnorm. intros Hin.
    apply list_elem_of_omap in Hin as ([j b] & Hjb & Hsome).
    apply list_elem_of_lookup in Hjb as [k Hk].
    rewrite list_lookup_imap in Hk.
    destruct (bs !! k) as [b'|] eqn:Hb'; [|discriminate].
    simpl in Hk. injection Hk as <- <-.
    destruct (_lineIntersectsRect _ _ _ _ _) eqn:Hhit; [|discriminate].
    injection Hsome as <-. eauto. }
  split.
  - intros Hin. destruct (Hsel Hin) as (b & Hb & Hhit).
    exists b. split; [exact Hb|]. apply lineIntersectsRect_touches. exact Hhit.
  - intros b Hb (Ha1 & Ha2 & Ha3 & Ha4) (Hb1 & Hb2 & Hb3 & Hb4) Hin.
    destruct (Hsel Hin) as (b' & Hb' & Hhit).
    assert (b' = b) by congruence. subst b'.
    apply lineIntersectsRect_touches in Hhit.
    set (r := _normalizeRect selectionRect) in *.
    assert (Hconv : forall px py,
              onSeg px py (Beam.x1 b) (Beam.y1 b) (Beam.x2 b) (Beam.y2 b) ->
              Rect.x r < px < Rect.x r + Rect.w r /\
              Rect.y r < py < Rect.y r + Rect.h r).
    { intros px py Hon. split.
      - apply (onSeg_convex_x px py _ _ _ _ _ _ Hon); split; assumption.
      - apply (onSeg_convex_x py px _ _ _ _ _ _ (onSeg_swap _ _ _ _ _ _ Hon));
          split; assumption. }
    destruct Hhit as [H|[H|[H|H]]];
      destruct H as (px & py & Hon & Hedge);
      destruct (Hconv px py Hon) as [Hx Hy].
    + apply onSeg_horizontal in Hedge. lra.
    + apply onSeg_vertical in Hedge. lra.
    + apply onSeg_horizontal in Hedge. lra.
    + apply onSeg_vertical in Hedge. lra.
Qed.

Lemma areaSelectBeams_crosses_boundary_witness :
  exists b,
    [Beam.mk 50 50 150 50 "IPN-80" false] !! 0%nat = Some b /\
    touchesBoundary (_normalizeRect (Rect.mk 0 0 100 100))
      (Beam.x1 b) (Beam.y1 b) (Beam.x2 b) (Beam.y2 b).
Proof.
  apply (proj1 (areaSelectBeams_crosses_boundary (Rect.mk 0 0 100 100)
                  [Beam.mk 50 50 150 50 "IPN-80" false] 0)).
  apply list_elem_of_In. vm_compute. left. reflexivity.
Defined.

(** ** Selection handlers *)

Lemma sameEntry_true (type : ElementKind) (index : nat) (sel : Sel.t) :
  sameEntry type index sel = true <-> sel = Sel.mk type index.
Proof.
  unfold sameEntry. rewrite andb_true_iff, bool_decide_eq_true, Nat.eqb_eq.
  destruct sel as [k i]; simpl. split.
  - intros [-> ->]. reflexivity.
  - intros [= -> ->]. auto.
Qed.

Lemma findIndex_Some {A : Type} (f : A -> bool) (l : list A) (n : nat) :
  findIndex f l = Some n -> exists a, l !! n = Some a /\ f a = true.
Proof.
  revert n. induction l as [|a l IH]; intros n; simpl; [discriminate|].
  destruct (f a) eqn:Hfa.
  - intros [= <-]. eauto.
  - destruct (findIndex f l) as [m|]; [|discriminate].
    intros [= <-]. simpl. apply IH. reflexivity.
Qed.

Lemma findIndex_None {A : Type} (f : A -> bool) (l : list A) :
  findIndex f l = None -> forall a, a ∈ l -> f a = false.
Proof.
  induction l as [|a l IH]; simpl; intros H x Hx; [inversion Hx|].
  destruct (f a) eqn:Hfa; [discriminate|].
  destruct (findIndex f l) as [m|]; [discriminate|].
  apply elem_of_cons in Hx as [->|Hx]; auto.
Qed.

Lemma elem_of_delete_NoDup {A : Type} (l : list A) (n : nat) (x y : A) :
  NoDup l -> l !! n = Some x ->
  NoDup (delete n l) /\ (y ∈ delete n l <-> y ∈ l /\ y <> x).
Proof.
  intros Hnd Hn.
  rewrite <- (take_drop_middle l n x Hn) in Hnd.
  rewrite <- (take_drop_middle l n x Hn) at 3.
  rewrite delete_take_drop.
  apply NoDup_app in Hnd as (H1 & H2 & H3).
  apply NoDup_cons in H3 as [H3 H4].
  split.
  - apply NoDup_app. split; [exact H1|]. split; [|exact H4].
    intros z Hz Hz'. apply (H2 z Hz). apply elem_of_cons. auto.
  - rewrite !elem_of_app, elem_of_cons. split.
    + intros [Hy|Hy].
      * split; [auto|]. intros ->. apply (H2 x Hy). apply elem_of_cons. auto.
      * split; [auto|]. intros ->. contradiction.
    + intros [[Hy|[->|Hy]] Hne]; [auto|contradiction|auto].
Qed.

(** X9.  [_applySelection] keeps a duplicate-free selection duplicate-free
    and touches nothing but the selection.  A plain click leaves exactly the
    clicked entry selected; an additive click toggles the membership of the
    clicked entry and of no other. *)
Theorem applySelection_toggle (type : ElementKind) (index : nat)
  (isAdditive : bool) (e : Editor) :
  NoDup (selectedElements e) ->
  let e' := _applySelection type index isAdditive e in
  NoDup (selectedElements e') /\
  (isAdditive = false -> selectedElements e' = [Sel.mk type index]) /\
  (isAdditive = true ->
   (Sel.mk type index ∈ selectedElements e' <->
    Sel.mk type index ∉ selectedElements e) /\
   forall other, other <> Sel.mk type index ->
     (other ∈ selectedElements e' <-> other ∈ selectedElements e)) /\
  panels e' = panels e /\ obstacles e' = obstacles e /\
  beams e' = beams e /\ texts e' = texts e.
Proof.
  intros Hnd. cbv zeta. unfold _applySelection.
  destruct isAdditive; cbn [negb].
  - destruct (findIndex _ _) as [n|] eqn:Hfind.
    + apply findIndex_Some in Hfind as (x & Hx & Hsame).
      apply sameEntry_true in Hsame. subst x.
      cbn [selectedElements set_selected panels obstacles beams texts].
      pose proof (fun y => elem_of_delete_NoDup _ n _ y Hnd Hx) as Hdel.
      split; [apply (Hdel (Sel.mk type index))|].
      split; [discriminate|]. split; [|auto].
      intros _. split.
      * rewrite (proj2 (Hdel (Sel.mk type index))). split.
        -- intros [_ Hne]. congruence.
        -- intros Hnot. exfalso. apply Hnot.
           apply list_elem_of_lookup. eauto.
      * intros other Hne. rewrite (proj2 (Hdel other)). tauto.
    + pose proof (findIndex_None _ _ Hfind) as Hnone.
      assert (Hnot : Sel.mk type index ∉ selectedElements e).
      { intros Hin. specialize (Hnone _ Hin).
        assert (sameEntry type index (Sel.mk type index) = true)
          by (apply sameEntry_true; reflexivity).
        congruence. }
      cbn [selectedElements set_selected panels obstacles beams texts].
      split.
      { apply NoDup_app. split; [exact Hnd|]. split; [|apply NoDup_singleton].
        intros z Hz Hz'. apply list_elem_of_singleton in Hz'. congruence. }
      split; [discriminate|]. split; [|auto].
      intros _. split.
      * rewrite elem_of_app, list_elem_of_singleton. tauto.
      * intros other Hne. rewrite elem_of_app, list_elem_of_singleton. tauto.
  - cbn [selectedElements set_selected panels obstacles beams texts].
    split; [apply NoDup_singleton|]. split; [reflexivity|].
    split; [discriminate|auto].
Qed.

Lemma applySelection_toggle_witness :
  NoDup (selectedElements (_applySelection KPanel 0 true scenarioEditor)) /\
  (Sel.mk KPanel 0 ∈ selectedElements (_applySelection KPanel 0 true scenarioEditor)
   <-> Sel.mk KPanel 0 ∉ selectedElements scenarioEditor).
Proof.
  destruct (applySelection_toggle KPanel 0 true scenarioEditor)
    as (Hnd & _ & Htoggle & _).
  - simpl. apply NoDup_singleton.
  - split; [exact Hnd|]. apply Htoggle. reflexivity.
Defined.

(** The entries a selection loop pushes. *)
Lemma entriesWhere_spec {A : Type} (kind : ElementKind) (f : A -> bool)
  (l : list A) (sel : Sel.t) :
  sel ∈ entriesWhere kind f l <->
  exists i a, sel = Sel.mk kind i /\ l !! i = Some a /\ f a = true.
Proof.
  unfold entriesWhere. rewrite list_elem_of_omap. split.
  - intros ([j a] & Hja & Hsome).
    apply list_elem_of_lookup in Hja as [k Hk].
    rewrite list_lookup_imap in Hk.
    destruct (l !! k) as [a'|] eqn:Ha'; [|discriminate].
    simpl in Hk. injection Hk as <- <-.
    destruct (f a') eqn:Hf; [|discriminate]. injection Hsome as <-. eauto.
  - intros (i & a & -> & Ha & Hf). exists (i, a). split.
    + apply list_elem_of_lookup. exists i.
      rewrite list_lookup_imap, Ha. reflexivity.
    + rewrite Hf. reflexivity.
Qed.

Lemma entriesFrom_sublist {A : Type} (f : A -> bool) (l : list A) (off : nat) :
  omap (fun '(i, a) => if f a then Some i else None)
       (imap (fun i a => ((off + i)%nat, a)) l)
  `sublist_of` seq off (length l).
Proof.
  revert off. induction l as [|a l IH]; intros off; simpl.
  - constructor.
  - rewrite Nat.add_0_r.
    assert (E : imap ((fun i a => ((off + i)%nat, a)) ∘ S) l =
                imap (fun i a => ((S off + i)%nat, a)) l).
    { apply imap_ext. intros i x _. simpl. f_equal. lia. }
    rewrite E. destruct (f a).
    + constructor. apply IH.
    + constructor. apply IH.
Qed.

Lemma omap_entries_fmap {A : Type} (kind : ElementKind) (f : A -> bool)
  (r : list (nat * A)) :
  omap (fun '(i, a) => if f a then Some (Sel.mk kind i) else None) r =
  Sel.mk kind <$> omap (fun '(i, a) => if f a then Some i else None) r.
Proof.
  induction r as [|[i a] r IH]; [reflexivity|].
  cbn [omap list_omap]. destruct (f a); cbn [fmap list_fmap]; rewrite IH;
    reflexivity.
Qed.

Lemma entriesWhere_NoDup {A : Type} (kind : ElementKind) (f : A -> bool)
  (l : list A) :
  NoDup (entriesWhere kind f l).
Proof.
  unfold entriesWhere. rewrite omap_entries_fmap. apply NoDup_fmap_2.
  - intros i j [=]. assumption.
  - apply (sublist_NoDup _ (seq 0 (length l)));
      first [apply NoDup_seq | apply (entriesFrom_sublist f l 0)].
Qed.

(** X10.  [setTool('select-structure')] selects exactly the beams marked
    as generated, each once, and clears the temporary points; every other
    tool clears the selection. *)
Theorem setTool_selects_structure (tool : string) (e : Editor) :
  let e' := setTool tool e in
  tempPoints e' = [] /\ beams e' = beams e /\
  selectionWellFormed e' /\
  (tool = "select-structure"%string ->
   forall sel, sel ∈ selectedElements e' <->
     exists i b, sel = Sel.mk KBeam i /\ beams e !! i = Some b /\
                 Beam.isAutoStructure b = true) /\
  (tool <> "select-structure"%string -> selectedElements e' = []).
Proof.
  cbv zeta. unfold setTool, selectionWellFormed.
  destruct (String.eqb_spec tool "select-structure") as [->|Hne];
    cbn [set_selected set_tempPoints tempPoints beams selectedElements].
  - split; [reflexivity|]. split; [reflexivity|]. split; [split|split].
    + apply entriesWhere_NoDup.
    + intros sel Hsel. apply entriesWhere_spec in Hsel as (i & b & -> & Hb & _).
      unfold validEntry. simpl. eauto.
    + intros _ sel. apply entriesWhere_spec.
    + congruence.
  - split; [reflexivity|]. split; [reflexivity|]. split; [split|split].
    + apply NoDup_nil_2.
    + intros sel Hsel. inversion Hsel.
    + congruence.
    + reflexivity.
Qed.

Lemma setTool_selects_structure_witness :
  Sel.mk KBeam 0 ∈ selectedElements (setTool "select-structure" scenarioState)
  <->
  exists i b, Sel.mk KBeam 0 = Sel.mk KBeam i /\
              beams scenarioState !! i = Some b /\
              Beam.isAutoStructure b = true.
Proof.
  destruct (setTool_selects_structure "select-structure" scenarioState)
    as (_ & _ & _ & Hsel & _).
  apply Hsel. reflexivity.
Defined.

Lemma findLastIndexFrom_spec {A : Type} (f : A -> bool) (l : list A) (i : nat) :
  match findLastIndexFrom f l i with
  | Some j =>
      exists n a, j = (i + n)%nat /\ l !! n = Some a /\ f a = true /\
                  forall m b, (n < m)%nat -> l !! m = Some b -> f b = false
  | None => forall m b, l !! m = Some b -> f b = false
  end.
Proof.
  revert i. induction l as [|a l IH]; intros i; simpl.
  - intros m b Hm. destruct m; discriminate.
  - specialize (IH (S i)). destruct (findLastIndexFrom f l (S i)) as [j|].
    + destruct IH as (n & x & -> & Hx & Hfx & Hlast).
      exists (S n), x. split; [lia|]. split; [exact Hx|]. split; [exact Hfx|].
      intros m b Hm Hb. destruct m as [|m]; [lia|].
      apply (Hlast m b); [lia|exact Hb].
    + destruct (f a) eqn:Hfa.
      * exists 0%nat, a. split; [lia|]. split; [reflexivity|].
        split; [exact Hfa|].
        intros m b Hm Hb. destruct m as [|m]; [lia|]. apply (IH m b Hb).
      * intros m b Hb. destruct m as [|m]; [simpl in Hb; congruence|].
        apply (IH m b Hb).
Qed.

(** The last index whose element satisfies the test, when there is one. *)
Lemma findLastIndex_Some {A : Type} (f : A -> bool) (l : list A) (j : nat) :
  findLastIndex f l = Some j <->
  (exists a, l !! j = Some a /\ f a = true) /\
  forall m b, (j < m)%nat -> l !! m = Some b -> f b = false.
Proof.
  unfold findLastIndex. pose proof (findLastIndexFrom_spec f l 0) as H.
  destruct (findLastIndexFrom f l 0) as [k|]; split.
  - intros [= <-]. destruct H as (n & a & -> & Ha & Hf & Hlast). simpl. eauto.
  - intros [(a & Ha & Hf) Hlast].
    destruct H as (n & x & -> & Hx & Hfx & Hlast'). simpl. f_equal.
    destruct (Nat.lt_trichotomy n j) as [Hlt|[->|Hgt]]; [|reflexivity|].
    + rewrite (Hlast' j a Hlt Ha) in Hf. discriminate.
    + rewrite (Hlast n x Hgt Hx) in Hfx. discriminate.
  - discriminate.
  - intros [(a & Ha & Hf) _]. rewrite (H j a Ha) in Hf. discriminate.
Qed.

Lemma findLastIndex_None {A : Type} (f : A -> bool) (l : list A) :
  findLastIndex f l = None <-> forall m b, l !! m = Some b -> f b = false.
Proof.
  unfold findLastIndex. pose proof (findLastIndexFrom_spec f l 0) as H.
  destruct (findLastIndexFrom f l 0) as [k|]; split; auto.
  - discriminate.
  - intros Hall. destruct H as (n & a & _ & Ha & Hf & _).
    rewrite (Hall n a Ha) in Hf. discriminate.
Qed.

(** X11.  The hit test of [_handleSelect] goes by kind and then by age:
    a text under the cursor wins over everything, then a panel, then an
    obstacle, then a beam within 5 units, and within a kind the element
    created last.  A click on nothing clears the selection unless it is
    additive.  Scale and zoom are not zero. *)
Theorem handleSelect_priority (measureText : string -> Q -> Q)
  (sqrt : Q -> Q) (cm : Point.t) (isAdditive : bool) (v : View) (e : Editor) :
  ~ scale e * zoomLevel v == 0 ->
  let result := _handleSelect measureText sqrt cm isAdditive v e in
  (forall i, topmostHit (textContains measureText e v cm) (texts e) i ->
     result = _applySelection KText i isAdditive e) /\
  (forall i, noHit (textContains measureText e v cm) (texts e) ->
     topmostHit (panelContains cm) (panels e) i ->
     result = _applySelection KPanel i isAdditive e) /\
  (forall i, noHit (textContains measureText e v cm) (texts e) ->
     noHit (panelContains cm) (panels e) ->
     topmostHit (obstacleContains cm) (obstacles e) i ->
     result = _applySelection KObstacle i isAdditive e) /\
  (forall i, noHit (textContains measureText e v cm) (texts e) ->
     noHit (panelContains cm) (panels e) ->
     noHit (obstacleContains cm) (obstacles e) ->
     topmostHit (beamNear sqrt cm) (beams e) i ->
     result = _applySelection KBeam i isAdditive e) /\
  (noHit (textContains measureText e v cm) (texts e) ->
   noHit (panelContains cm) (panels e) ->
   noHit (obstacleContains cm) (obstacles e) ->
   noHit (beamNear sqrt cm) (beams e) ->
   result = if isAdditive then e else set_selected [] e).
Proof.
  intros _. cbv zeta. unfold _handleSelect, _getTextIndexAt, topmostHit, noHit.
  repeat split.
  - intros i Ht. apply findLastIndex_Some in Ht. rewrite Ht. reflexivity.
  - intros i Hnt Hp. apply findLastIndex_None in Hnt.
    apply findLastIndex_Some in Hp. rewrite Hnt, Hp. reflexivity.
  - intros i Hnt Hnp Ho. apply findLastIndex_None in Hnt, Hnp.
    apply findLastIndex_Some in Ho. rewrite Hnt, Hnp, Ho. reflexivity.
  - intros i Hnt Hnp Hno Hb. apply findLastIndex_None in Hnt, Hnp, Hno.
    apply findLastIndex_Some in Hb. rewrite Hnt, Hnp, Hno, Hb. reflexivity.
  - intros Hnt Hnp Hno Hnb. apply findLastIndex_None in Hnt, Hnp, Hno, Hnb.
    rewrite Hnt, Hnp, Hno, Hnb. destruct isAdditive; reflexivity.
Qed.

Lemma handleSelect_priority_witness :
  _handleSelect (fun _ _ => 0) (fun q => q) (Point.mk 50 50) false
    (mkView 50 50 1 10 true) scenarioEditor
  = _applySelection KPanel 0 false scenarioEditor.
Proof.
  destruct (handleSelect_priority (fun _ _ => 0) (fun q => q) (Point.mk 50 50)
              false (mkView 50 50 1 10 true) scenarioEditor)
    as (_ & Hpanel & _).
  { intros H. apply Qeq_bool_iff in H. vm_compute in H. discriminate. }
  apply Hpanel.
  - intros m b Hb. destruct m; discriminate.
  - split.
    + exists scenarioPanel. split; reflexivity.
    + intros m b Hm Hb. destruct m as [|[|m]]; [lia|discriminate|discriminate].
Defined.

(** ** Deleting the selection *)

Lemma insertByIndexDesc_perm (x : Sel.t) (l : list Sel.t) :
  insertByIndexDesc x l ≡ₚ x :: l.
Proof.
  induction l as [|y l IH]; simpl; [reflexivity|].
  destruct (Sel.index x <? Sel.index y)%nat; [|reflexivity].
  rewrite IH. apply perm_swap.
Qed.

Lemma sortByIndexDesc_perm (l : list Sel.t) : sortByIndexDesc l ≡ₚ l.
Proof.
  induction l as [|x l IH]; simpl; [reflexivity|].
  rewrite insertByIndexDesc_perm, IH. reflexivity.
Qed.

Lemma insertByIndexDesc_sorted (x : Sel.t) (l : list Sel.t) :
  StronglySorted indexGe l -> StronglySorted indexGe (insertByIndexDesc x l).
Proof.
  induction l as [|y l IH]; simpl; intros Hs.
  - repeat constructor.
  - apply StronglySorted_cons in Hs as [Hy Hs].
    destruct (Nat.ltb_spec (Sel.index x) (Sel.index y)) as [Hlt|Hge].
    + apply StronglySorted_cons. split; [|apply IH; exact Hs].
      rewrite insertByIndexDesc_perm. constructor; [|exact Hy].
      unfold indexGe. lia.
    + apply StronglySorted_cons. split.
      * constructor; [unfold indexGe; lia|].
        eapply Forall_impl; [exact Hy|]. unfold indexGe. intros z Hz. lia.
      * apply StronglySorted_cons. auto.
Qed.

Lemma sortByIndexDesc_sorted (l : list Sel.t) :
  StronglySorted indexGe (sortByIndexDesc l).
Proof.
  induction l as [|x l IH]; simpl; [constructor|].
  apply insertByIndexDesc_sorted. exact IH.
Qed.

Lemma keepFrom_ext {A : Type} (d1 d2 : nat -> bool) (i : nat) (l : list A) :
  (forall j, (i <= j)%nat -> d1 j = d2 j) ->
  keepFrom d1 i l = keepFrom d2 i l.
Proof.
  revert i. induction l as [|a l IH]; intros i H; simpl; [reflexivity|].
  rewrite (H i) by lia. rewrite (IH (S i)) by (intros j Hj; apply H; lia).
  reflexivity.
Qed.

Lemma keepFrom_none {A : Type} (i : nat) (l : list A) :
  keepFrom (fun _ => false) i l = l.
Proof.
  revert i. induction l as [|a l IH]; intros i; simpl; [|rewrite IH];
    reflexivity.
Qed.

(** Removing position [n] of what is kept, when nothing up to index
    [i + n] was dropped, drops index [i + n] as well. *)
Lemma keepFrom_delete {A : Type} (d : nat -> bool) (i n : nat) (l : list A) :
  (forall j, (i <= j <= i + n)%nat -> d j = false) ->
  delete n (keepFrom d i l) =
  keepFrom (fun j => d j || (j =? i + n)%nat) i l.
Proof.
  revert i n. induction l as [|a l IH]; intros i n H; simpl.
  - destruct n; reflexivity.
  - rewrite (H i) by lia. cbn [orb].
    destruct n as [|n].
    + rewrite Nat.add_0_r, Nat.eqb_refl.
      change (delete 0%nat (a :: keepFrom d (S i) l))
        with (keepFrom d (S i) l).
      apply keepFrom_ext. intros j Hj.
      replace (j =? i)%nat with false by (symmetry; apply Nat.eqb_neq; lia).
      rewrite orb_false_r. reflexivity.
    + replace (i =? i + S n)%nat with false
        by (symmetry; apply Nat.eqb_neq; lia).
      change (delete (S n) (a :: keepFrom d (S i) l))
        with (a :: delete n (keepFrom d (S i) l)).
      f_equal.
      rewrite (IH (S i) n) by (intros j Hj; apply H; lia).
      apply keepFrom_ext. intros j Hj. do 2 f_equal. lia.
Qed.

(** Deleting by decreasing index removes exactly the indices listed: no
    deletion shifts an element that is still to be deleted. *)
Lemma fold_deleteOfKind {A : Type} (kind : ElementKind) (sels : list Sel.t)
  (l : list A) :
  StronglySorted indexGe sels -> NoDup sels ->
  fold_left (deleteOfKind kind) sels l = unselected sels kind l.
Proof.
  unfold unselected.
  induction sels as [|x s0 IH] using rev_ind; intros Hs Hnd.
  - simpl. rewrite <- (keepFrom_none 0 l) at 1.
    apply keepFrom_ext. intros j _. reflexivity.
  - apply StronglySorted_app in Hs as (Hord & Hs0 & _).
    apply NoDup_app in Hnd as (Hnd0 & Hdisj & _).
    rewrite fold_left_app. cbn [fold_left]. rewrite (IH Hs0 Hnd0).
    unfold deleteOfKind. destruct (decide (Sel.type x = kind)) as [Hk|Hk].
    + rewrite keepFrom_delete.
      * apply keepFrom_ext. intros j _. simpl.
        destruct (Nat.eqb_spec j (Sel.index x)) as [->|Hne].
        -- rewrite orb_true_r. symmetry. apply bool_decide_eq_true.
           apply elem_of_app. right. apply list_elem_of_singleton.
           destruct x; simpl in *. congruence.
        -- rewrite orb_false_r. apply bool_decide_ext.
           rewrite elem_of_app, list_elem_of_singleton. split; [auto|].
           intros [H|H]; [exact H|]. destruct x; simpl in *. congruence.
      * intros j Hj. simpl in Hj. apply bool_decide_eq_false. intros Hin.
        assert (Hge : indexGe (Sel.mk kind j) x).
        { apply Hord; [exact Hin|]. apply list_elem_of_singleton. reflexivity. }
        unfold indexGe in Hge. simpl in Hge.
        assert (j = Sel.index x) by lia. subst j.
        apply (Hdisj _ Hin). apply list_elem_of_singleton.
        destruct x; simpl in *. congruence.
    + apply keepFrom_ext. intros j _. apply bool_decide_ext.
      rewrite elem_of_app, list_elem_of_singleton. split; [auto|].
      intros [H|H]; [exact H|]. subst x. simpl in Hk. congruence.
Qed.

Lemma fold_deleteOne_fields (sels : list Sel.t) (e : Editor) :
  panels (fold_left deleteOne sels e)
  = fold_left (deleteOfKind KPanel) sels (panels e) /\
  obstacles (fold_left deleteOne sels e)
  = fold_left (deleteOfKind KObstacle) sels (obstacles e) /\
  beams (fold_left deleteOne sels e)
  = fold_left (deleteOfKind KBeam) sels (beams e) /\
  texts (fold_left deleteOne sels e)
  = fold_left (deleteOfKind KText) sels (texts e) /\
  sameFrame e (fold_left deleteOne sels e) /\
  selectedElements (fold_left deleteOne sels e) = selectedElements e.
Proof.
  revert e. induction sels as [|sel sels IH]; intros e.
  - simpl. unfold sameFrame. auto 10.
  - cbn [fold_left]. destruct (IH (deleteOne e sel))
      as (Hp & Ho & Hb & Ht & (F1 & F2 & F3 & F4) & Hs).
    rewrite Hp, Ho, Hb, Ht, Hs. unfold sameFrame. rewrite F1, F2, F3, F4.
    unfold deleteOne, deleteOfKind.
    destruct sel as [k i]; destruct k; simpl; auto 10.
Qed.

(** X12.  [deleteSelected] on a duplicate-free selection removes exactly the
    selected elements: each collection keeps, in order, the elements whose
    index is not selected.  The terrace and the bounds stay, and so does the
    selection, sorted by decreasing index. *)
Theorem deleteSelected_removes_selected (e : Editor) :
  NoDup (selectedElements e) ->
  let e' := deleteSelected e in
  panels e' = unselected (selectedElements e) KPanel (panels e) /\
  obstacles e' = unselected (selectedElements e) KObstacle (obstacles e) /\
  beams e' = unselected (selectedElements e) KBeam (beams e) /\
  texts e' = unselected (selectedElements e) KText (texts e) /\
  sameFrame e e' /\
  selectedElements e' = sortByIndexDesc (selectedElements e).
Proof.
  intros Hnd. cbv zeta. unfold deleteSelected.
  destruct (selectedElements e) as [|s0 rest] eqn:Hsel.
  - unfold unselected.
    assert (Hk : forall (A : Type) (k : ElementKind) (l : list A),
               keepFrom (fun i => bool_decide (Sel.mk k i ∈ @nil Sel.t)) 0 l = l).
    { intros A k l. rewrite <- (keepFrom_none 0 l) at 2.
      apply keepFrom_ext. intros j _. reflexivity. }
    rewrite !Hk. unfold sameFrame. rewrite Hsel. auto 10.
  - rewrite <- Hsel in *.
    set (sorted := sortByIndexDesc (selectedElements e)).
    pose proof (sortByIndexDesc_perm (selectedElements e)) as Hperm.
    fold sorted in Hperm.
    assert (Hnd' : NoDup sorted) by (rewrite Hperm; exact Hnd).
    pose proof (sortByIndexDesc_sorted (selectedElements e)) as Hsorted.
    fold sorted in Hsorted.
    destruct (fold_deleteOne_fields sorted (set_selected sorted e))
      as (Hp & Ho & Hb & Ht & Hf & Hs).
    rewrite Hp, Ho, Hb, Ht, Hs.
    rewrite !fold_deleteOfKind by assumption.
    cbn [panels obstacles beams texts selectedElements set_selected].
    assert (Hu : forall (A : Type) (k : ElementKind) (l : list A),
               unselected sorted k l = unselected (selectedElements e) k l).
    { intros A k l. unfold unselected. apply keepFrom_ext. intros j _.
      apply bool_decide_ext. rewrite Hperm. reflexivity. }
    rewrite !Hu. repeat (split; [reflexivity|]). split; [|reflexivity].
    destruct Hf as (F1 & F2 & F3 & F4). unfold sameFrame.
    rewrite F1, F2, F3, F4. simpl. auto.
Qed.

Lemma deleteSelected_removes_selected_witness :
  panels (deleteSelected scenarioEditor)
  = unselected (selectedElements scenarioEditor) KPanel (panels scenarioEditor).
Proof.
  destruct (deleteSelected_removes_selected scenarioEditor) as (Hp & _).
  - simpl. apply NoDup_singleton.
  - exact Hp.
Defined.

(** ** Pasting *)

Lemma canPasteOne_spec (e : Editor) (dx dy : Q) (c : Copied) :
  canPasteOne e dx dy c = true <-> copyRespectsBound e dx dy c.
Proof.
  destruct c; simpl; try tauto.
  - apply isRectWithinPanelBounds_spec.
  - apply isLineWithinConstructionBounds_spec.
Qed.

Lemma validEntry_lt (e : Editor) (sel : Sel.t) :
  validEntry e sel <->
  (Sel.index sel <
   match Sel.type sel with
   | KPanel => length (panels e)
   | KObstacle => length (obstacles e)
   | KBeam => length (beams e)
   | KText => length (texts e)
   end)%nat.
Proof.
  unfold validEntry. destruct (Sel.type sel); apply lookup_lt_is_Some.
Qed.

(** The pasting loop appends the translated copies and records one fresh
    entry per copy. *)
Lemma pasteLoop_spec (dx dy : Q) (cs : list Copied) (e : Editor)
  (new : list Sel.t) :
  NoDup new -> (forall s, s ∈ new -> validEntry e s) ->
  let r := fold_left (pasteOne dx dy) cs (e, new) in
  panels (fst r) = panels e ++ pastedPanels dx dy cs /\
  obstacles (fst r) = obstacles e ++ pastedObstacles dx dy cs /\
  beams (fst r) = beams e ++ pastedBeams dx dy cs /\
  texts (fst r) = texts e ++ pastedTexts dx dy cs /\
  sameFrame e (fst r) /\
  tempPoints (fst r) = tempPoints e /\
  NoDup (snd r) /\
  (forall s, s ∈ snd r -> validEntry (fst r) s) /\
  (forall s, s ∈ snd r -> s ∈ new \/ ~ validEntry e s) /\
  length (snd r) = (length new + length cs)%nat.
Proof.
  revert e new. induction cs as [|c cs IH]; intros e new Hnd Hvalid.
  - cbv zeta. cbn [fold_left fst snd]. unfold sameFrame.
    unfold pastedPanels, pastedObstacles, pastedBeams, pastedTexts.
    cbn [omap list_omap]. rewrite !app_nil_r. simpl length.
    rewrite Nat.add_0_r. auto 15.
  - cbv zeta. cbn [fold_left].
    set (acc := pasteOne dx dy (e, new) c).
    assert (Hacc : NoDup (snd acc) /\
                   (forall s, s ∈ snd acc -> validEntry (fst acc) s) /\
                   (forall s, validEntry e s -> validEntry (fst acc) s) /\
                   (forall s, s ∈ snd acc -> s ∈ new \/ ~ validEntry e s) /\
                   length (snd acc) = S (length new)).
    { subst acc. unfold pasteOne. cbn [fst snd].
      destruct c; cbn [fst snd];
        (split; [apply NoDup_app; split; [exact Hnd|];
                 split; [|apply NoDup_singleton];
                 intros s Hs Hs'; apply list_elem_of_singleton in Hs';
                 subst s; apply Hvalid in Hs; apply validEntry_lt in Hs;
                 simpl in Hs; lia|]);
        (split; [intros s Hs; apply elem_of_app in Hs as [Hs|Hs];
                 [apply Hvalid in Hs; apply validEntry_lt in Hs;
                  apply validEntry_lt; destruct s as [k i]; destruct k;
                  simpl in *; rewrite ?length_app; simpl; lia
                 |apply list_elem_of_singleton in Hs; subst s;
                  apply validEntry_lt; simpl; rewrite length_app; simpl; lia]|]);
        (split; [intros s Hs; apply validEntry_lt in Hs;
                 apply validEntry_lt; destruct s as [k i]; destruct k;
                 simpl in *; rewrite ?length_app; simpl; lia|]);
        (split; [intros s Hs; apply elem_of_app in Hs as [Hs|Hs];
                 [left; exact Hs
                 |right; apply list_elem_of_singleton in Hs; subst s;
                  rewrite validEntry_lt; simpl; lia]|]);
        rewrite length_app; simpl; lia. }
    destruct Hacc as (Hnd1 & Hvalid1 & Hmono & Hfresh1 & Hlen1).
    destruct acc as [e1 new1] eqn:Eacc. cbn [fst snd] in *.
    destruct (IH e1 new1 Hnd1 Hvalid1)
      as (Hp & Ho & Hb & Ht & Hf & Htp & Hnd' & Hv' & Hfresh' & Hlen').
    rewrite Hp, Ho, Hb, Ht, Htp, Hlen', Hlen1.
    assert (He1 : e1 = fst (pasteOne dx dy (e, new) c)) by (subst acc; rewrite Eacc; reflexivity).
    destruct Hf as (F1 & F2 & F3 & F4). unfold sameFrame.
    rewrite F1, F2, F3, F4.
    unfold pastedPanels, pastedObstacles, pastedBeams, pastedTexts.
    split; [|split; [|split; [|split; [|split; [|split; [|split; [|split; [|split]]]]]]]].
    1-6: rewrite He1; destruct c; simpl; rewrite <- ?app_assoc; auto.
    + exact Hnd'.
    + exact Hv'.
    + intros s Hs. destruct (Hfresh' s Hs) as [H|H].
      * apply Hfresh1. exact H.
      * right. intros Hv. apply H. apply Hmono. exact Hv.
    + simpl. lia.
Qed.

(** What [paste] does once the check has passed. *)
Lemma paste_accepted (dx dy : Q) (cs : list Copied) (e : Editor) :
  cs <> [] -> pasteAccepted e dx dy cs = true ->
  let e' := paste dx dy cs e in
  panels e' = panels e ++ pastedPanels dx dy cs /\
  obstacles e' = obstacles e ++ pastedObstacles dx dy cs /\
  beams e' = beams e ++ pastedBeams dx dy cs /\
  texts e' = texts e ++ pastedTexts dx dy cs /\
  sameFrame e e' /\
  selectionWellFormed e' /\
  length (selectedElements e') = length cs /\
  forall s, s ∈ selectedElements e' -> ~ validEntry e s.
Proof.
  intros Hne Hcan. cbv zeta. unfold paste.
  destruct cs as [|c0 cs0] eqn:Hcs; [congruence|]. rewrite <- Hcs in *.
  unfold pasteAccepted in Hcan. rewrite Hcan. cbn [negb].
  destruct (pasteLoop_spec dx dy cs e [])
    as (Hp & Ho & Hb & Ht & Hf & _ & Hnd & Hv & Hfresh & Hlen).
  { apply NoDup_nil_2. }
  { intros s Hs. inversion Hs. }
  set (r := fold_left (pasteOne dx dy) cs (e, [])) in *.
  unfold selectionWellFormed.
  cbn [set_selected panels obstacles beams texts selectedElements].
  split; [exact Hp|]. split; [exact Ho|]. split; [exact Hb|].
  split; [exact Ht|].
  split; [destruct Hf as (F1 & F2 & F3 & F4); unfold sameFrame; simpl; auto|].
  split; [split; [exact Hnd|]|].
  - intros s Hs. specialize (Hv s Hs). unfold validEntry in *.
    destruct (Sel.type s); exact Hv.
  - split; [exact Hlen|].
    intros s Hs. destruct (Hfresh s Hs) as [H|H]; [inversion H|exact H].
Qed.

Lemma paste_rejected (dx dy : Q) (cs : list Copied) (e : Editor) :
  cs = [] \/ pasteAccepted e dx dy cs = false -> paste dx dy cs e = e.
Proof.
  unfold paste, pasteAccepted. intros [->|H]; [reflexivity|].
  destruct cs; [reflexivity|]. rewrite H. reflexivity.
Qed.

Lemma pasteAccepted_spec (dx dy : Q) (cs : list Copied) (e : Editor) :
  pasteAccepted e dx dy cs = true <->
  constructionBounds e = None \/
  forall c, c ∈ cs -> copyRespectsBound e dx dy c.
Proof.
  unfold pasteAccepted.
  assert (Hall : forallb (canPasteOne e dx dy) cs = true <->
                 forall c, c ∈ cs -> copyRespectsBound e dx dy c).
  { rewrite forallb_forall. split; intros H c Hc.
    - apply canPasteOne_spec. apply H. apply list_elem_of_In. exact Hc.
    - apply canPasteOne_spec. apply H. apply list_elem_of_In. exact Hc. }
  destruct (constructionBounds e) as [cb|].
  - rewrite Hall. split; [auto|]. intros [H|H]; [discriminate|exact H].
  - split; auto.
Qed.

(** The translated copies are the copies, each shifted by the offset. *)
Lemma pasted_shifted (dx dy : Q) (cs : list Copied) :
  Forall2 (panelShifted dx dy) (copiedPanels cs) (pastedPanels dx dy cs) /\
  Forall2 (obstacleShifted dx dy) (copiedObstacles cs)
    (pastedObstacles dx dy cs) /\
  Forall2 (beamShifted dx dy) (copiedBeams cs) (pastedBeams dx dy cs) /\
  Forall2 (textShifted dx dy) (copiedTexts cs) (pastedTexts dx dy cs).
Proof.
  unfold copiedPanels, copiedObstacles, copiedBeams, copiedTexts,
    pastedPanels, pastedObstacles, pastedBeams, pastedTexts.
  induction cs as [|c cs (Hp & Ho & Hb & Ht)];
    [repeat split; constructor|].
  destruct c; cbn [omap list_omap]; repeat split; try assumption;
    constructor; try assumption.
  - apply movePanel_shifted.
  - apply moveObstacle_shifted.
  - apply moveBeam_shifted.
  - apply moveText_shifted.
Qed.

Lemma paste_accepted_shifted (dx dy : Q) (cs : list Copied) (e : Editor) :
  cs <> [] -> pasteAccepted e dx dy cs = true ->
  pastedShifted dx dy cs e (paste dx dy cs e).
Proof.
  intros Hne Hacc.
  destruct (paste_accepted dx dy cs e Hne Hacc) as (Hp & Ho & Hb & Ht & _).
  destruct (pasted_shifted dx dy cs) as (Sp & So & Sb & St).
  unfold pastedShifted. split; [|split; [|split]].
  - exists (pastedPanels dx dy cs). split; [exact Hp|exact Sp].
  - exists (pastedObstacles dx dy cs). split; [exact Ho|exact So].
  - exists (pastedBeams dx dy cs). split; [exact Hb|exact Sb].
  - exists (pastedTexts dx dy cs). split; [exact Ht|exact St].
Qed.

(** X13.  [paste] is all or nothing.  With construction bounds set, one copy
    that would leave its bound at the offset (panel bounds for panels,
    construction bounds for beams) rejects the whole paste.  Otherwise, and
    always when no construction bounds are set, every collection grows by
    one element per copy of its kind, in clipboard order, whose coordinates
    are those of the copy increased by exactly the offset and whose other
    fields are those of the copy; nothing else changes, and the new
    selection consists of exactly one entry per copy, each referring to a
    pasted element. *)
Theorem paste_all_or_nothing (dx dy : Q) (cs : list Copied) (e : Editor) :
  let e' := paste dx dy cs e in
  (is_Some (constructionBounds e) ->
   (exists c, c ∈ cs /\ ~ copyRespectsBound e dx dy c) -> e' = e) /\
  (constructionBounds e = None \/
   (forall c, c ∈ cs -> copyRespectsBound e dx dy c) ->
   cs <> [] ->
   pastedShifted dx dy cs e e' /\
   sameFrame e e' /\
   selectionWellFormed e' /\
   length (selectedElements e') = length cs /\
   forall s, s ∈ selectedElements e' -> ~ validEntry e s).
Proof.
  cbv zeta. split.
  - intros [cb Hcb] (c & Hin & Hviol). apply paste_rejected. right.
    apply not_true_is_false. intros Hacc.
    apply pasteAccepted_spec in Hacc as [Hn|Hall]; [congruence|].
    apply Hviol. apply Hall. exact Hin.
  - intros Hok Hne.
    assert (Hacc : pasteAccepted e dx dy cs = true)
      by (apply pasteAccepted_spec; exact Hok).
    split; [apply paste_accepted_shifted; assumption|].
    destruct (paste_accepted dx dy cs e Hne Hacc) as (_ & _ & _ & _ & H).
    exact H.
Qed.

Lemma paste_all_or_nothing_witness :
  (exists p',
     panels (paste 10 20 [CPanel scenarioPanel] scenarioEditor)
     = panels scenarioEditor ++ [p'] /\
     Panel.x p' = Panel.x scenarioPanel + 10 /\
     Panel.y p' = Panel.y scenarioPanel + 20 /\
     Panel.w p' = Panel.w scenarioPanel) /\
  selectionWellFormed (paste 10 20 [CPanel scenarioPanel] scenarioEditor).
Proof.
  destruct (proj2 (paste_all_or_nothing 10 20 [CPanel scenarioPanel]
                     scenarioEditor))
    as (((ps & Hp & Hsh) & _) & _ & Hwf & _).
  - right. intros c Hc. apply list_elem_of_singleton in Hc. subst c.
    apply canPasteOne_spec. vm_compute. reflexivity.
  - discriminate.
  - split; [|exact Hwf].
    unfold copiedPanels in Hsh. cbn [omap list_omap] in Hsh.
    apply Forall2_cons_inv_l in Hsh as (p' & ps' & (Hx & Hy & Hw & _) & Hnil & ->).
    apply Forall2_nil_inv_l in Hnil as ->.
    exists p'. auto.
Defined.

(** ** The selection stays well formed *)

Lemma validEntry_ext (e e' : Editor) (sel : Sel.t) :
  panels e' = panels e -> obstacles e' = obstacles e ->
  beams e' = beams e -> texts e' = texts e ->
  validEntry e sel -> validEntry e' sel.
Proof.
  unfold validEntry. intros -> -> -> ->. auto.
Qed.

Lemma set_selected_wellFormed (sels : list Sel.t) (e : Editor) :
  NoDup sels -> (forall s, s ∈ sels -> validEntry e s) ->
  selectionWellFormed (set_selected sels e).
Proof.
  intros Hnd Hv. split; [exact Hnd|].
  intros s Hs. apply (validEntry_ext e); auto.
Qed.

Lemma applySelection_wellFormed (type : ElementKind) (index : nat)
  (isAdditive : bool) (e : Editor) :
  selectionWellFormed e -> validEntry e (Sel.mk type index) ->
  selectionWellFormed (_applySelection type index isAdditive e).
Proof.
  intros [Hnd Hv] Hnew. unfold _applySelection.
  destruct isAdditive; cbn [negb].
  - destruct (findIndex _ _) as [i|] eqn:Hfi.
    + apply findIndex_Some in Hfi as (a & Ha & _).
      destruct (elem_of_delete_NoDup (selectedElements e) i a a Hnd Ha)
        as [Hnd' _].
      apply set_selected_wellFormed; [exact Hnd'|].
      intros s Hs.
      apply (elem_of_delete_NoDup (selectedElements e) i a s Hnd Ha) in Hs.
      apply Hv. tauto.
    + apply set_selected_wellFormed.
      * apply NoDup_app. split; [exact Hnd|]. split; [|apply NoDup_singleton].
        intros s Hs Hs'. apply list_elem_of_singleton in Hs'. subst s.
        pose proof (findIndex_None _ _ Hfi _ Hs) as Hf.
        assert (Ht : sameEntry type index (Sel.mk type index) = true)
          by (apply sameEntry_true; reflexivity).
        congruence.
      * intros s Hs. apply elem_of_app in Hs as [Hs|Hs]; [auto|].
        apply list_elem_of_singleton in Hs. subst s. exact Hnew.
  - apply set_selected_wellFormed; [apply NoDup_singleton|].
    intros s Hs. apply list_elem_of_singleton in Hs. subst s. exact Hnew.
Qed.

Lemma entriesWhere_kind {A : Type} (kind : ElementKind) (f : A -> bool)
  (l : list A) (sel : Sel.t) :
  sel ∈ entriesWhere kind f l ->
  Sel.type sel = kind /\ is_Some (l !! Sel.index sel).
Proof.
  intros H. apply entriesWhere_spec in H as (i & a & -> & Ha & _).
  simpl. eauto.
Qed.

Lemma existsb_sameEntry (item : Sel.t) (sels : list Sel.t) :
  existsb (sameEntry (Sel.type item) (Sel.index item)) sels = true <->
  item ∈ sels.
Proof.
  rewrite existsb_exists. split.
  - intros (s & Hs & Hsame). apply sameEntry_true in Hsame.
    apply list_elem_of_In in Hs. destruct item. simpl in Hsame. subst s.
    exact Hs.
  - intros H. exists item. split; [apply list_elem_of_In; exact H|].
    apply sameEntry_true. destruct item; reflexivity.
Qed.

(** The additive branch of the area selection: the result has the old
    entries and the new ones, none twice. *)
Lemma addMissing_spec (sels areaSelection : list Sel.t) :
  NoDup sels ->
  NoDup (addMissing sels areaSelection) /\
  forall s, s ∈ addMissing sels areaSelection <->
            s ∈ sels \/ s ∈ areaSelection.
Proof.
  unfold addMissing. revert sels.
  induction areaSelection as [|item rest IH]; intros sels Hnd.
  - simpl. split; [exact Hnd|]. intros s. rewrite elem_of_nil. tauto.
  - cbn [fold_left].
    destruct (existsb _ sels) eqn:Hex.
    + apply existsb_sameEntry in Hex.
      destruct (IH sels Hnd) as [Hnd' Hmem]. split; [exact Hnd'|].
      intros s. rewrite Hmem, elem_of_cons. split; [tauto|].
      intros [H|[->|H]]; auto.
    + assert (Hnotin : item ∉ sels).
      { intros H. apply existsb_sameEntry in H. congruence. }
      assert (Hnd1 : NoDup (sels ++ [item])).
      { apply NoDup_app. split; [exact Hnd|]. split; [|apply NoDup_singleton].
        intros s Hs Hs'. apply list_elem_of_singleton in Hs'. subst s. auto. }
      destruct (IH _ Hnd1) as [Hnd' Hmem]. split; [exact Hnd'|].
      intros s. rewrite Hmem, elem_of_app, list_elem_of_singleton, elem_of_cons.
      tauto.
Qed.

(** The entries the area selection collects: one per element whose
    rectangle meets the selection rectangle, none twice. *)
Lemma areaSelection_wellFormed {P O B T : Type}
  (fp : P -> bool) (ft : T -> bool) (fo : O -> bool) (fb : B -> bool)
  (ps : list P) (ts : list T) (os : list O) (bs : list B) :
  NoDup (entriesWhere KPanel fp ps ++ entriesWhere KText ft ts ++
         entriesWhere KObstacle fo os ++ entriesWhere KBeam fb bs).
Proof.
  repeat (apply NoDup_app; split; [apply entriesWhere_NoDup|]; split);
    try apply entriesWhere_NoDup;
    intros s Hs Hs'; apply entriesWhere_kind in Hs as [Hk _];
    repeat (apply elem_of_app in Hs' as [Hs'|Hs']);
    apply entriesWhere_kind in Hs' as [Hk' _]; congruence.
Qed.

Lemma moveAll_keeps (dx dy : Q) (sels : list Sel.t) (e e' : Editor) :
  moveAll dx dy sels e = Some e' ->
  selectedElements e' = selectedElements e /\
  forall s, validEntry e s -> validEntry e' s.
Proof.
  revert e. induction sels as [|sel rest IH]; intros e; simpl.
  - intros [= <-]. auto.
  - destruct (moveOne dx dy e sel) as [e1|] eqn:H1; [|discriminate].
    intros H. destruct (IH _ H) as [Hs Hv].
    split.
    + rewrite Hs. unfold moveOne in H1.
      destruct (Sel.type sel);
        (destruct (_ !! Sel.index sel); [|discriminate]);
        injection H1 as <-; reflexivity.
    + intros s Hval. apply Hv. apply (oneMoved_valid e e1 sel s dx dy H1 Hval).
Qed.

(** X14.  Every handler that sets or keeps the selection (clicking, area
    selection, tool change, paste, moving) leaves it well formed: no entry
    twice, every entry referring to an existing element. *)
Theorem selection_stays_well_formed (e e' : Editor) :
  selectionWellFormed e -> selectionStep e e' -> selectionWellFormed e'.
Proof.
  intros Hwf Hstep. destruct Hstep.
  - apply applySelection_wellFormed; assumption.
  - unfold _handleSelect, _getTextIndexAt.
    destruct (findLastIndex _ (texts e)) as [i|] eqn:Ht.
    { apply applySelection_wellFormed; [exact Hwf|].
      apply findLastIndex_Some in Ht as [(a & Ha & _) _].
      unfold validEntry; simpl; eauto. }
    destruct (findLastIndex _ (panels e)) as [i|] eqn:Hp.
    { apply applySelection_wellFormed; [exact Hwf|].
      apply findLastIndex_Some in Hp as [(a & Ha & _) _].
      unfold validEntry; simpl; eauto. }
    destruct (findLastIndex _ (obstacles e)) as [i|] eqn:Ho.
    { apply applySelection_wellFormed; [exact Hwf|].
      apply findLastIndex_Some in Ho as [(a & Ha & _) _].
      unfold validEntry; simpl; eauto. }
    destruct (findLastIndex _ (beams e)) as [i|] eqn:Hb.
    { apply applySelection_wellFormed; [exact Hwf|].
      apply findLastIndex_Some in Hb as [(a & Ha & _) _].
      unfold validEntry; simpl; eauto. }
    destruct isAdditive; cbn [negb]; [exact Hwf|].
    apply set_selected_wellFormed; [apply NoDup_nil_2|].
    intros s Hs. inversion Hs.
  - unfold _finishAreaSelect. destruct selectionRect as [sr|]; [|exact Hwf].
    cbv zeta. unfold areaSelectBeams. cbv zeta.
    match goal with
    | |- context [entriesWhere KPanel ?fp (panels e) ++
                  entriesWhere KText ?ft (texts e) ++
                  entriesWhere KObstacle ?fo (obstacles e) ++ ?bsel] =>
        set (area := entriesWhere KPanel fp (panels e) ++
                     entriesWhere KText ft (texts e) ++
                     entriesWhere KObstacle fo (obstacles e) ++ bsel);
        assert (Hnd : NoDup area)
          by (apply (areaSelection_wellFormed fp ft fo
                       (fun b => _lineIntersectsRect (Beam.x1 b) (Beam.y1 b)
                                   (Beam.x2 b) (Beam.y2 b)
                                   (normalizeSelectionRect sr))));
        assert (Hv : forall s, s ∈ area -> validEntry e s)
    end.
    { intros s Hs. subst area.
      repeat (apply elem_of_app in Hs as [Hs|Hs]);
        (apply (entriesWhere_kind _ (fun b => _lineIntersectsRect
                     (Beam.x1 b) (Beam.y1 b) (Beam.x2 b) (Beam.y2 b)
                     (normalizeSelectionRect sr))) in Hs as [Hk Hi]
         || apply entriesWhere_kind in Hs as [Hk Hi]);
        unfold validEntry; rewrite Hk; exact Hi. }
    clearbody area. destruct Hwf as [Hnd0 Hv0].
    destruct isAreaAdditive.
    + destruct (addMissing_spec (selectedElements e) area Hnd0) as [Hnd' Hmem].
      apply set_selected_wellFormed; [exact Hnd'|].
      intros s Hs. apply Hmem in Hs as [Hs|Hs]; auto.
    + apply set_selected_wellFormed; assumption.
  - unfold setTool. cbv zeta.
    destruct (String.eqb tool "select-structure").
    + split; [apply entriesWhere_NoDup|].
      intros s Hs. simpl in Hs. apply entriesWhere_kind in Hs as [Hk Hi].
      unfold validEntry. rewrite Hk. exact Hi.
    + split; [apply NoDup_nil_2|]. intros s Hs. inversion Hs.
  - destruct copiedElements as [|c0 cs0] eqn:Hcs.
    { rewrite paste_rejected by auto. exact Hwf. }
    rewrite <- Hcs.
    destruct (pasteAccepted e ox oy copiedElements) eqn:Hacc.
    + apply paste_accepted; [congruence|exact Hacc].
    + rewrite paste_rejected by auto. exact Hwf.
  - destruct Hwf as [Hnd Hv].
    assert (Hall : forall e1, moveAll dx dy (selectedElements e) e = Some e1 ->
                              selectionWellFormed e1).
    { intros e1 H1. apply moveAll_keeps in H1 as [Hs Hval].
      split; rewrite Hs; auto. }
    unfold _moveSelected in H.
    destruct (selectedElements e) as [|s0 rest] eqn:Hsel.
    + injection H as <-. split; rewrite Hsel; auto.
    + destruct (constructionBounds e).
      * destruct (every _ _) as [[|]|]; [auto| |discriminate].
        injection H as <-. split; rewrite Hsel; auto.
      * auto.
Qed.

Lemma selection_stays_well_formed_witness :
  selectionWellFormed (paste 10 10 [CPanel scenarioPanel] scenarioEditor).
Proof.
  apply (selection_stays_well_formed scenarioEditor).
  - split.
    + simpl. apply NoDup_singleton.
    + intros s Hs. simpl in Hs. apply list_elem_of_singleton in Hs. subst s.
      unfold validEntry. simpl. eauto.
  - apply step_paste.
Defined.

(** ** Drawing obstacles and beams *)

Lemma lastIndex_snoc {A : Type} (l : list A) (a : A) :
  lastIndex (l ++ [a]) = length l.
Proof. unfold lastIndex. rewrite length_app. simpl. lia. Qed.

Lemma lookup_snoc {A : Type} (l : list A) (a : A) :
  (l ++ [a]) !! length l = Some a.
Proof.
  rewrite lookup_app_r by lia. rewrite Nat.sub_diag. reflexivity.
Qed.

Lemma insert_snoc {A : Type} (l : list A) (a b : A) :
  <[length l := b]> (l ++ [a]) = l ++ [b].
Proof.
  induction l as [|x l IH]; [reflexivity|].
  simpl. f_equal. exact IH.
Qed.

Lemma dragThrough_snoc (step : Point.t -> Editor -> option Editor)
  (moves : list Point.t) (m : Point.t) (e : Editor) :
  dragThrough step (moves ++ [m]) e = dragThrough step moves e ≫= step m.
Proof.
  unfold dragThrough. rewrite fold_left_app. reflexivity.
Qed.

Lemma normalizeObstacle_spec (o : Obstacle.t) :
  let o' := normalizeObstacle o in
  Obstacle.x o' == Qmin (Obstacle.x o) (Obstacle.x o + Obstacle.w o) /\
  Obstacle.y o' == Qmin (Obstacle.y o) (Obstacle.y o + Obstacle.h o) /\
  Obstacle.w o' == Qabs (Obstacle.w o) /\
  Obstacle.h o' == Qabs (Obstacle.h o) /\
  Obstacle.type o' = Obstacle.type o.
Proof.
  destruct o as [x y w h ty]. unfold normalizeObstacle. cbn [Obstacle.w].
  destruct (Qltb w 0) eqn:Hw; cbn [Obstacle.h Obstacle.x Obstacle.y Obstacle.w Obstacle.type];
    destruct (Qltb h 0) eqn:Hh; cbn [Obstacle.h Obstacle.x Obstacle.y Obstacle.w Obstacle.type];
    try apply Qltb_lt in Hw; try apply Qltb_ge in Hw;
    try apply Qltb_lt in Hh; try apply Qltb_ge in Hh;
    repeat split;
    try reflexivity;
    try (apply Q.min_case_strong; intros; lra);
    try (apply Qabs_case; intros; lra).
Qed.

(** The obstacle being drawn, after the mouse moves so far. *)
Lemma updateObstacle_drag (v : View) (start : Point.t) (moves : list Point.t)
  (e : Editor) :
  exists e1 o,
    dragThrough (_updateObstacle v) moves (_startObstacle start e) = Some e1 /\
    obstacles e1 = obstacles e ++ [o] /\
    Obstacle.x o = Point.x start /\ Obstacle.y o = Point.y start /\
    Obstacle.w o == Point.x (obstacleCorner v start moves) - Point.x start /\
    Obstacle.h o == Point.y (obstacleCorner v start moves) - Point.y start /\
    Obstacle.type o = "column"%string /\
    sameFrame e e1 /\ panels e1 = panels e /\ beams e1 = beams e /\
    texts e1 = texts e /\ selectedElements e1 = selectedElements e /\
    tempPoints e1 = tempPoints e.
Proof.
  induction moves as [|m moves IH] using rev_ind.
  - eexists. eexists. split; [reflexivity|].
    unfold sameFrame, obstacleCorner, _startObstacle.
    cbn [last set_obstacles obstacles scale terraceVertices constructionBounds
         panelBounds panels beams texts selectedElements tempPoints
         Obstacle.x Obstacle.y Obstacle.w Obstacle.h Obstacle.type].
    repeat split; try reflexivity; cbn [Obstacle.w Obstacle.h]; lra.
  - destruct IH as (e1 & o & Hd & Hos & Hx & Hy & _ & _ & Hty & Hf & Hp & Hb
                    & Ht & Hs & Htp).
    rewrite dragThrough_snoc, Hd. cbn [mbind option_bind].
    unfold _updateObstacle. rewrite Hos, lastIndex_snoc, lookup_snoc.
    rewrite insert_snoc. eexists. eexists. split; [reflexivity|].
    unfold obstacleCorner. rewrite last_snoc.
    destruct Hf as (F1 & F2 & F3 & F4). unfold sameFrame.
    cbn [set_obstacles obstacles scale terraceVertices constructionBounds
         panelBounds panels beams texts selectedElements tempPoints
         Obstacle.x Obstacle.y Obstacle.w Obstacle.h Obstacle.type
         Point.x Point.y].
    rewrite Hx, Hy. repeat split; auto; reflexivity.
Qed.

(** X15.  Press, drag and release with the obstacle tool: the obstacle spans
    the rectangle between the point pressed and the snapped last position of
    the mouse, with non-negative sides, whichever way it was dragged; it is
    dropped when both sides are shorter than 2.  Nothing else changes. *)
Theorem obstacle_drawing (v : View) (start : Point.t) (moves : list Point.t)
  (e : Editor) :
  0 < gridSize v ->
  let corner := obstacleCorner v start moves in
  let dw := Qabs (Point.x corner - Point.x start) in
  let dh := Qabs (Point.y corner - Point.y start) in
  exists e',
    drawObstacle v start moves e = Some e' /\
    sameFrame e e' /\ panels e' = panels e /\ beams e' = beams e /\
    texts e' = texts e /\ selectedElements e' = selectedElements e /\
    (dw < 2 /\ dh < 2 -> obstacles e' = obstacles e) /\
    (~ (dw < 2 /\ dh < 2) ->
     exists o,
       obstacles e' = obstacles e ++ [o] /\
       Obstacle.x o == Qmin (Point.x start) (Point.x corner) /\
       Obstacle.y o == Qmin (Point.y start) (Point.y corner) /\
       Obstacle.w o == dw /\ Obstacle.h o == dh /\
       Obstacle.type o = "column"%string).
Proof.
  intros _. cbv zeta.
  destruct (updateObstacle_drag v start moves e)
    as (e1 & o & Hd & Hos & Hx & Hy & Hw & Hh & Hty & Hf & Hp & Hb & Ht & Hs
        & _).
  set (corner := obstacleCorner v start moves) in *.
  unfold drawObstacle. rewrite Hd. cbn [mbind option_bind].
  unfold _finishObstacle. rewrite Hos, lastIndex_snoc, lookup_snoc, insert_snoc.
  destruct (normalizeObstacle_spec o) as (Nx & Ny & Nw & Nh & Nty).
  set (o' := normalizeObstacle o) in *.
  assert (Ew : Obstacle.w o' == Qabs (Point.x corner - Point.x start)).
  { rewrite Nw. rewrite Hw. reflexivity. }
  assert (Eh : Obstacle.h o' == Qabs (Point.y corner - Point.y start)).
  { rewrite Nh. rewrite Hh. reflexivity. }
  eexists. split; [reflexivity|].
  destruct Hf as (F1 & F2 & F3 & F4). unfold sameFrame.
  cbn [set_obstacles obstacles scale terraceVertices constructionBounds
       panelBounds panels beams texts selectedElements].
  split; [repeat split; assumption|].
  repeat (split; [assumption|]).
  destruct (Qltb (Obstacle.w o') 2 && Qltb (Obstacle.h o') 2) eqn:Hsmall.
  - split.
    + intros _. apply removelast_last.
    + intros Hnot. exfalso. apply Hnot.
      apply andb_true_iff in Hsmall as [H1 H2].
      apply Qltb_lt in H1, H2. rewrite Ew in H1. rewrite Eh in H2. auto.
  - split.
    + intros [H1 H2]. exfalso.
      apply andb_false_iff in Hsmall as [H|H]; apply Qltb_ge in H.
      * rewrite Ew in H. lra.
      * rewrite Eh in H. lra.
    + intros _. exists o'. split; [reflexivity|].
      split; [|split; [|split; [exact Ew|split; [exact Eh|congruence]]]].
      * rewrite Nx, Hx.
        destruct (Q.min_spec (Point.x start) (Point.x start + Obstacle.w o))
          as [[? ?]|[? ?]];
          destruct (Q.min_spec (Point.x start) (Point.x corner))
            as [[? ?]|[? ?]]; lra.
      * rewrite Ny, Hy.
        destruct (Q.min_spec (Point.y start) (Point.y start + Obstacle.h o))
          as [[? ?]|[? ?]];
          destruct (Q.min_spec (Point.y start) (Point.y corner))
            as [[? ?]|[? ?]]; lra.
Qed.

Lemma obstacle_drawing_witness :
  exists e',
    drawObstacle (mkView 50 50 1 10 true) (Point.mk 100 100)
      [Point.mk 52 61; Point.mk 38 73] scenarioEditor = Some e' /\
    exists o,
      obstacles e' = obstacles scenarioEditor ++ [o] /\
      Obstacle.x o == 40 /\ Obstacle.y o == 70 /\
      Obstacle.w o == 60 /\ Obstacle.h o == 30.
Proof.
  destruct (obstacle_drawing (mkView 50 50 1 10 true) (Point.mk 100 100)
              [Point.mk 52 61; Point.mk 38 73] scenarioEditor)
    as (e' & Hd & _ & _ & _ & _ & _ & _ & Hkept).
  - reflexivity.
  - exists e'. split; [exact Hd|].
    destruct Hkept as (o & Hos & Hx & Hy & Hw & Hh & _).
    + intros [H _]. vm_compute in H. discriminate.
    + exists o. split; [exact Hos|].
      split; [vm_compute in Hx; vm_compute; exact Hx|].
      split; [vm_compute in Hy; vm_compute; exact Hy|].
      split; [vm_compute in Hw; vm_compute; exact Hw|].
      vm_compute in Hh; vm_compute; exact Hh.
Defined.

Lemma isWithinConstructionBounds_frame (e e' : Editor) (px py : Q) :
  constructionBounds e' = constructionBounds e ->
  _isWithinConstructionBounds e' px py = _isWithinConstructionBounds e px py.
Proof.
  unfold _isWithinConstructionBounds. intros ->. reflexivity.
Qed.

Lemma isWithinConstructionBounds_inside (e : Editor) (px py : Q) :
  _isWithinConstructionBounds e px py = true <->
  forall cb, constructionBounds e = Some cb -> pointInside cb px py.
Proof.
  destruct (constructionBounds e) as [cb|] eqn:Hcb.
  - rewrite (isWithinConstructionBounds_spec e cb) by exact Hcb. split.
    + intros H cb' [= <-]. exact H.
    + intros H. exact (H cb eq_refl).
  - unfold _isWithinConstructionBounds. rewrite Hcb.
    split; [intros _ cb; discriminate|reflexivity].
Qed.

Lemma beamEnd_snoc (e : Editor) (v : View) (start : Point.t)
  (moves : list Point.t) (m : Point.t) :
  beamEnd e v start (moves ++ [m]) =
  if _isWithinConstructionBounds e (snap v (Point.x m)) (snap v (Point.y m))
  then Point.mk (snap v (Point.x m)) (snap v (Point.y m))
  else beamEnd e v start moves.
Proof.
  unfold beamEnd. rewrite fold_left_app. reflexivity.
Qed.

Lemma beamEnd_inside (e : Editor) (v : View) (start : Point.t)
  (moves : list Point.t) :
  _isWithinConstructionBounds e (Point.x start) (Point.y start) = true ->
  _isWithinConstructionBounds e (Point.x (beamEnd e v start moves))
    (Point.y (beamEnd e v start moves)) = true.
Proof.
  intros Hstart. induction moves as [|m moves IH] using rev_ind.
  - exact Hstart.
  - rewrite beamEnd_snoc.
    destruct (_isWithinConstructionBounds e (snap v (Point.x m))
                (snap v (Point.y m))) eqn:Hm; [exact Hm|exact IH].
Qed.

(** The beam being drawn, after the mouse moves so far. *)
Lemma updateBeam_drag (v : View) (beamProfile : option string)
  (start : Point.t) (moves : list Point.t) (e : Editor) :
  _isWithinConstructionBounds e (Point.x start) (Point.y start) = true ->
  exists e1,
    dragThrough (_updateBeam v) moves (_startBeam beamProfile start e)
    = Some e1 /\
    beams e1 =
      beams e ++ [Beam.mk (Point.x start) (Point.y start)
                    (Point.x (beamEnd e v start moves))
                    (Point.y (beamEnd e v start moves))
                    (profileOrDefault beamProfile) false] /\
    sameFrame e e1 /\ panels e1 = panels e /\ obstacles e1 = obstacles e /\
    texts e1 = texts e /\ selectedElements e1 = selectedElements e /\
    tempPoints e1 = tempPoints e.
Proof.
  intros Hstart. induction moves as [|m moves IH] using rev_ind.
  - eexists. split.
    + unfold dragThrough, _startBeam. rewrite Hstart. reflexivity.
    + unfold sameFrame. simpl. auto 10.
  - destruct IH as (e1 & Hd & Hbs & Hf & Hp & Ho & Ht & Hs & Htp).
    rewrite dragThrough_snoc, Hd. cbn [mbind option_bind].
    rewrite beamEnd_snoc. unfold _updateBeam.
    rewrite (isWithinConstructionBounds_frame e e1) by apply Hf.
    destruct (_isWithinConstructionBounds e (snap v (Point.x m))
                (snap v (Point.y m))) eqn:Hm; cbn [negb].
    + rewrite Hbs, lastIndex_snoc, lookup_snoc, insert_snoc.
      eexists. split; [reflexivity|].
      destruct Hf as (F1 & F2 & F3 & F4). unfold sameFrame. simpl. auto 10.
    + exists e1. auto 10.
Qed.

(** While nothing is being drawn the moves of the mouse change nothing. *)
Lemma dragThrough_idle (v : View) (moves : list Point.t) (e : Editor) :
  dragThrough (beamToolMove v false) moves e = Some e.
Proof.
  unfold dragThrough. induction moves as [|m moves IH] using rev_ind.
  - reflexivity.
  - rewrite fold_left_app. cbn [fold_left]. rewrite IH. reflexivity.
Qed.

(** X16.  Press, drag and release with the beam tool, when nothing is being
    drawn at the press.  A press outside the construction bounds starts
    nothing: the flag [isDrawing] stays unset, so that neither the moves nor
    the release touch the editor.  Otherwise the beam runs from the point
    pressed to the last snapped position of the mouse that lies within the
    construction bounds; both ends lie within them, so that on release the
    beam is dropped exactly when it is shorter than 5. *)
Theorem beam_drawing (sqrt : Q -> Q) (v : View) (beamProfile : option string)
  (start : Point.t) (moves : list Point.t) (e : Editor) :
  0 < gridSize v ->
  (_isWithinConstructionBounds e (Point.x start) (Point.y start) = false ->
   _startBeam_isDrawing false start e = false /\
   drawBeam sqrt v beamProfile start moves e = Some e) /\
  (_isWithinConstructionBounds e (Point.x start) (Point.y start) = true ->
   let p := beamEnd e v start moves in
   let b := Beam.mk (Point.x start) (Point.y start) (Point.x p) (Point.y p)
              (profileOrDefault beamProfile) false in
   let length :=
     sqrt ((Beam.x2 b - Beam.x1 b) ^ 2 + (Beam.y2 b - Beam.y1 b) ^ 2) in
   exists e',
     drawBeam sqrt v beamProfile start moves e = Some e' /\
     sameFrame e e' /\ panels e' = panels e /\ obstacles e' = obstacles e /\
     texts e' = texts e /\ selectedElements e' = selectedElements e /\
     (forall cb, constructionBounds e = Some cb ->
        pointInside cb (Beam.x1 b) (Beam.y1 b) /\
        pointInside cb (Beam.x2 b) (Beam.y2 b)) /\
     (length < 5 -> beams e' = beams e) /\
     (5 <= length -> beams e' = beams e ++ [b])).
Proof.
  intros _. split.
  - intros H. unfold drawBeam, _startBeam_isDrawing, _startBeam. rewrite H.
    cbn [negb]. split; [reflexivity|].
    rewrite dragThrough_idle. reflexivity.
  - intros Hstart. cbv zeta.
    destruct (updateBeam_drag v beamProfile start moves e Hstart)
      as (e1 & Hd & Hbs & Hf & Hp & Ho & Ht & Hs & _).
    pose proof (beamEnd_inside e v start moves Hstart) as Hend.
    set (p := beamEnd e v start moves) in *.
    assert (Hline : _isLineWithinConstructionBounds e1 (Point.x start)
                      (Point.y start) (Point.x p) (Point.y p) = true).
    { apply isLineWithinConstructionBounds_spec. intros cb Hcb.
      destruct Hf as (_ & _ & F3 & _). rewrite F3 in Hcb.
      split; apply (isWithinConstructionBounds_inside e); assumption. }
    unfold drawBeam, _startBeam_isDrawing. rewrite Hstart. cbn [negb].
    change (beamToolMove v true) with (_updateBeam v).
    rewrite Hd. cbn [mbind option_bind].
    unfold beamToolUp, _finishBeam. rewrite Hbs, lastIndex_snoc, lookup_snoc.
    cbn [Beam.x1 Beam.y1 Beam.x2 Beam.y2]. rewrite Hline. cbn [negb].
    rewrite removelast_last.
    destruct (Qltb _ 5) eqn:Hlen.
    + eexists. split; [reflexivity|].
      destruct Hf as (F1 & F2 & F3 & F4). unfold sameFrame.
      cbn [set_beams beams scale terraceVertices constructionBounds
           panelBounds panels obstacles texts selectedElements].
      split; [repeat split; assumption|].
      repeat (split; [assumption|]).
      split; [|split].
      * intros cb Hcb.
        split; apply (isWithinConstructionBounds_inside e); assumption.
      * reflexivity.
      * intros Hge. apply Qltb_lt in Hlen. lra.
    + exists e1. split; [reflexivity|].
      split; [exact Hf|]. repeat (split; [assumption|]).
      split; [|split].
      * intros cb Hcb.
        split; apply (isWithinConstructionBounds_inside e); assumption.
      * intros Hlt. apply Qltb_ge in Hlen. lra.
      * intros _. exact Hbs.
Qed.

Lemma beam_drawing_witness :
  drawBeam (fun _ => 150) (mkView 50 50 1 10 true) None (Point.mk 900 0)
    [Point.mk 149 1; Point.mk 100 0]
    (set_beams [Beam.mk 0 0 100 0 "IPN-80" false] scenarioEditor)
  = Some (set_beams [Beam.mk 0 0 100 0 "IPN-80" false] scenarioEditor) /\
  exists e',
    drawBeam (fun _ => 150) (mkView 50 50 1 10 true) None (Point.mk 0 0)
      [Point.mk 149 1; Point.mk 900 0] scenarioEditor = Some e' /\
    beams e' = beams scenarioEditor ++ [Beam.mk 0 0 150 0 "IPN-80" false].
Proof.
  split.
  { apply (proj1 (beam_drawing (fun _ => 150) (mkView 50 50 1 10 true) None
                    (Point.mk 900 0) [Point.mk 149 1; Point.mk 100 0]
                    (set_beams [Beam.mk 0 0 100 0 "IPN-80" false]
                       scenarioEditor) eq_refl)).
    reflexivity. }
  destruct (proj2 (beam_drawing (fun _ => 150) (mkView 50 50 1 10 true) None
                     (Point.mk 0 0) [Point.mk 149 1; Point.mk 900 0]
                     scenarioEditor eq_refl))
    as (e' & Hd & _ & _ & _ & _ & _ & _ & _ & Hkept).
  - reflexivity.
  - exists e'. split; [exact Hd|]. rewrite Hkept.
    + vm_compute. reflexivity.
    + vm_compute. discriminate.
Defined.

(** ** Elements stay within their bounds *)

Lemma elem_of_insert_inv {A : Type} (l : list A) (i : nat) (x y : A) :
  y ∈ <[i := x]> l -> y = x \/ y ∈ l.
Proof.
  revert i. induction l as [|a l IH]; intros i H.
  - inversion H.
  - destruct i as [|i]; cbn [insert list_insert] in H;
      apply elem_of_cons in H as [->|H]; auto.
    + right. apply elem_of_cons. auto.
    + right. apply elem_of_cons. auto.
    + destruct (IH i H) as [->|H']; auto. right. apply elem_of_cons. auto.
Qed.

Lemma elem_of_removelast {A : Type} (l : list A) (x : A) :
  x ∈ removelast l -> x ∈ l.
Proof.
  rewrite removelast_firstn_len. intros H.
  apply (elem_of_sublist _ _ _ H). apply sublist_take.
Qed.

Lemma fold_deleteOfKind_subset {A : Type} (kind : ElementKind)
  (sels : list Sel.t) (l : list A) (x : A) :
  x ∈ fold_left (deleteOfKind kind) sels l -> x ∈ l.
Proof.
  revert l. induction sels as [|s sels IH]; intros l H; [exact H|].
  cbn [fold_left] in H. apply IH in H. unfold deleteOfKind in H.
  destruct (decide (Sel.type s = kind)); [|exact H].
  apply list_elem_of_delete_inv in H. exact H.
Qed.

Lemma applySelection_NoDup (type : ElementKind) (index : nat)
  (isAdditive : bool) (e : Editor) :
  NoDup (selectedElements e) ->
  NoDup (selectedElements (_applySelection type index isAdditive e)).
Proof.
  intros Hnd. unfold _applySelection. destruct isAdditive; cbn [negb].
  - destruct (findIndex _ _) as [i|] eqn:Hfi; cbn [set_selected selectedElements].
    + apply findIndex_Some in Hfi as (a & Ha & _).
      apply (elem_of_delete_NoDup (selectedElements e) i a a Hnd Ha).
    + apply NoDup_app. split; [exact Hnd|]. split; [|apply NoDup_singleton].
      intros s Hs Hs'. apply list_elem_of_singleton in Hs'. subst s.
      pose proof (findIndex_None _ _ Hfi _ Hs) as Hf.
      assert (Ht : sameEntry type index (Sel.mk type index) = true)
        by (apply sameEntry_true; reflexivity).
      congruence.
  - apply NoDup_singleton.
Qed.

Lemma boundedKept_refl (e : Editor) : boundedKept e e.
Proof. unfold boundedKept, sameFrame. auto 10. Qed.

Lemma applySelection_boundedKept (type : ElementKind) (index : nat)
  (isAdditive : bool) (e : Editor) :
  boundedKept e (_applySelection type index isAdditive e).
Proof.
  unfold _applySelection, boundedKept, sameFrame.
  destruct isAdditive; cbn [negb]; [destruct (findIndex _ _)|]; simpl; auto 10.
Qed.

Lemma elementsInside_grow (e e' : Editor) :
  constructionBounds e' = constructionBounds e ->
  panelBounds e' = panelBounds e ->
  (forall cb b, constructionBounds e = Some cb -> b ∈ beams e' ->
     b ∈ beams e \/
     (pointInside cb (Beam.x1 b) (Beam.y1 b) /\
      pointInside cb (Beam.x2 b) (Beam.y2 b))) ->
  (forall pb p, panelBounds e = Some pb -> p ∈ panels e' ->
     p ∈ panels e \/
     rectInside pb (Panel.x p) (Panel.y p) (Panel.w p) (Panel.h p)) ->
  elementsInside e -> elementsInside e'.
Proof.
  intros Hcb Hpb Hbs Hps [Hb Hp]. split.
  - intros cb b Hcb' Hin. rewrite Hcb in Hcb'.
    destruct (Hbs cb b Hcb' Hin) as [H|H]; [exact (Hb cb b Hcb' H)|exact H].
  - intros pb p Hpb' Hin. rewrite Hpb in Hpb'.
    destruct (Hps pb p Hpb' Hin) as [H|H]; [exact (Hp pb p Hpb' H)|exact H].
Qed.

Lemma editInvariant_boundedKept (e e' : Editor) :
  boundedKept e e' -> NoDup (selectedElements e') ->
  editInvariant e -> editInvariant e'.
Proof.
  intros ((_ & _ & F3 & F4) & Hp & Hb) Hnd (Hc & _ & Hin).
  split; [|split; [exact Hnd|]].
  - unfold boundsCoupled. rewrite F3, F4. exact Hc.
  - apply (elementsInside_grow e); auto.
    + intros cb b _ H. left. rewrite <- Hb. exact H.
    + intros pb p _ H. left. rewrite <- Hp. exact H.
Qed.

Lemma moveOne_Some_valid (dx dy : Q) (e e1 : Editor) (sel : Sel.t) :
  moveOne dx dy e sel = Some e1 ->
  validEntry e sel /\ forall s, validEntry e1 s -> validEntry e s.
Proof.
  unfold moveOne, validEntry.
  destruct (Sel.type sel) eqn:Hk;
    (destruct (_ !! Sel.index sel) eqn:Hi; [|discriminate]);
    intros [= <-]; (split; [eauto|]);
    intros s; destruct (Sel.type s); simpl; auto;
    rewrite !lookup_lt_is_Some, length_alter; auto.
Qed.

Lemma moveAll_Some_valid (dx dy : Q) (sels : list Sel.t) (e e' : Editor) :
  moveAll dx dy sels e = Some e' -> forall s, s ∈ sels -> validEntry e s.
Proof.
  revert e. induction sels as [|sel rest IH]; intros e H s Hs.
  - inversion Hs.
  - simpl in H. destruct (moveOne dx dy e sel) as [e1|] eqn:H1; [|discriminate].
    apply moveOne_Some_valid in H1 as [Hv Hback].
    apply elem_of_cons in Hs as [->|Hs]; [exact Hv|].
    apply Hback. exact (IH e1 H s Hs).
Qed.

(** Moving an accepted selection keeps the elements within their bounds. *)
Lemma moveAll_inside (dx dy : Q) (e e' : Editor) :
  NoDup (selectedElements e) ->
  (forall s, s ∈ selectedElements e -> respectsBound e dx dy s) ->
  moveAll dx dy (selectedElements e) e = Some e' ->
  elementsInside e -> elementsInside e'.
Proof.
  intros Hnd Hok Hmove Hin.
  pose proof (moveAll_Some_valid _ _ _ _ _ Hmove) as Hvalid.
  destruct (moveAll_spec dx dy (selectedElements e) e Hnd Hvalid)
    as (e'' & Hmove' & Hp & _ & Hb & _ & Hf & _).
  rewrite Hmove in Hmove'. injection Hmove' as <-.
  destruct Hf as (_ & _ & F3 & F4).
  apply (elementsInside_grow e); auto.
  - intros cb b Hcb Hb'. apply list_elem_of_lookup in Hb' as [i Hi].
    rewrite (Hb i) in Hi.
    destruct (decide (Sel.mk KBeam i ∈ selectedElements e)) as [Hsel|_].
    + right. destruct (beams e !! i) as [b0|] eqn:Hb0; [|discriminate].
      injection Hi as <-.
      exact (Hok _ Hsel b0 cb Hb0 Hcb).
    + left. apply list_elem_of_lookup. eauto.
  - intros pb p Hpb Hp'. apply list_elem_of_lookup in Hp' as [i Hi].
    rewrite (Hp i) in Hi.
    destruct (decide (Sel.mk KPanel i ∈ selectedElements e)) as [Hsel|_].
    + right. destruct (panels e !! i) as [p0|] eqn:Hp0; [|discriminate].
      injection Hi as <-.
      exact (Hok _ Hsel p0 pb Hp0 Hpb).
    + left. apply list_elem_of_lookup. eauto.
Qed.

Lemma moveSelected_invariant (dx dy : Q) (e e' : Editor) :
  _moveSelected dx dy e = Some e' -> editInvariant e -> editInvariant e'.
Proof.
  intros Hmove (Hc & Hnd & Hin).
  assert (Hall : moveAll dx dy (selectedElements e) e = Some e' ->
                 (forall s, s ∈ selectedElements e -> respectsBound e dx dy s) ->
                 editInvariant e').
  { intros H Hok.
    pose proof (moveAll_keeps _ _ _ _ _ H) as [Hs _].
    pose proof (moveAll_frame _ _ _ _ _ H) as (_ & _ & F3 & F4).
    split; [|split].
    - unfold boundsCoupled. rewrite F3, F4. exact Hc.
    - rewrite Hs. exact Hnd.
    - exact (moveAll_inside dx dy e e' Hnd Hok H Hin). }
  unfold _moveSelected in Hmove.
  destruct (selectedElements e) as [|s0 rest] eqn:Hsel.
  { injection Hmove as <-. split; [exact Hc|]. split; [|exact Hin].
    rewrite Hsel. apply NoDup_nil_2. }
  rewrite <- Hsel in *.
  destruct (constructionBounds e) as [cb|] eqn:Hcb.
  - destruct (every _ _) as [[|]|] eqn:Hev; [| |discriminate].
    + apply Hall; [exact Hmove|].
      pose proof (moveAll_Some_valid _ _ _ _ _ Hmove) as Hvalid.
      destruct (every_spec (canMoveOne e dx dy) (respectsBound e dx dy)
                  (selectedElements e)) as (b & Hb & Hiff).
      { intros s Hs. apply canMoveOne_spec. apply Hvalid. exact Hs. }
      rewrite Hev in Hb. injection Hb as <-. apply Hiff. reflexivity.
    + injection Hmove as <-. split; [exact Hc|]. split; [exact Hnd|exact Hin].
  - apply Hall; [exact Hmove|].
    assert (Hpb : panelBounds e = None) by (apply Hc; exact Hcb).
    intros s _. unfold respectsBound.
    destruct (Sel.type s); auto; intros x bd _ H; congruence.
Qed.

Lemma pasted_beam (dx dy : Q) (cs : list Copied) (b' : Beam.t) :
  b' ∈ pastedBeams dx dy cs ->
  exists b, CBeam b ∈ cs /\ b' = moveBeam dx dy b.
Proof.
  unfold pastedBeams. rewrite list_elem_of_omap.
  intros (c & Hc & Hsome). destruct c; try discriminate.
  injection Hsome as <-. eauto.
Qed.

Lemma pasted_panel (dx dy : Q) (cs : list Copied) (p' : Panel.t) :
  p' ∈ pastedPanels dx dy cs ->
  exists p, CPanel p ∈ cs /\ p' = movePanel dx dy p.
Proof.
  unfold pastedPanels. rewrite list_elem_of_omap.
  intros (c & Hc & Hsome). destruct c; try discriminate.
  injection Hsome as <-. eauto.
Qed.

Lemma paste_invariant (dx dy : Q) (cs : list Copied) (e : Editor) :
  editInvariant e -> editInvariant (paste dx dy cs e).
Proof.
  intros (Hc & Hnd & Hin).
  destruct cs as [|c0 cs0] eqn:Hcs.
  { rewrite paste_rejected by auto. split; auto. }
  rewrite <- Hcs.
  destruct (pasteAccepted e dx dy cs) eqn:Hacc.
  2:{ rewrite paste_rejected by auto. split; auto. }
  destruct (paste_accepted dx dy cs e) as (Hp & _ & Hb & _ & Hf & Hwf & _);
    [congruence|exact Hacc|].
  destruct Hf as (_ & _ & F3 & F4).
  apply pasteAccepted_spec in Hacc.
  split; [|split; [apply Hwf|]].
  - unfold boundsCoupled. rewrite F3, F4. exact Hc.
  - apply (elementsInside_grow e); auto.
    + intros cb b Hcb Hb'. rewrite Hb in Hb'.
      apply elem_of_app in Hb' as [H|H]; [left; exact H|right].
      apply pasted_beam in H as (b0 & Hb0 & ->).
      destruct Hacc as [Hn|Hall]; [congruence|].
      exact (Hall _ Hb0 cb Hcb).
    + intros pb p Hpb Hp'. rewrite Hp in Hp'.
      apply elem_of_app in Hp' as [H|H]; [left; exact H|right].
      apply pasted_panel in H as (p0 & Hp0 & ->).
      destruct Hacc as [Hn|Hall].
      * apply Hc in Hn. congruence.
      * exact (Hall _ Hp0 pb Hpb).
Qed.

Lemma deleteSelected_invariant (e : Editor) :
  editInvariant e -> editInvariant (deleteSelected e).
Proof.
  intros (Hc & Hnd & Hin). unfold deleteSelected.
  destruct (selectedElements e) as [|s0 rest] eqn:Hsel; [split; auto|].
  { split; [|exact Hin]. rewrite Hsel. exact Hnd. }
  rewrite <- Hsel in *.
  set (sorted := sortByIndexDesc (selectedElements e)).
  destruct (fold_deleteOne_fields sorted (set_selected sorted e))
    as (Hp & _ & Hb & _ & Hf & Hs).
  destruct Hf as (_ & _ & F3 & F4). simpl in F3, F4, Hs, Hp, Hb.
  split; [|split].
  - unfold boundsCoupled. rewrite F3, F4. exact Hc.
  - rewrite Hs. subst sorted. rewrite sortByIndexDesc_perm. exact Hnd.
  - apply (elementsInside_grow e); auto.
    + intros cb b _ H. left. rewrite Hb in H.
      exact (fold_deleteOfKind_subset _ _ _ _ H).
    + intros pb p _ H. left. rewrite Hp in H.
      exact (fold_deleteOfKind_subset _ _ _ _ H).
Qed.

(** X17.  Every editing operation on elements and selection keeps each beam
    within the construction bounds and each panel within the panel bounds,
    the selection free of duplicates, and the two bounds set or unset
    together. *)
Theorem edit_keeps_elements_inside (e e' : Editor) :
  editInvariant e -> editStep e e' -> editInvariant e'.
Proof.
  intros Hinv Hstep. pose proof Hinv as (Hc & Hnd & Hin).
  destruct Hstep.
  - apply (editInvariant_boundedKept e);
      [apply applySelection_boundedKept|apply applySelection_NoDup; exact Hnd
      |exact Hinv].
  - unfold _handleSelect, _getTextIndexAt.
    repeat (destruct (findLastIndex _ _);
            [apply (editInvariant_boundedKept e);
             [apply applySelection_boundedKept
             |apply applySelection_NoDup; exact Hnd|exact Hinv]|]).
    destruct isAdditive; cbn [negb]; [exact Hinv|].
    apply (editInvariant_boundedKept e); [|apply NoDup_nil_2|exact Hinv].
    unfold boundedKept, sameFrame. simpl. auto 10.
  - unfold _finishAreaSelect. destruct selectionRect as [sr|]; [|exact Hinv].
    cbv zeta. unfold areaSelectBeams. cbv zeta.
    match goal with
    | |- context [entriesWhere KPanel ?fp (panels e) ++
                  entriesWhere KText ?ft (texts e) ++
                  entriesWhere KObstacle ?fo (obstacles e) ++ ?bsel] =>
        set (area := entriesWhere KPanel fp (panels e) ++
                     entriesWhere KText ft (texts e) ++
                     entriesWhere KObstacle fo (obstacles e) ++ bsel);
        assert (Harea : NoDup area)
          by (apply (areaSelection_wellFormed fp ft fo
                       (fun b => _lineIntersectsRect (Beam.x1 b) (Beam.y1 b)
                                   (Beam.x2 b) (Beam.y2 b)
                                   (normalizeSelectionRect sr))))
    end.
    clearbody area.
    destruct isAreaAdditive;
      (apply (editInvariant_boundedKept e);
       [unfold boundedKept, sameFrame; simpl; auto 10| |exact Hinv]).
    + apply (addMissing_spec (selectedElements e) area Hnd).
    + exact Harea.
  - apply (editInvariant_boundedKept e); [| |exact Hinv].
    + unfold setTool, boundedKept, sameFrame. cbv zeta.
      destruct (String.eqb _ _); simpl; auto 10.
    + unfold setTool. cbv zeta.
      destruct (String.eqb _ _); simpl;
        [apply entriesWhere_NoDup|apply NoDup_nil_2].
  - exact (moveSelected_invariant dx dy e e' H Hinv).
  - apply deleteSelected_invariant. exact Hinv.
  - apply paste_invariant. exact Hinv.
  - apply (editInvariant_boundedKept e); [|exact Hnd|exact Hinv].
    unfold boundedKept, sameFrame, _startObstacle. simpl. auto 10.
  - unfold _updateObstacle in H0.
    destruct (obstacles e !! lastIndex (obstacles e)); [|discriminate].
    injection H0 as <-.
    apply (editInvariant_boundedKept e); [|exact Hnd|exact Hinv].
    unfold boundedKept, sameFrame. simpl. auto 10.
  - unfold _finishObstacle in H.
    destruct (obstacles e !! lastIndex (obstacles e)); [|discriminate].
    injection H as <-.
    apply (editInvariant_boundedKept e); [|exact Hnd|exact Hinv].
    unfold boundedKept, sameFrame. simpl. auto 10.
  - unfold _startBeam.
    destruct (_isWithinConstructionBounds e (Point.x cm) (Point.y cm)) eqn:Hcm;
      cbn [negb]; [|exact Hinv].
    split; [exact Hc|]. split; [exact Hnd|].
    apply (elementsInside_grow e); auto.
    + intros cb b Hcb Hb. simpl in Hb.
      apply elem_of_app in Hb as [Hb|Hb]; [left; exact Hb|right].
      apply list_elem_of_singleton in Hb. subst b. simpl.
      split; apply (isWithinConstructionBounds_inside e); assumption.
  - unfold _updateBeam in H0.
    destruct (_isWithinConstructionBounds e (snap v (Point.x cm))
                (snap v (Point.y cm))) eqn:Hcm; cbn [negb] in H0.
    2:{ injection H0 as <-. exact Hinv. }
    destruct (beams e !! lastIndex (beams e)) as [b0|] eqn:Hb0; [|discriminate].
    injection H0 as <-.
    split; [exact Hc|]. split; [exact Hnd|].
    apply (elementsInside_grow e); auto.
    + intros cb b Hcb Hb. simpl in Hb.
      apply elem_of_insert_inv in Hb as [->|Hb]; [right|left; exact Hb].
      simpl. split.
      * apply (proj1 Hin cb b0 Hcb). apply list_elem_of_lookup. eauto.
      * apply (isWithinConstructionBounds_inside e); assumption.
  - unfold _finishBeam in H.
    destruct (beams e !! lastIndex (beams e)) as [b0|]; [|discriminate].
    assert (Hpop : editInvariant (set_beams (removelast (beams e)) e)).
    { split; [exact Hc|]. split; [exact Hnd|].
      apply (elementsInside_grow e); auto.
      intros cb b _ Hb. left. simpl in Hb. apply elem_of_removelast. exact Hb. }
    destruct (Qltb _ 5); [injection H as <-; exact Hpop|].
    destruct (negb _); injection H as <-; [exact Hpop|exact Hinv].
  - unfold _placePanel. cbv zeta.
    destruct (_isRectWithinPanelBounds e _ _ _ _) eqn:Hrect; cbn [negb];
      [|exact Hinv].
    split; [exact Hc|]. split; [exact Hnd|].
    apply (elementsInside_grow e); auto.
    + intros pb p Hpb Hp. simpl in Hp.
      apply elem_of_app in Hp as [Hp|Hp]; [left; exact Hp|right].
      apply list_elem_of_singleton in Hp. subst p. simpl.
      exact (proj1 (isRectWithinPanelBounds_spec _ _ _ _ _) Hrect pb Hpb).
  - unfold _placeText. destruct answer as [text|]; [|exact Hinv].
    cbv zeta. destruct (String.eqb _ _); [exact Hinv|].
    apply (editInvariant_boundedKept e); [|exact Hnd|exact Hinv].
    unfold boundedKept, sameFrame. simpl. auto 10.
  - split; [|split].
    + unfold boundsCoupled, clearAll. simpl. tauto.
    + exact Hnd.
    + split; simpl; intros ? ? Hb; discriminate.
Qed.

Lemma edit_keeps_elements_inside_witness :
  editInvariant
    (_placePanel (fun _ => 1) 3 (Point.mk 200 100) scenarioEditor).
Proof.
  apply (edit_keeps_elements_inside scenarioEditor).
  - split; [|split; [|split]].
    + unfold boundsCoupled. simpl. split; discriminate.
    + simpl. apply NoDup_singleton.
    + intros cb b _ Hb. simpl in Hb. inversion Hb.
    + intros pb p Hpb Hp. simpl in Hpb, Hp. injection Hpb as <-.
      apply list_elem_of_singleton in Hp. subst p.
      unfold rectInside. simpl. repeat split; lra.
  - apply edit_placePanel.
Defined.

(** ** 3D viewer: roof profile, posts and centring *)

Lemma clamp_bounds (t : Q) : 0 <= Qmax 0 (Qmin 1 t) /\ Qmax 0 (Qmin 1 t) <= 1.
Proof.
  split.
  - apply Q.le_max_l.
  - apply Q.max_lub; [lra|apply Q.le_min_l].
Qed.

Lemma clamp_mono (s t : Q) : s <= t -> Qmax 0 (Qmin 1 s) <= Qmax 0 (Qmin 1 t).
Proof.
  intros H. apply Q.max_le_compat_l. apply Q.min_le_compat_l. exact H.
Qed.

Lemma clamp_low (t : Q) : t <= 0 -> Qmax 0 (Qmin 1 t) == 0.
Proof.
  intros H. apply Q.max_l. rewrite Q.min_r by lra. exact H.
Qed.

Lemma clamp_high (t : Q) : 1 <= t -> Qmax 0 (Qmin 1 t) == 1.
Proof.
  intros H. rewrite Q.min_l by exact H. apply Q.max_r. lra.
Qed.

Lemma div_le_mono (a b d : Q) : 0 < d -> a <= b -> a / d <= b / d.
Proof.
  intros Hd Hab. unfold Qdiv. apply Qmult_le_compat_r; [exact Hab|].
  apply Qlt_le_weak. apply Qinv_lt_0_compat. exact Hd.
Qed.

Lemma div_nonpos (a d : Q) : 0 < d -> a <= 0 -> a / d <= 0.
Proof.
  intros Hd Ha. pose proof (div_le_mono a 0 d Hd Ha) as H.
  assert (E : 0 / d == 0) by (field; lra). lra.
Qed.

Lemma div_ge_one (a d : Q) : 0 < d -> d <= a -> 1 <= a / d.
Proof.
  intros Hd Ha. pose proof (div_le_mono d a d Hd Ha) as H.
  assert (E : d / d == 1) by (field; lra). lra.
Qed.

(** X18.  The roof profile over a non-empty beam array, for a tilt whose
    tangent is not negative: the height never falls below the base height
    nor rises above base + span * tan(tilt); along the depth it never
    decreases, or never increases when the range is inverted; and it is
    the base height up to the near end of the range and base + rise from the
    far end on (the other way round when inverted). *)
Theorem roof_profile_monotone (tan : Q -> Q) (c : Point.t)
  (beams : list Beam.t) (height : Q) (inclination : Inclination) (rad : Q) :
  beams <> [] -> 0 <= tan rad ->
  exists r,
    _getInclinationRange c beams inclination = Some r /\
    let h := fun z => getHeightAtZ_buildBeams tan c beams height inclination z rad in
    let top := height + (maxZ r - minZ r) * tan rad in
    (forall z, height <= h z /\ h z <= top) /\
    (forall z1 z2, z1 <= z2 ->
       if invert r then h z2 <= h z1 else h z1 <= h z2) /\
    (~ maxZ r - minZ r == 0 -> ~ rad == 0 ->
     (forall z, z <= minZ r -> h z == if invert r then top else height) /\
     (forall z, maxZ r <= z -> h z == if invert r then height else top)).
Proof.
  intros Hne Htan.
  destruct (getInclinationRange_some c beams inclination Hne)
    as (r & Hr & _ & _ & _ & Hle & _).
  exists r. split; [exact Hr|]. cbv zeta.
  unfold getHeightAtZ_buildBeams. rewrite Hr.
  destruct (getStructureBounds_some c beams Hne) as [sb ->].
  cbn [negb bool_decide decide_rel]. simpl negb. rewrite orb_false_l.
  set (span := maxZ r - minZ r).
  assert (Hspan : 0 <= span) by (unfold span; lra).
  assert (Hrise : 0 <= span * tan rad) by (apply Qmult_le_0_compat; assumption).
  destruct (Qeq_bool span 0) eqn:Hs0; cbn [orb].
  { apply Qeq_bool_iff in Hs0.
    split; [intros z; split; [lra|]|split].
    - rewrite Hs0. lra.
    - intros z1 z2 _. destruct (invert r); lra.
    - intros Hns. contradiction. }
  destruct (Qeq_bool rad 0) eqn:Hr0.
  { apply Qeq_bool_iff in Hr0.
    split; [intros z; split; lra|split].
    - intros z1 z2 _. destruct (invert r); lra.
    - intros _ Hnr. contradiction. }
  assert (Hpos : 0 < span).
  { apply Qeq_bool_neq in Hs0. lra. }
  split; [|split].
  - intros z.
    match goal with
    | |- context [Qmax 0 (Qmin 1 ?t)] =>
        destruct (clamp_bounds t) as [H0 H1]; set (k := Qmax 0 (Qmin 1 t)) in *
    end.
    split; nra.
  - intros z1 z2 Hz.
    pose proof (div_le_mono (z1 - minZ r) (z2 - minZ r) span Hpos
                  ltac:(lra)) as Ht.
    destruct (invert r).
    + pose proof (clamp_mono (1 - (z2 - minZ r) / span)
                    (1 - (z1 - minZ r) / span) ltac:(lra)) as Hk.
      nra.
    + pose proof (clamp_mono _ _ Ht) as Hk. nra.
  - intros _ _. split; intros z Hz.
    + pose proof (div_nonpos (z - minZ r) span Hpos ltac:(lra)) as Ht.
      destruct (invert r).
      * rewrite (clamp_high (1 - (z - minZ r) / span)) by lra. ring.
      * rewrite (clamp_low _ Ht). ring.
    + pose proof (div_ge_one (z - minZ r) span Hpos
                    ltac:(unfold span; lra)) as Ht.
      destruct (invert r).
      * rewrite (clamp_low (1 - (z - minZ r) / span)) by lra. ring.
      * rewrite (clamp_high _ Ht). ring.
Qed.

Lemma roof_profile_monotone_witness :
  exists r,
    _getInclinationRange (Point.mk 0 0) twoBeams (mkInclination 20 0 (-1))
    = Some r /\
    forall z,
      120 <= getHeightAtZ_buildBeams (fun _ => 1 # 2) (Point.mk 0 0) twoBeams
               120 (mkInclination 20 0 (-1)) z (1 # 3).
Proof.
  destruct (roof_profile_monotone (fun _ => 1 # 2) (Point.mk 0 0) twoBeams 120
              (mkInclination 20 0 (-1)) (1 # 3))
    as (r & Hr & Hbounds & _).
  - discriminate.
  - vm_compute. discriminate.
  - exists r. split; [exact Hr|]. intros z. apply Hbounds.
Defined.

Lemma getStructureBounds_beams (c : Point.t) (beams : list Beam.t)
  (vs : list Point.t) :
  beams <> [] -> _getStructureBounds c beams vs = _getStructureBounds c beams [].
Proof.
  destruct beams; [congruence|reflexivity].
Qed.

(** X19.  Over a non-empty beam array, and with a tangent that vanishes at
    0, [_buildCornerPosts] sets four posts, at the corners of the structure
    bounds, and each post is as high as the roof profile [getHeightAtZ] of
    the beams at the depth of its corner for the requested angle. *)
Theorem corner_posts_meet_profile (tan : Q -> Q) (PI : Q) (c : Point.t)
  (beams : list Beam.t) (vs : list Point.t) (height : Q)
  (inclination : Inclination) :
  beams <> [] -> (forall q, q == 0 -> tan q == 0) ->
  exists sb,
    _getStructureBounds c beams [] = Some sb /\
    List.map (fun p => (post_x p, post_z p))
      (_buildCornerPosts tan PI c beams vs height inclination) =
    [ (sb_minX sb, sb_minZ sb); (sb_maxX sb, sb_minZ sb);
      (sb_maxX sb, sb_maxZ sb); (sb_minX sb, sb_maxZ sb) ] /\
    forall p,
      In p (_buildCornerPosts tan PI c beams vs height inclination) ->
      postHeight p ==
      getHeightAtZ_buildBeams tan c beams height inclination (post_z p)
        (degrees inclination * PI / 180).
Proof.
  intros Hne Htan.
  destruct (getInclinationRange_some c beams inclination Hne)
    as (r & Hr & _).
  destruct (getStructureBounds_some c beams Hne) as [sb Hsb].
  exists sb. split; [exact Hsb|].
  unfold _buildCornerPosts, getHeightAtZ_buildBeams.
  rewrite (getStructureBounds_beams c beams vs Hne), Hsb, Hr.
  split; [reflexivity|].
  cbn [negb bool_decide decide_rel]. simpl negb. rewrite orb_false_l.
  set (span := maxZ r - minZ r).
  set (rad := degrees inclination * PI / 180).
  intros p Hp. cbn [List.map] in Hp.
  destruct (Qeq_bool span 0) eqn:Hs0; cbn [orb].
  - apply Qeq_bool_iff in Hs0.
    repeat (destruct Hp as [<-|Hp]; [cbn [postHeight]; rewrite Hs0; ring|]).
    destruct Hp.
  - destruct (Qeq_bool rad 0) eqn:Hr0.
    + apply Qeq_bool_iff in Hr0. pose proof (Htan rad Hr0) as Ht0.
      repeat (destruct Hp as [<-|Hp]; [cbn [postHeight]; rewrite Ht0; ring|]).
      destruct Hp.
    + repeat (destruct Hp as [<-|Hp]; [cbn [postHeight post_z fst snd]; reflexivity|]).
      destruct Hp.
Qed.

Lemma corner_posts_meet_profile_witness :
  exists sb,
    _getStructureBounds (Point.mk 0 0) twoBeams [] = Some sb /\
    List.map (fun p => (post_x p, post_z p))
      (_buildCornerPosts (fun q => q) 3 (Point.mk 0 0) twoBeams [] 120
         (mkInclination 20 0 (-1))) =
    [ (sb_minX sb, sb_minZ sb); (sb_maxX sb, sb_minZ sb);
      (sb_maxX sb, sb_maxZ sb); (sb_minX sb, sb_maxZ sb) ].
Proof.
  destruct (corner_posts_meet_profile (fun q => q) 3 (Point.mk 0 0) twoBeams []
              120 (mkInclination 20 0 (-1)))
    as (sb & Hsb & Hcorners & _).
  - discriminate.
  - intros q Hq. exact Hq.
  - exists sb. split; [exact Hsb|exact Hcorners].
Defined.

Lemma isMinOf_shift (a cx : Q) (l : list Point.t) (f : Point.t -> Q) (a' : Q) :
  isMinOf a (List.map f l) ->
  isMinOf a' (List.map (fun v => f v - cx) l) ->
  a' == a - cx.
Proof.
  intros [Ha Hla] [Ha' Hla'].
  apply list_elem_of_In, in_map_iff in Ha as (v & <- & Hv).
  apply list_elem_of_In, in_map_iff in Ha' as (v' & <- & Hv').
  assert (H1 : f v' - cx <= f v - cx).
  { apply Hla'. apply list_elem_of_In, in_map_iff. eauto. }
  assert (H2 : f v <= f v').
  { apply Hla. apply list_elem_of_In, in_map_iff. eauto. }
  lra.
Qed.

Lemma isMaxOf_shift (a cx : Q) (l : list Point.t) (f : Point.t -> Q) (a' : Q) :
  isMaxOf a (List.map f l) ->
  isMaxOf a' (List.map (fun v => f v - cx) l) ->
  a' == a - cx.
Proof.
  intros [Ha Hla] [Ha' Hla'].
  apply list_elem_of_In, in_map_iff in Ha as (v & <- & Hv).
  apply list_elem_of_In, in_map_iff in Ha' as (v' & <- & Hv').
  assert (H1 : f v - cx <= f v' - cx).
  { apply Hla'. apply list_elem_of_In, in_map_iff. eauto. }
  assert (H2 : f v' <= f v).
  { apply Hla. apply list_elem_of_In, in_map_iff. eauto. }
  lra.
Qed.

(** X20.  A terrace of at least three vertices is centred in the scene: its
    centre is the midpoint of its bounding box and lies in the box, the
    structure bounds of the bare terrace are the sides of the box relative to
    that centre, and they hold the origin.  Below three vertices the centre
    is the origin. *)
Theorem terrace_centred (vs : list Point.t) :
  ((length vs < 3)%nat -> _calculateTerraceCenter vs = Some (Point.mk 0 0)) /\
  ((3 <= length vs)%nat ->
   exists c sb loX hiX loY hiY,
     _calculateTerraceCenter vs = Some c /\
     isMinOf loX (List.map Point.x vs) /\ isMaxOf hiX (List.map Point.x vs) /\
     isMinOf loY (List.map Point.y vs) /\ isMaxOf hiY (List.map Point.y vs) /\
     Point.x c = (loX + hiX) / 2 /\ Point.y c = (loY + hiY) / 2 /\
     loX <= Point.x c /\ Point.x c <= hiX /\
     loY <= Point.y c /\ Point.y c <= hiY /\
     _getStructureBounds c [] vs = Some sb /\
     sb_minX sb == loX - Point.x c /\ sb_maxX sb == hiX - Point.x c /\
     sb_minZ sb == loY - Point.y c /\ sb_maxZ sb == hiY - Point.y c /\
     sb_minX sb <= 0 /\ 0 <= sb_maxX sb /\
     sb_minZ sb <= 0 /\ 0 <= sb_maxZ sb).
Proof.
  unfold _calculateTerraceCenter. split.
  - intros Hlt. destruct (Nat.ltb_spec (length vs) 3); [reflexivity|lia].
  - intros Hlen. destruct (Nat.ltb_spec (length vs) 3) as [Hlt|_]; [lia|].
    assert (Hne : vs <> []) by (destruct vs; simpl in Hlen; [lia|congruence]).
    unfold vertexExtremes. rewrite fold_applyPoint.
    cbn [e_minX e_maxX e_minY e_maxY noExtremes].
    assert (Hx : List.map Point.x vs <> []) by (destruct vs; simpl; congruence).
    assert (Hy : List.map Point.y vs <> []) by (destruct vs; simpl; congruence).
    destruct (fold_min_spec _ Hx) as (ax & -> & Hax).
    destruct (fold_max_spec _ Hx) as (bx & -> & Hbx).
    destruct (fold_min_spec _ Hy) as (ay & -> & Hay).
    destruct (fold_max_spec _ Hy) as (by_ & -> & Hby).
    assert (Hxle : ax <= bx) by (apply Hbx, Hax).
    assert (Hyle : ay <= by_) by (apply Hby, Hay).
    exists (Point.mk ((ax + bx) / 2) ((ay + by_) / 2)).
    set (c := Point.mk ((ax + bx) / 2) ((ay + by_) / 2)).
    unfold _getStructureBounds.
    rewrite (fold_applyPoint (fun v => Point.x v - Point.x c)
               (fun v => Point.y v - Point.y c)).
    cbn [e_minX e_maxX e_minY e_maxY noExtremes].
    assert (Hx' : List.map (fun v => Point.x v - Point.x c) vs <> [])
      by (destruct vs; simpl; congruence).
    assert (Hy' : List.map (fun v => Point.y v - Point.y c) vs <> [])
      by (destruct vs; simpl; congruence).
    destruct (fold_min_spec _ Hx') as (ax' & -> & Hax').
    destruct (fold_max_spec _ Hx') as (bx' & -> & Hbx').
    destruct (fold_min_spec _ Hy') as (ay' & -> & Hay').
    destruct (fold_max_spec _ Hy') as (by' & -> & Hby').
    eexists. exists ax, bx, ay, by_. split; [reflexivity|].
    assert (Ex : (ax + bx) / 2 == (ax + bx) * (1 # 2)) by field.
    assert (Ey : (ay + by_) / 2 == (ay + by_) * (1 # 2)) by field.
    pose proof (isMinOf_shift _ _ _ _ _ Hax Hax') as E1.
    pose proof (isMaxOf_shift _ _ _ _ _ Hbx Hbx') as E2.
    pose proof (isMinOf_shift _ _ _ _ _ Hay Hay') as E3.
    pose proof (isMaxOf_shift _ _ _ _ _ Hby Hby') as E4.
    subst c. cbn [Point.x Point.y sb_minX sb_maxX sb_minZ sb_maxZ] in *.
    repeat (split; [first [assumption|reflexivity|lra]|]).
    cbn [sb_minX sb_maxX sb_minZ sb_maxZ]. repeat split; lra.
Qed.

Lemma terrace_centred_witness :
  exists c sb,
    _calculateTerraceCenter (terraceVertices scenarioEditor) = Some c /\
    _getStructureBounds c [] (terraceVertices scenarioEditor) = Some sb /\
    sb_minX sb <= 0 /\ 0 <= sb_maxX sb.
Proof.
  destruct (proj2 (terrace_centred (terraceVertices scenarioEditor)))
    as (c & sb & loX & hiX & loY & hiY & Hc & _ & _ & _ & _ & _ & _ & _ & _
        & _ & _ & Hsb & _ & _ & _ & _ & H1 & H2 & _).
  - simpl. lia.
  - exists c, sb. auto.
Defined.

(** X21.  [_calculateBeamInclinations] returns one entry per beam; each is
    the requested angle flagged full, a quarter of it, or no tilt; an entry
    flagged full carries the requested angle; and every beam whose centre
    line lies in the resolved depth range gets the requested angle flagged
    full. *)
Theorem in_range_beam_inclination (PI : Q) (c : Point.t) (beams : list Beam.t)
  (inclination : Inclination) :
  let base := degrees inclination * PI / 180 in
  let result := _calculateBeamInclinations PI c beams inclination in
  length result = length beams /\
  (forall i bi, result !! i = Some bi ->
     bi ∈ inclinationLevels base /\
     (hasFullInclination bi = true -> radians bi = base)) /\
  (forall r i b,
     _getInclinationRange c beams inclination = Some r ->
     beams !! i = Some b -> centerInRange c r b ->
     result !! i = Some (mkBeamIncl base true)).
Proof.
  cbv zeta. unfold _calculateBeamInclinations.
  destruct beams as [|b0 bs] eqn:Hbeams.
  { split; [reflexivity|]. split; [intros i bi Hi; discriminate|].
    intros r i b Hr. discriminate. }
  rewrite <- Hbeams. assert (Hne : beams <> []) by congruence.
  clear Hbeams b0 bs.
  split; [apply length_imap|]. split.
  - intros i bi Hi. rewrite list_lookup_imap in Hi.
    destruct (beams !! i) as [b|]; [|discriminate].
    injection Hi as <-. unfold beamInclinationAt, inclinationLevels.
    destruct (existsb _ _).
    { split; [apply elem_of_cons; auto|reflexivity]. }
    destruct (List.find _ _).
    + destruct (isFrameBeam _ _ _).
      * split; [apply elem_of_cons; auto|reflexivity].
      * split; [|discriminate].
        apply elem_of_cons; right; apply elem_of_cons; auto.
    + split; [|discriminate].
      apply elem_of_cons; right; apply elem_of_cons; right;
        apply elem_of_cons; auto.
  - intros r i b Hr Hb Hin. rewrite list_lookup_imap, Hb. cbn [fmap option_fmap option_map].
    destruct (getInclinationRange_some c beams inclination Hne)
      as (r' & Hr' & _ & _ & _ & Hle & _).
    assert (r' = r) by congruence. subst r'.
    unfold beamInclinationAt. rewrite Hr.
    assert (Hex : existsb (Nat.eqb i) (rangeIndices c beams (Some r)) = true).
    { apply existsb_exists. exists i. split; [|apply Nat.eqb_refl].
      apply rangeIndices_spec. exists b. split; [exact Hb|].
      apply inDepthRange_spec; assumption. }
    rewrite Hex. reflexivity.
Qed.

Lemma in_range_beam_inclination_witness :
  _calculateBeamInclinations 3 (Point.mk 0 0) twoBeams (mkInclination 20 0 (-1))
    !! 0%nat = Some (mkBeamIncl (20 * 3 / 180) true).
Proof.
  destruct (in_range_beam_inclination 3 (Point.mk 0 0) twoBeams
              (mkInclination 20 0 (-1))) as (_ & _ & Hin).
  eapply Hin.
  - vm_compute. reflexivity.
  - reflexivity.
  - unfold centerInRange. vm_compute. split; discriminate.
Defined.

(** ** The automatic structure lies on the terrace *)

Lemma parallelBeams_elem (profile : string)
  (spacing startX startY endX endY : Q) (idxs : list nat) (b : Beam.t) :
  b ∈ parallelBeams profile spacing startX startY endX endY idxs ->
  exists i,
    In i idxs /\
    startY + (inject_Z (Z.of_nat i) + 1) * spacing < endY /\
    b = pushBeam profile startX
          (startY + (inject_Z (Z.of_nat i) + 1) * spacing) endX
          (startY + (inject_Z (Z.of_nat i) + 1) * spacing).
Proof.
  induction idxs as [|i idxs IH]; cbn [parallelBeams]; intros Hb.
  - inversion Hb.
  - unfold Qgeb in Hb.
    destruct (Qle_bool endY _) eqn:Hcmp; [inversion Hb|].
    apply Qle_bool_false in Hcmp.
    apply elem_of_cons in Hb as [->|Hb].
    + exists i. split; [left; reflexivity|]. split; [exact Hcmp|reflexivity].
    + destruct (IH Hb) as (j & Hj & Hlt & ->).
      exists j. split; [right; exact Hj|]. split; [exact Hlt|reflexivity].
Qed.



(** ** Copy, then paste *)






(** ** The selection inspector *)

Lemma selectionExtremes_finite (measureText : string -> Q -> Q) (v : View)
  (e : Editor) (sels : list Sel.t) (a r : Extremes) :
  properExtremes a ->
  selectionExtremes measureText v e sels a = Some r ->
  sels <> [] \/ allFinite a -> allFinite r.
Proof.
  unfold selectionExtremes. revert a.
  induction sels as [|s sels IH]; intros a Hprop Hr Hfin.
  - injection Hr as <-. destruct Hfin as [H|H]; [congruence|exact H].
  - cbn [fold_left mbind option_bind] in Hr.
    destruct (boundsOfEntry measureText v e a s) as [a1|] eqn:H1.
    2:{ exfalso. clear -Hr. induction sels as [|s' sels IH']; [discriminate|].
        apply IH'. exact Hr. }
    assert (Hfin1 : allFinite a1).
    { unfold boundsOfEntry in H1.
      destruct Hprop as (P1 & P2 & P3 & P4).
      destruct (Sel.type s);
        (destruct (_ !! Sel.index s); [|discriminate]);
        injection H1 as <-; destruct a as [[| |] [| |] [| |] [| |]];
        cbn [e_minX e_maxX e_minY e_maxY] in P1, P2, P3, P4;
        try congruence; unfold allFinite; simpl; auto. }
    apply (IH a1); [|exact Hr|right; exact Hfin1].
    destruct Hfin1 as (F1 & F2 & F3 & F4).
    destruct a1 as [[| |] [| |] [| |] [| |]]; try discriminate.
    unfold properExtremes. simpl. repeat split; discriminate.
Qed.

(** The loop of [getSelectionBounds] completes on entries that refer to
    elements. *)
Lemma selectionExtremes_total (measureText : string -> Q -> Q) (v : View)
  (e : Editor) (sels : list Sel.t) (a : Extremes) :
  (forall s, s ∈ sels -> validEntry e s) ->
  exists r, selectionExtremes measureText v e sels a = Some r.
Proof.
  unfold selectionExtremes. revert a.
  induction sels as [|s sels IH]; intros a Hv; [eauto|].
  cbn [fold_left mbind option_bind].
  assert (Hs : exists a1, boundsOfEntry measureText v e a s = Some a1).
  { specialize (Hv s ltac:(apply elem_of_cons; auto)).
    unfold validEntry in Hv. unfold boundsOfEntry.
    destruct (Sel.type s); destruct Hv as [x ->]; simpl; eauto. }
  destruct Hs as [a1 ->]. apply IH.
  intros s' Hs'. apply Hv. apply elem_of_cons. auto.
Qed.

(** Moving an accepted selection shifts every selected element. *)
Lemma moveSelected_accepted (dx dy : Q) (e : Editor) :
  selectionWellFormed e -> boundsCoupled e ->
  (forall s, s ∈ selectedElements e -> respectsBound e dx dy s) ->
  exists e', _moveSelected dx dy e = Some e' /\ selectionShifted dx dy e e'.
Proof.
  intros [Hnd Hvalid] Hc Hok.
  destruct (moveAll_spec dx dy (selectedElements e) e Hnd Hvalid)
    as (e' & Hmove & Hp & Ho & Hb & Ht & (F1 & F2 & F3 & F4) & Hrest).
  exists e'. split; [|apply translated_shifted; unfold translated; tauto].
  unfold _moveSelected.
  destruct (selectedElements e) as [|s0 rest] eqn:Hsel; [exact Hmove|].
  rewrite <- Hsel in *.
  destruct (constructionBounds e); [|exact Hmove].
  destruct (every_spec (canMoveOne e dx dy) (respectsBound e dx dy)
              (selectedElements e)) as (b & -> & Hiff).
  { intros s Hs. apply canMoveOne_spec. apply Hvalid. exact Hs. }
  rewrite (proj2 Hiff Hok). exact Hmove.
Qed.

(** X24.  The position fields of the selection inspector, for a scale and
    zoom that are not zero: on a non-empty selection of distinct entries
    that refer to elements, [getSelectionBounds] returns a box, and does not
    throw.  A field that does not hold a number leaves the editor alone.
    Applying a position moves the selection by the difference between that
    position and the corner of the box, in both directions: the coordinates
    of every selected element grow by exactly that difference and nothing
    else changes; and nothing at all changes when an element would leave its
    bound. *)
Theorem inspector_position (measureText : string -> Q -> Q) (v : View)
  (newX newY : Q) (e : Editor) :
  ~ scale e * zoomLevel v == 0 ->
  selectionWellFormed e -> boundsCoupled e -> selectedElements e <> [] ->
  exists bounds,
    getSelectionBounds measureText v e = Some (Some bounds) /\
    applySelectionPosition measureText v None (Some newY) e = Some e /\
    applySelectionPosition measureText v (Some newX) None e = Some e /\
    let dx := newX - sel_minX bounds in
    let dy := newY - sel_minY bounds in
    ((forall s, s ∈ selectedElements e -> respectsBound e dx dy s) ->
     exists e',
       applySelectionPosition measureText v (Some newX) (Some newY) e
       = Some e' /\
       selectionShifted dx dy e e') /\
    (is_Some (constructionBounds e) ->
     (exists s, s ∈ selectedElements e /\ ~ respectsBound e dx dy s) ->
     applySelectionPosition measureText v (Some newX) (Some newY) e = Some e).
Proof.
  intros _ Hwf Hc Hne. pose proof Hwf as [Hnd Hvalid].
  destruct (selectionExtremes_total measureText v e (selectedElements e)
              noExtremes Hvalid) as [r Hr].
  destruct (selectionExtremes_finite measureText v e (selectedElements e)
              noExtremes r)
    as (F1 & F2 & F3 & F4); [|exact Hr|left; exact Hne|].
  { unfold properExtremes, noExtremes. simpl. repeat split; discriminate. }
  destruct r as [[|ax|] [|bx|] [|ay|] [|by_|]]; try discriminate.
  exists (mkSelectionBounds ax ay bx by_ (bx - ax) (by_ - ay)).
  assert (Hget : getSelectionBounds measureText v e =
                 Some (Some (mkSelectionBounds ax ay bx by_ (bx - ax) (by_ - ay)))).
  { unfold getSelectionBounds.
    destruct (selectedElements e) eqn:Hsel; [congruence|].
    rewrite Hr. reflexivity. }
  split; [exact Hget|].
  unfold applySelectionPosition. rewrite Hget.
  split; [reflexivity|]. split; [reflexivity|].
  cbv zeta. cbn [sel_minX sel_minY].
  split.
  - intros Hok. apply moveSelected_accepted; assumption.
  - intros [cb Hcb] (s & Hs & Hviol).
    unfold _moveSelected.
    destruct (selectedElements e) as [|s0 rest] eqn:Hsel; [reflexivity|].
    rewrite <- Hsel in *. rewrite Hcb.
    destruct (every_spec (canMoveOne e (newX - ax) (newY - ay))
                (respectsBound e (newX - ax) (newY - ay))
                (selectedElements e)) as (b & -> & Hiff).
    { intros s' Hs'. apply canMoveOne_spec. apply Hvalid. exact Hs'. }
    destruct b; [|reflexivity].
    exfalso. apply Hviol. apply (proj1 Hiff eq_refl). exact Hs.
Qed.

Lemma inspector_position_witness :
  exists bounds e' p',
    getSelectionBounds (fun _ _ => 0) (mkView 50 50 1 10 true) scenarioEditor
    = Some (Some bounds) /\
    applySelectionPosition (fun _ _ => 0) (mkView 50 50 1 10 true)
      (Some 30) (Some 40) scenarioEditor = Some e' /\
    panels e' !! 0%nat = Some p' /\
    Panel.x p' = 0 + (30 - 0) /\ Panel.y p' = 0 + (40 - 0).
Proof.
  destruct (inspector_position (fun _ _ => 0) (mkView 50 50 1 10 true) 30 40
              scenarioEditor) as (bounds & Hget & _ & _ & Hok & _).
  - intros H. apply Qeq_bool_iff in H. vm_compute in H. discriminate.
  - split.
    + simpl. apply NoDup_singleton.
    + intros s Hs. simpl in Hs. apply list_elem_of_singleton in Hs. subst s.
      unfold validEntry. simpl. eauto.
  - unfold boundsCoupled. simpl. split; discriminate.
  - discriminate.
  - vm_compute in Hget. injection Hget as <-.
    cbv zeta in Hok. cbn [sel_minX sel_minY] in Hok.
    destruct Hok as (e' & Happly & (_ & Hshift) & _).
    + intros s Hs. simpl in Hs. apply list_elem_of_singleton in Hs. subst s.
      unfold respectsBound. simpl. intros p pb [= <-] [= <-].
      unfold rectInside. simpl. repeat split; vm_compute; discriminate.
    + destruct (Hshift 0%nat (Panel.mk 0 0 114 228 (Some 228) 0 610) eq_refl)
        as (p' & Hp' & Hsel & _).
      destruct Hsel as (Hx & Hy & _);
        [simpl; apply list_elem_of_singleton; reflexivity|].
      eexists. exists e', p'. split; [reflexivity|]. auto.
Defined.

(** ** Selecting and deleting the automatic structure *)

Lemma createAutoStructure_beams_auto (numBeams : Z) (spacing : Q)
  (profile : string) (width height : option Q) (e : Editor) :
  success (snd (createAutoStructure numBeams spacing profile width height e))
  = true ->
  let e' := fst (createAutoStructure numBeams spacing profile width height e) in
  beams e' <> [] /\
  (forall b, b ∈ beams e' -> Beam.isAutoStructure b = true) /\
  panels e' = panels e /\ obstacles e' = obstacles e /\ texts e' = texts e.
Proof.
  cbv zeta. unfold createAutoStructure.
  set (e1 := match getTerraceBounds (terraceVertices e) with
             | Some _ => e
             | None => setRectangularTerrace (orDefault width 585)
                         (orDefault height 388) e
             end).
  assert (Hsame : obstacles e1 = obstacles e /\ panels e1 = panels e /\
                  texts e1 = texts e).
  { subst e1. destruct (getTerraceBounds (terraceVertices e)); [auto|].
    unfold setRectangularTerrace, recomputeBounds.
    destruct (getTerraceBounds _); auto. }
  destruct Hsame as (Ho & Hp & Ht).
  destruct (getTerraceBounds (terraceVertices e1)) as [tb|];
    [|cbn [snd success]; discriminate].
  cbv zeta.
  destruct ((0 <? numBeams)%Z && Qgeb _ _); cbn [fst snd success];
    [discriminate|].
  intros _. cbn [beams panels obstacles texts set_beams set_bounds].
  split; [discriminate|]. split; [|auto].
  intros b Hb. apply elem_of_app in Hb as [Hb|Hb].
  - repeat (apply elem_of_cons in Hb as [->|Hb]; [reflexivity|]).
    inversion Hb.
  - apply parallelBeams_elem in Hb as (i & _ & _ & ->). reflexivity.
Qed.

Lemma keepFrom_all {A : Type} (drop : nat -> bool) (i : nat) (l : list A) :
  (forall j, (i <= j < i + length l)%nat -> drop j = true) ->
  keepFrom drop i l = [].
Proof.
  revert i. induction l as [|a l IH]; intros i H; [reflexivity|].
  cbn [keepFrom]. rewrite (H i) by (simpl; lia).
  apply IH. intros j Hj. apply H. simpl. lia.
Qed.

Lemma deleteSelected_nonempty (e : Editor) :
  selectedElements e <> [] ->
  deleteSelected e =
  fold_left deleteOne (sortByIndexDesc (selectedElements e))
    (set_selected (sortByIndexDesc (selectedElements e)) e).
Proof.
  unfold deleteSelected. destruct (selectedElements e); [congruence|reflexivity].
Qed.

Lemma omap_entries_length {A : Type} (kind : ElementKind) (f : A -> bool)
  (r : list (nat * A)) :
  (forall x, x ∈ r -> f (snd x) = true) ->
  length (omap (fun '(i, a) => if f a then Some (Sel.mk kind i) else None) r)
  = length r.
Proof.
  induction r as [|[i a] r IH]; intros Hall; [reflexivity|].
  cbn [omap list_omap].
  pose proof (Hall (i, a) ltac:(apply elem_of_cons; auto)) as Ha.
  cbn [snd] in Ha. rewrite Ha. simpl. f_equal. apply IH.
  intros x Hx. apply Hall. apply elem_of_cons. auto.
Qed.

(** X26.  Create, select, delete: after a successful [createAutoStructure],
    the tool 'select-structure' selects every beam, and [deleteSelected]
    then leaves no beam at all, while panels, obstacles and texts are those
    from before the structure was created. *)
Theorem structure_select_delete (numBeams : Z) (spacing : Q)
  (profile : string) (width height : option Q) (e : Editor) :
  success (snd (createAutoStructure numBeams spacing profile width height e))
  = true ->
  let e1 := fst (createAutoStructure numBeams spacing profile width height e) in
  let e2 := setTool "select-structure" e1 in
  let e3 := deleteSelected e2 in
  (forall i, (i < length (beams e1))%nat ->
     Sel.mk KBeam i ∈ selectedElements e2) /\
  length (selectedElements e2) = length (beams e1) /\
  beams e3 = [] /\
  panels e3 = panels e /\ obstacles e3 = obstacles e /\ texts e3 = texts e.
Proof.
  intros Hok. cbv zeta.
  destruct (createAutoStructure_beams_auto _ _ _ _ _ _ Hok)
    as (Hne & Hauto & Hp & Ho & Ht).
  set (e1 := fst (createAutoStructure numBeams spacing profile width height e))
    in *.
  unfold setTool. cbv zeta. cbn [String.eqb Ascii.eqb Bool.eqb andb].
  cbn [set_selected set_tempPoints beams].
  set (sels := entriesWhere KBeam Beam.isAutoStructure (beams e1)).
  assert (Hall : forall i, (i < length (beams e1))%nat -> Sel.mk KBeam i ∈ sels).
  { intros i Hi. apply lookup_lt_is_Some in Hi as [b Hb].
    apply entriesWhere_spec. exists i, b. split; [reflexivity|].
    split; [exact Hb|]. apply Hauto. apply list_elem_of_lookup. eauto. }
  assert (Hkind : forall s, s ∈ sels -> Sel.type s = KBeam).
  { intros s Hs. apply entriesWhere_spec in Hs as (i & b & -> & _). reflexivity. }
  assert (Hlen : length sels = length (beams e1)).
  { subst sels. unfold entriesWhere.
    rewrite <- (length_imap pair (beams e1)).
    apply omap_entries_length.
    intros [i b] Hx. apply list_elem_of_lookup in Hx as [k Hk].
    rewrite list_lookup_imap in Hk.
    destruct (beams e1 !! k) as [b'|] eqn:Hb'; [|discriminate].
    injection Hk as <- <-. apply Hauto. apply list_elem_of_lookup. eauto. }
  split; [exact Hall|]. split; [exact Hlen|].
  assert (Hnd : NoDup sels) by apply entriesWhere_NoDup.
  assert (Hsne : sels <> []).
  { intros E. rewrite E in Hlen. destruct (beams e1); [congruence|discriminate]. }
  rewrite deleteSelected_nonempty by exact Hsne.
  change (selectedElements
            (set_selected sels (set_selected [] (set_tempPoints [] e1))))
    with sels.
  set (sorted := sortByIndexDesc sels).
  pose proof (sortByIndexDesc_perm sels) as Hperm. fold sorted in Hperm.
  assert (Hnd' : NoDup sorted) by (rewrite Hperm; exact Hnd).
  pose proof (sortByIndexDesc_sorted sels) as Hsorted. fold sorted in Hsorted.
  match goal with
  | |- context [fold_left deleteOne sorted ?e0] =>
      destruct (fold_deleteOne_fields sorted e0) as (Fp & Fo & Fb & Ft & _ & _)
  end.
  rewrite Fp, Fo, Fb, Ft. rewrite !fold_deleteOfKind by assumption.
  cbn [panels obstacles beams texts set_selected set_tempPoints].
  unfold unselected.
  assert (Hnone : forall (A : Type) (k : ElementKind) (l : list A),
             k <> KBeam ->
             keepFrom (fun i => bool_decide (Sel.mk k i ∈ sorted)) 0 l = l).
  { intros A k l Hk. rewrite <- (keepFrom_none 0 l) at 2.
    apply keepFrom_ext. intros j _. apply bool_decide_eq_false.
    rewrite Hperm. intros Hin. apply Hkind in Hin. simpl in Hin. congruence. }
  split; [|rewrite !Hnone by discriminate; auto].
  apply keepFrom_all. intros j Hj. apply bool_decide_eq_true.
  rewrite Hperm. apply Hall. lia.
Qed.

Lemma structure_select_delete_witness :
  beams (deleteSelected (setTool "select-structure" scenarioState)) = [].
Proof.
  destruct (structure_select_delete 3 100 "IPN-80" None None
              (setRectangularTerrace 585 388 (newEditor None)))
    as (_ & _ & Hb & _).
  - vm_compute. reflexivity.
  - exact Hb.
Defined.

(** ** The selection box encloses the selection *)

Lemma atMost_min_new (a : JSNum.num) (x : Q) : atMost (JSNum.min a x) x.
Proof.
  destruct a; simpl; auto; [apply Q.le_min_r|lra].
Qed.

Lemma atLeast_max_new (a : JSNum.num) (x : Q) : atLeast (JSNum.max a x) x.
Proof.
  destruct a; simpl; auto; [lra|apply Q.le_max_r].
Qed.

Lemma atMost_min_mono (a : JSNum.num) (x q : Q) :
  atMost a q -> atMost (JSNum.min a x) q.
Proof.
  destruct a; simpl; auto; [|tauto]. intros H.
  pose proof (Q.le_min_l q0 x). lra.
Qed.

Lemma atLeast_max_mono (a : JSNum.num) (x q : Q) :
  atLeast a q -> atLeast (JSNum.max a x) q.
Proof.
  destruct a; simpl; auto; [tauto|]. intros H.
  pose proof (Q.le_max_l q0 x). lra.
Qed.

Lemma holdsBox_applyRect_new (a : Extremes) (x y w h : Q) :
  holdsBox (applyRect a x y w h) x y (x + w) (y + h).
Proof.
  unfold holdsBox, applyRect. cbn [e_minX e_maxX e_minY e_maxY].
  auto using atMost_min_new, atLeast_max_new.
Qed.

Lemma holdsBox_applyRect_mono (a : Extremes) (x y w h x0 y0 x1 y1 : Q) :
  holdsBox a x0 y0 x1 y1 -> holdsBox (applyRect a x y w h) x0 y0 x1 y1.
Proof.
  unfold holdsBox, applyRect. cbn [e_minX e_maxX e_minY e_maxY].
  intros (H1 & H2 & H3 & H4).
  auto using atMost_min_mono, atLeast_max_mono.
Qed.

Lemma holdsBox_applyPoint_new (a : Extremes) (x y : Q) :
  holdsBox (applyPoint a x y) x y x y.
Proof.
  unfold holdsBox, applyPoint. cbn [e_minX e_maxX e_minY e_maxY].
  auto using atMost_min_new, atLeast_max_new.
Qed.

Lemma holdsBox_applyPoint_mono (a : Extremes) (x y x0 y0 x1 y1 : Q) :
  holdsBox a x0 y0 x1 y1 -> holdsBox (applyPoint a x y) x0 y0 x1 y1.
Proof.
  unfold holdsBox, applyPoint. cbn [e_minX e_maxX e_minY e_maxY].
  intros (H1 & H2 & H3 & H4).
  auto using atMost_min_mono, atLeast_max_mono.
Qed.

(** One round of the loop holds its own element and whatever was held. *)
Lemma boundsOfEntry_holds (measureText : string -> Q -> Q) (v : View)
  (e : Editor) (a a1 : Extremes) (sel : Sel.t) :
  boundsOfEntry measureText v e a sel = Some a1 ->
  holdsEntry measureText v e a1 sel /\
  forall x0 y0 x1 y1, holdsBox a x0 y0 x1 y1 -> holdsBox a1 x0 y0 x1 y1.
Proof.
  unfold boundsOfEntry, holdsEntry.
  destruct (Sel.type sel);
    (destruct (_ !! Sel.index sel) as [x|]; [|discriminate]);
    intros [= <-].
  - split; [intros p [= <-]; apply holdsBox_applyRect_new|].
    intros. apply holdsBox_applyRect_mono. assumption.
  - split; [intros o [= <-]; apply holdsBox_applyRect_new|].
    intros. apply holdsBox_applyRect_mono. assumption.
  - split.
    + intros b [= <-]. split.
      * apply holdsBox_applyPoint_mono, holdsBox_applyPoint_new.
      * apply holdsBox_applyPoint_new.
    + intros. apply holdsBox_applyPoint_mono, holdsBox_applyPoint_mono.
      assumption.
  - split; [intros t [= <-]; apply holdsBox_applyRect_new|].
    intros. apply holdsBox_applyRect_mono. assumption.
Qed.

Lemma holdsEntry_mono (measureText : string -> Q -> Q) (v : View) (e : Editor)
  (a a' : Extremes) (sel : Sel.t) :
  (forall x0 y0 x1 y1, holdsBox a x0 y0 x1 y1 -> holdsBox a' x0 y0 x1 y1) ->
  holdsEntry measureText v e a sel -> holdsEntry measureText v e a' sel.
Proof.
  intros Hmono. unfold holdsEntry.
  destruct (Sel.type sel); intros H x Hx; try (apply Hmono, H, Hx).
  destruct (H x Hx). split; apply Hmono; assumption.
Qed.

Lemma selectionExtremes_holds (measureText : string -> Q -> Q) (v : View)
  (e : Editor) (sels : list Sel.t) (a r : Extremes) :
  selectionExtremes measureText v e sels a = Some r ->
  (forall x0 y0 x1 y1, holdsBox a x0 y0 x1 y1 -> holdsBox r x0 y0 x1 y1) /\
  forall s, s ∈ sels -> holdsEntry measureText v e r s.
Proof.
  unfold selectionExtremes. revert a.
  induction sels as [|s sels IH]; intros a Hr.
  - injection Hr as <-. split; [auto|]. intros s Hs. inversion Hs.
  - cbn [fold_left mbind option_bind] in Hr.
    destruct (boundsOfEntry measureText v e a s) as [a1|] eqn:H1.
    2:{ exfalso. clear -Hr. induction sels as [|s' sels IH']; [discriminate|].
        apply IH'. exact Hr. }
    destruct (boundsOfEntry_holds _ _ _ _ _ _ H1) as [Hnew Hmono1].
    destruct (IH a1 Hr) as [Hmono Hrest].
    split; [auto|].
    intros s' Hs'. apply elem_of_cons in Hs' as [->|Hs']; [|auto].
    apply (holdsEntry_mono _ _ _ a1); assumption.
Qed.

(** X27.  The box [getSelectionBounds] returns encloses the selection: the
    rectangle of every selected panel, obstacle and text and both ends of
    every selected beam lie within it, and its width and height are the
    differences of its sides.  Scale and zoom are not zero. *)
Theorem selection_bounds_enclose (measureText : string -> Q -> Q) (v : View)
  (e : Editor) (bounds : SelectionBounds) :
  ~ scale e * zoomLevel v == 0 ->
  getSelectionBounds measureText v e = Some (Some bounds) ->
  sel_width bounds = sel_maxX bounds - sel_minX bounds /\
  sel_height bounds = sel_maxY bounds - sel_minY bounds /\
  forall sel, sel ∈ selectedElements e ->
    holdsEntry measureText v e (boxExtremes bounds) sel.
Proof.
  intros _. unfold getSelectionBounds.
  destruct (selectedElements e) as [|s0 rest] eqn:Hsel; [discriminate|].
  rewrite <- Hsel.
  destruct (selectionExtremes measureText v e (selectedElements e) noExtremes)
    as [r|] eqn:Hr; [|discriminate].
  destruct (selectionExtremes_holds _ _ _ _ _ _ Hr) as [_ Hall].
  destruct r as [[|ax|] [|bx|] [|ay|] [|by_|]]; try discriminate.
  intros [= <-]. cbn [sel_width sel_height sel_minX sel_maxX sel_minY sel_maxY].
  split; [reflexivity|]. split; [reflexivity|]. exact Hall.
Qed.

Lemma selection_bounds_enclose_witness :
  holdsBox
    (boxExtremes (mkSelectionBounds 0 0 (0 + 114) (0 + 228)
                    (0 + 114 - 0) (0 + 228 - 0)))
    0 0 (0 + 114) (0 + 228).
Proof.
  destruct (selection_bounds_enclose (fun _ _ => 0) (mkView 50 50 1 10 true)
              scenarioEditor
              (mkSelectionBounds 0 0 (0 + 114) (0 + 228)
                 (0 + 114 - 0) (0 + 228 - 0)))
    as (_ & _ & Hall).
  - intros H. apply Qeq_bool_iff in H. vm_compute in H. discriminate.
  - reflexivity.
  - assert (Hin : Sel.mk KPanel 0 ∈ selectedElements scenarioEditor)
      by (simpl; apply list_elem_of_singleton; reflexivity).
    exact (Hall (Sel.mk KPanel 0) Hin scenarioPanel eq_refl).
Defined.
